(** * Sentimind.ai: the naive Bayes classifier of src/SentimentAnalyzer.jsx

    A shallow embedding of [class NaiveBayesClassifier] (lines 46-101):
    [tokenize], [train] and [predict], together with the fragment of
    JavaScript's value semantics those three methods rely on.

    Modelling conventions.
    - A JavaScript string is a Rocq [string]; a character is one code unit
      in the range 0..255 (the Latin-1 block).  [toLowerCase], [\w] and [\s]
      are given on that range, which is closed under all three: a statement
      about a [string] is a statement about text of that block.  The
      tokenizer is given a second time on sequences of 16-bit code units
      ([Utf16]), with the runtime's [toLowerCase] as a parameter.
    - Plain objects used as dictionaries ([wordCounts[c]], [classCounts])
      are [gmap string jsval] holding the own properties; a read that
      misses falls through to [Object.prototype], as in the language.
      The insertion order of properties and of [Set] members is not part
      of the state: [predict] reads a sum of the values and the size only.
    - Counts are exact naturals ([N]); scores are IEEE doubles, modelled by
      their special values (NaN, +Infinity, -Infinity) and, for finite
      values, by exact reals: rounding is not modelled.
    - [train] mutates [this] and may throw; it is a function from the
      corpus to an outcome carrying the state it leaves behind. *)

From Stdlib Require Import Reals Lra Lia Ascii String QArith.
From stdpp Require Import gmap strings list fin_maps.

Local Open Scope string_scope.

(** ** Characters and strings *)

Module Chars.

Definition code (c : ascii) : nat := nat_of_ascii c.

Definition between (lo hi n : nat) : bool := (lo <=? n)%nat && (n <=? hi)%nat.

(** ASCII decimal digit, [0-9]. *)
Definition is_digit (c : ascii) : bool := between 48 57 (code c).

(** ASCII letter, [A-Za-z]. *)
Definition is_ascii_letter (c : ascii) : bool :=
  between 65 90 (code c) || between 97 122 (code c).

(** A letter of the Latin-1 block (Unicode general category L): the ASCII
    letters, the ordinal indicators, the micro sign and the accented
    letters U+00C0..U+00FF without the two arithmetic signs. *)
Definition is_letter (c : ascii) : bool :=
  let n := code c in
  is_ascii_letter c
  || (n =? 170)%nat || (n =? 181)%nat || (n =? 186)%nat
  || (between 192 255 n && negb (n =? 215)%nat && negb (n =? 247)%nat).

(** The regular-expression class [\w]: [A-Za-z0-9_]. *)
Definition is_word (c : ascii) : bool :=
  is_ascii_letter c || is_digit c || (code c =? 95)%nat.

(** The regular-expression class [\s] on code units below 256: tab, line
    feed, vertical tab, form feed, carriage return, space, no-break space. *)
Definition is_space (c : ascii) : bool :=
  let n := code c in between 9 13 n || (n =? 32)%nat || (n =? 160)%nat.

(** [String.prototype.toLowerCase] on one code unit below 256. *)
Definition lower (c : ascii) : ascii :=
  let n := code c in
  if between 65 90 n || (between 192 222 n && negb (n =? 215)%nat)
  then ascii_of_nat (n + 32) else c.

Fixpoint smap (f : ascii → ascii) (s : string) : string :=
  match s with
  | EmptyString => EmptyString
  | String c r => String (f c) (smap f r)
  end.

Fixpoint sfilter (p : ascii → bool) (s : string) : string :=
  match s with
  | EmptyString => EmptyString
  | String c r => if p c then String c (sfilter p r) else sfilter p r
  end.

Definition toLowerCase (s : string) : string := smap lower s.

(** [s.replace(/[^\w\s]/g, '')]: every character outside [\w] and [\s] is
    deleted. *)
Definition strip_non_word (s : string) : string :=
  sfilter (λ c, is_word c || is_space c) s.

(** [s.split(/\s+/)]: the scanner walks the string once; [cur] is the piece
    being read and [in_sep] tells that the previous character belonged to a
    separator (a maximal run of [\s]).  A separator at either end leaves an
    empty piece there, and the empty string splits into one empty piece. *)
Fixpoint split_from (in_sep : bool) (cur : string) (s : string) : list string :=
  match s with
  | EmptyString => [cur]
  | String c r =>
      if is_space c then
        if in_sep then split_from true cur r
        else cur :: split_from true EmptyString r
      else split_from false (cur +:+ String c EmptyString) r
  end.

Definition split_ws (s : string) : list string := split_from false EmptyString s.

End Chars.

(** ** The tokenizer (lines 54-57) *)

(** [text] is a string or missing ([undefined]/[null]); both a missing and
    an empty text are falsy and take the early return. *)
Definition tokenize (text : option string) : list string :=
  match text with
  | None => []
  | Some EmptyString => []
  | Some s =>
      List.filter (λ w, (2 <? String.length w)%nat)
        (Chars.split_ws (Chars.strip_non_word (Chars.toLowerCase s)))
  end.

(** *** The tokenizer as the specification words it

    Lower-case, keep the characters of a class [keep], split on runs of
    whitespace, discard the tokens of length at most 2. *)

Module TokenSpec.

(** Cut at every single whitespace character. *)
Fixpoint pieces (s : string) : list string :=
  match s with
  | EmptyString => [EmptyString]
  | String c r =>
      if Chars.is_space c then EmptyString :: pieces r
      else match pieces r with
           | w :: ws => String c w :: ws
           | [] => [String c EmptyString]
           end
  end.

Definition nonempty (w : string) : bool :=
  match w with EmptyString => false | _ => true end.

(** The words of a text: its maximal whitespace-free runs, in order. *)
Definition words (s : string) : list string := List.filter nonempty (pieces s).

Definition long (w : string) : bool := (2 <? String.length w)%nat.

Definition tokens_keeping (keep : ascii → bool) (text : option string) : list string :=
  let s := default EmptyString text in
  List.filter long (words (Chars.sfilter keep (Chars.toLowerCase s))).

(** "every character that is not a letter, digit, or whitespace" *)
Definition keep_spec (c : ascii) : bool :=
  Chars.is_letter c || Chars.is_digit c || Chars.is_space c.

(** What [/[^\w\s]/] leaves: ASCII letters, digits, the underscore and
    whitespace. *)
Definition keep_code (c : ascii) : bool :=
  Chars.is_ascii_letter c || Chars.is_digit c || (Chars.code c =? 95)%nat
  || Chars.is_space c.

Definition spec_tokenize : option string → list string := tokens_keeping keep_spec.

End TokenSpec.

(** ** JavaScript values and numbers *)

Module JS.

(** The values a count slot can hold or a property read can return. *)
Inductive jsval :=
| VUndef                  (* undefined *)
| VInt (n : N)            (* a number that is an exact natural *)
| VNaN                    (* the number NaN *)
| VStr (s : string)       (* a string *)
| VFun (key : string)     (* the function stored in Object.prototype under [key] *)
| VProto.                 (* the object Object.prototype *)

(** The function-valued properties every plain object inherits. *)
Definition proto_methods : list string :=
  ["constructor"; "__defineGetter__"; "__defineSetter__"; "hasOwnProperty";
   "__lookupGetter__"; "__lookupSetter__"; "isPrototypeOf";
   "propertyIsEnumerable"; "toString"; "valueOf"; "toLocaleString"].

Definition is_proto_method (k : string) : bool := bool_decide (k ∈ proto_methods).

Definition is_proto_key (k : string) : bool :=
  bool_decide (k = "__proto__") || is_proto_method k.

(** A read on [Object.prototype]: [__proto__] is an accessor that returns
    the prototype of the receiver, which for an object literal is
    [Object.prototype] itself. *)
Definition proto_get (k : string) : jsval :=
  if bool_decide (k = "__proto__") then VProto
  else if is_proto_method k then VFun k
  else VUndef.

(** [o[k]] on an object literal: own property first, then the prototype. *)
Definition get_prop (o : gmap string jsval) (k : string) : jsval :=
  match o !! k with
  | Some v => v
  | None => proto_get k
  end.

(** [o[k] = v] for a primitive [v] (the program stores numbers and strings
    only): the inherited methods are writable data properties, so the write
    creates an own property; [__proto__] is a setter that ignores
    primitives, so the write is lost. *)
Definition set_prop (o : gmap string jsval) (k : string) (v : jsval) : gmap string jsval :=
  if bool_decide (k = "__proto__") then o else <[k := v]> o.

(** ToBoolean. *)
Definition truthy (v : jsval) : bool :=
  match v with
  | VUndef | VNaN => false
  | VInt n => negb (n =? 0)%N
  | VStr s => negb (bool_decide (s = EmptyString))
  | VFun _ | VProto => true
  end.

(** [a || b]. *)
Definition js_or (a b : jsval) : jsval := if truthy a then a else b.

(** Source text of a built-in function, as [String(f)] gives it (V8's
    layout; engines differ in white space only); the property [constructor]
    holds the function named [Object]. *)
Definition fun_text (key : string) : string :=
  "function " +:+ (if bool_decide (key = "constructor") then "Object" else key)
  +:+ "() { [native code] }".

(** [v + 1]: numeric addition on numbers; as soon as [v] is a string, or an
    object (whose primitive is its string form), it is concatenation. *)
Definition add_one (v : jsval) : jsval :=
  match v with
  | VInt n => VInt (n + 1)
  | VUndef | VNaN => VNaN
  | VStr s => VStr (s +:+ "1")
  | VFun k => VStr (fun_text k +:+ "1")
  | VProto => VStr "[object Object]1"
  end.

(** The value [v++] stores: ToNumeric(v) + 1; every value but a number
    converts to NaN (see [to_number] for strings). *)
Definition incr (v : jsval) : jsval :=
  match v with
  | VInt n => VInt (n + 1)
  | _ => VNaN
  end.

(** IEEE doubles: the special values, and exact reals for the finite ones. *)
Inductive jsnum :=
| Fin (r : R)
| PInf
| NInf
| NaN.

(** ToNumber.  The strings of this program start with the text of a
    built-in ([stored_strings_are_text] below), which no numeric literal
    does, so each converts to NaN. *)
Definition to_number (v : jsval) : jsnum :=
  match v with
  | VInt n => Fin (IZR (Z.of_N n))
  | _ => NaN
  end.

(** [a / b].  Zero is the positive zero: no operand of this program is
    negative. *)
Definition js_div (a b : jsnum) : jsnum :=
  match a, b with
  | NaN, _ | _, NaN => NaN
  | Fin x, Fin y =>
      if Req_dec_T y 0 then
        if Req_dec_T x 0 then NaN else if Rlt_dec 0 x then PInf else NInf
      else Fin (x / y)
  | Fin _, _ => Fin 0
  | PInf, Fin y => if Rle_dec 0 y then PInf else NInf
  | NInf, Fin y => if Rle_dec 0 y then NInf else PInf
  | _, _ => NaN
  end.

(** [Math.log]. *)
Definition js_log (a : jsnum) : jsnum :=
  match a with
  | Fin x => if Rlt_dec 0 x then Fin (ln x) else if Req_dec_T x 0 then NInf else NaN
  | PInf => PInf
  | NInf | NaN => NaN
  end.

(** [a + b] on numbers. *)
Definition js_add (a b : jsnum) : jsnum :=
  match a, b with
  | NaN, _ | _, NaN => NaN
  | Fin x, Fin y => Fin (x + y)
  | PInf, NInf | NInf, PInf => NaN
  | PInf, _ | _, PInf => PInf
  | NInf, _ | _, NInf => NInf
  end.

(** [a > b]: false as soon as one side is NaN. *)
Definition js_gt (a b : jsnum) : bool :=
  match a, b with
  | NaN, _ | _, NaN => false
  | Fin x, Fin y => if Rlt_dec y x then true else false
  | PInf, PInf => false
  | PInf, _ => true
  | _, PInf => false
  | NInf, _ => false
  | Fin _, NInf => true
  end.

(** [a >= b]. *)
Definition js_ge (a b : jsnum) : bool :=
  match a, b with
  | NaN, _ | _, NaN => false
  | Fin x, Fin y => if Rle_dec y x then true else false
  | PInf, _ => true
  | _, NInf => true
  | _, PInf => false
  | NInf, Fin _ => false
  end.

Definition finite (a : jsnum) : Prop := ∃ r, a = Fin r.

End JS.

Import JS.

(** ** The classifier state (lines 47-52) *)

Inductive Category := Positive | Negative | Neutral.

Definition cat_name (c : Category) : string :=
  match c with
  | Positive => "Positive"
  | Negative => "Negative"
  | Neutral => "Neutral"
  end.

Definition category_of (l : string) : option Category :=
  if bool_decide (l = "Positive") then Some Positive
  else if bool_decide (l = "Negative") then Some Negative
  else if bool_decide (l = "Neutral") then Some Neutral
  else None.

(** [const categories = ['Positive', 'Negative', 'Neutral']] (line 80). *)
Definition categories : list Category := [Positive; Negative; Neutral].

(** [wordCounts] is an object with exactly three own properties, each an
    object literal; no statement adds or removes a property of [wordCounts]
    itself, so it is a record of three dictionaries.  [classCounts] can
    receive further own properties (line 68 writes under any label). *)
Record model := mkModel {
  wcPositive : gmap string jsval;
  wcNegative : gmap string jsval;
  wcNeutral : gmap string jsval;
  classCounts : gmap string jsval;
  vocab : gset string;
  totalDocs : N
}.

Definition wordCounts (m : model) (c : Category) : gmap string jsval :=
  match c with
  | Positive => wcPositive m
  | Negative => wcNegative m
  | Neutral => wcNeutral m
  end.

Definition set_wordCounts (m : model) (c : Category) (o : gmap string jsval) : model :=
  match c with
  | Positive => mkModel o (wcNegative m) (wcNeutral m) (classCounts m) (vocab m) (totalDocs m)
  | Negative => mkModel (wcPositive m) o (wcNeutral m) (classCounts m) (vocab m) (totalDocs m)
  | Neutral => mkModel (wcPositive m) (wcNegative m) o (classCounts m) (vocab m) (totalDocs m)
  end.

(** The constructor, and the first four statements of [train]. *)
Definition fresh : model :=
  mkModel ∅ ∅ ∅
    (<["Positive" := VInt 0]> (<["Negative" := VInt 0]> (<["Neutral" := VInt 0]> ∅)))
    ∅ 0.

Definition constructor : model := fresh.

Record document := mkDoc { text : string; label : string }.

(** ** train (lines 59-76) *)

(** What [this.wordCounts[category]] evaluates to. *)
Inductive slot :=
| SlotCategory (c : Category)   (* one of the three dictionaries *)
| SlotBuiltin                   (* a function or object inherited by [wordCounts] *)
| SlotUndefined.

Definition wordCounts_slot (l : string) : slot :=
  match category_of l with
  | Some c => SlotCategory c
  | None => if is_proto_key l then SlotBuiltin else SlotUndefined
  end.

(** How a call of [train] ends.  [Threw] is the TypeError of reading a
    property of [undefined]; [this] keeps the state reached so far.
    [Escaped] marks a write that landed on a built-in object shared by the
    whole runtime ([Object], [Object.prototype], ...): the model stops there. *)
Inductive outcome :=
| Done (m : model)
| Threw (m : model)
| Escaped (m : model).

Definition bind (o : outcome) (k : model → outcome) : outcome :=
  match o with
  | Done m => k m
  | _ => o
  end.

(** The body of the inner [forEach] (lines 72-73). *)
Definition add_token (l : string) (m : model) (token : string) : outcome :=
  let m1 := mkModel (wcPositive m) (wcNegative m) (wcNeutral m) (classCounts m)
              ({[token]} ∪ vocab m) (totalDocs m) in
  match wordCounts_slot l with
  | SlotCategory c =>
      let o := wordCounts m1 c in
      Done (set_wordCounts m1 c (set_prop o token (add_one (js_or (get_prop o token) (VInt 0)))))
  | SlotUndefined => Threw m1
  | SlotBuiltin => Escaped m1
  end.

Fixpoint add_tokens (l : string) (m : model) (tokens : list string) : outcome :=
  match tokens with
  | [] => Done m
  | t :: r => bind (add_token l m t) (λ m', add_tokens l m' r)
  end.

(** The body of the outer [forEach] (lines 66-74). *)
Definition add_doc (m : model) (doc : document) : outcome :=
  let category := label doc in
  let m1 := mkModel (wcPositive m) (wcNegative m) (wcNeutral m)
              (set_prop (classCounts m) category (incr (get_prop (classCounts m) category)))
              (vocab m) (totalDocs m + 1) in
  add_tokens category m1 (tokenize (Some (text doc))).

Fixpoint add_docs (m : model) (documents : list document) : outcome :=
  match documents with
  | [] => Done m
  | d :: r => bind (add_doc m d) (λ m', add_docs m' r)
  end.

(** [train] first overwrites the four fields, whatever [this] held. *)
Definition train (this : model) (documents : list document) : outcome :=
  add_docs fresh documents.

(** ** predict (lines 78-100) *)

Record prediction := mkPrediction {
  p_label : Category;
  p_scores : gmap string jsnum
}.

(** [Object.values(o).reduce((a, b) => a + b, 0)]: the sum of the counts
    while every value is a number; [None] once a string took part, when [+]
    concatenates and the result is a string containing the text of a
    built-in (in an order that depends on the insertion order). *)
Definition classTotalWords (o : gmap string jsval) : option N :=
  map_fold (λ _ v acc,
      match acc, v with
      | Some a, VInt n => Some (a + n)%N
      | _, _ => None
      end) (Some 0%N) o.

(** [classTotalWords + vocabSize] as the division reads it. *)
Definition denominator (m : model) (c : Category) : jsnum :=
  match classTotalWords (wordCounts m c) with
  | Some t => Fin (IZR (Z.of_N t) + INR (size (vocab m)))
  | None => NaN
  end.

(** [x || d] for a numeric literal [d], as a division operand. *)
Definition or_number (v : jsval) (d : R) : jsnum :=
  if truthy v then to_number v else Fin d.

(** Line 86. *)
Definition prior (m : model) (c : Category) : jsnum :=
  js_log (js_div (or_number (get_prop (classCounts m) (cat_name c)) (1 / 10))
                 (or_number (VInt (totalDocs m)) 1)).

(** Lines 88-91, one token. *)
Definition likelihood (m : model) (c : Category) (token : string) : jsnum :=
  let tokenCount := js_or (get_prop (wordCounts m c) token) (VInt 0) in
  js_log (js_div (to_number (add_one tokenCount)) (denominator m c)).

(** Lines 86-92: the value of [logProb] after the inner loop. *)
Definition logProb (m : model) (tokens : list string) (c : Category) : jsnum :=
  fold_left (λ acc token, js_add acc (likelihood m c token)) tokens (prior m c).

(** The loop state: [bestCategory], [maxProb], [scores]. *)
Definition loop_state : Type := Category * jsnum * gmap string jsnum.

(** Lines 85-98, one category. *)
Definition visit (m : model) (tokens : list string) (st : loop_state) (c : Category) : loop_state :=
  let '(bestCategory, maxProb, scores) := st in
  let lp := logProb m tokens c in
  let scores' := <[cat_name c := lp]> scores in
  if js_gt lp maxProb then (c, lp, scores') else (bestCategory, maxProb, scores').

Definition predict (m : model) (text : string) : prediction :=
  let tokens := tokenize (Some text) in
  let '(bestCategory, _, scores) :=
    fold_left (visit m tokens) categories (Neutral, NInf, ∅) in
  mkPrediction bestCategory scores.

(** [scores[c]] of a prediction. *)
Definition score_of (p : prediction) (c : Category) : option jsnum :=
  p_scores p !! cat_name c.

(** ** Corpus statistics

    Closed forms for what [train] accumulates, used to state and prove the
    properties of a fitted model. *)

Global Instance Category_eq_dec : EqDecision Category.
Proof. solve_decision. Defined.

Definition valid_doc (d : document) : Prop := is_Some (category_of (label d)).

(** A corpus as the data model has it: every label is a Category. *)
Definition valid_corpus (docs : list document) : Prop := Forall valid_doc docs.

Definition doc_tokens (d : document) : list string := tokenize (Some (text d)).

Definition has_label (c : Category) (d : document) : bool :=
  bool_decide (category_of (label d) = Some c).

(** The terms of the documents labelled [c], in corpus order. *)
Definition tokens_in (docs : list document) (c : Category) : list string :=
  flat_map (λ d, if has_label c d then doc_tokens d else []) docs.

Definition all_tokens (docs : list document) : list string :=
  flat_map doc_tokens docs.

Definition count_label (docs : list document) (c : Category) : N :=
  N.of_nat (length (List.filter (has_label c) docs)).

(** Number of occurrences of a term in a token list. *)
Definition occ (t : string) (ts : list string) : N :=
  N.of_nat (length (List.filter (λ u, bool_decide (u = t)) ts)).

(** One execution of line 73 on the dictionary [o]. *)
Definition bump (o : gmap string jsval) (t : string) : gmap string jsval :=
  set_prop o t (add_one (js_or (get_prop o t) (VInt 0))).

Definition bump_all (o : gmap string jsval) (ts : list string) : gmap string jsval :=
  fold_left bump ts o.

Definition class_counts (a b c : N) : gmap string jsval :=
  <["Positive" := VInt a]> (<["Negative" := VInt b]> (<["Neutral" := VInt c]> ∅)).

(** The state a completed fit of a valid corpus leaves. *)
Definition fitted (docs : list document) : model :=
  mkModel (bump_all ∅ (tokens_in docs Positive))
          (bump_all ∅ (tokens_in docs Negative))
          (bump_all ∅ (tokens_in docs Neutral))
          (class_counts (count_label docs Positive) (count_label docs Negative)
                        (count_label docs Neutral))
          (list_to_set (all_tokens docs))
          (N.of_nat (length docs)).

(** A term that does not name a property of [Object.prototype]. *)
Definition clean_token (t : string) : Prop := is_proto_key t = false.

(** Prefix the piece under construction to the first piece of the rest. *)
Definition glue (cur : string) (l : list string) : list string :=
  match l with
  | p :: ps => (cur +:+ p) :: ps
  | [] => [cur]
  end.


(** The selection of lines 94-97 alone, over given scores. *)
Definition select (s : Category → jsnum) : Category * jsnum :=
  fold_left (λ best c, if js_gt (s c) best.2 then (c, s c) else best)
    categories (Neutral, NInf).

(** A document on which the inner loop of [train] reads a property of
    [undefined]: its label is no own or inherited property of [wordCounts]
    and its text has at least one term. *)
Definition breaks (d : document) : bool :=
  match wordCounts_slot (label d), doc_tokens d with
  | SlotUndefined, _ :: _ => true
  | _, _ => false
  end.

(** [m] with another [classCounts]. *)
Definition with_classCounts (m : model) (cc : gmap string jsval) : model :=
  mkModel (wcPositive m) (wcNegative m) (wcNeutral m) cc (vocab m) (totalDocs m).

(** Every count stored under a label that is no property of [wordCounts]
    is NaN. *)
Definition extra_counts_nan (m : model) : Prop :=
  ∀ l v, wordCounts_slot l = SlotUndefined → classCounts m !! l = Some v → v = VNaN.

(** ** The score as the specification words it

    [termFrequency[category][token]] is the count the dictionary stores for
    the term, 0 for a term it does not hold; the total is the sum of the
    stored counts. *)

Module ScoreSpec.

Definition stored_count (o : gmap string jsval) (t : string) : N :=
  match o !! t with
  | Some (VInt n) => n
  | _ => 0
  end.

Definition total_count (o : gmap string jsval) : N :=
  map_fold (λ _ v acc, match v with VInt n => acc + n | _ => acc end)%N 0%N o.

Definition spec_prior (m : model) (c : Category) : jsnum :=
  js_log (js_div
            (Fin (Rmax (IZR (Z.of_N (stored_count (classCounts m) (cat_name c)))) (1 / 10)))
            (Fin (Rmax (IZR (Z.of_N (totalDocs m))) 1))).

Definition spec_likelihood (m : model) (c : Category) (t : string) : jsnum :=
  js_log (js_div
            (Fin (IZR (Z.of_N (stored_count (wordCounts m c) t)) + 1))
            (Fin (IZR (Z.of_N (total_count (wordCounts m c))) + INR (size (vocab m))))).

Definition spec_score (m : model) (tokens : list string) (c : Category) : jsnum :=
  fold_left (λ acc t, js_add acc (spec_likelihood m c t)) tokens (spec_prior m c).

End ScoreSpec.

(** ** The invariant of the data model *)

Definition counts_add_up (m : model) : Prop :=
  (ScoreSpec.stored_count (classCounts m) "Positive"
   + ScoreSpec.stored_count (classCounts m) "Negative"
   + ScoreSpec.stored_count (classCounts m) "Neutral")%N = totalDocs m.

(** Every stored term frequency is a number (hence a non-negative count). *)
Definition frequencies_are_counts (m : model) : Prop :=
  ∀ c t v, wordCounts m c !! t = Some v → ∃ n, v = VInt n.

Definition vocab_is_union_of_keys (m : model) : Prop :=
  vocab m = dom (wcPositive m) ∪ dom (wcNegative m) ∪ dom (wcNeutral m).

(** A dictionary all of whose values are numbers. *)
Definition counts_only (o : gmap string jsval) : Prop :=
  ∀ t v, o !! t = Some v → ∃ n, v = VInt n.

(** No term of the corpus names a property of [Object.prototype]. *)
Definition clean_corpus (docs : list document) : Prop :=
  Forall clean_token (all_tokens docs).

(** ** Sums over token lists, for the relabelling property *)

(** The sum of [g] over the occurrences in a token list. *)
Definition rsum (g : string → R) (ts : list string) : R :=
  fold_right (λ t acc, (g t + acc)%R) 0%R ts.

(** The harmonic combination [a b / (a + b)]. *)
Definition par (a b : R) : R := (a * b / (a + b))%R.

(** The count of a term as a real number. *)
Definition rocc (t : string) (ts : list string) : R := IZR (Z.of_N (occ t ts)).

Definition rlength (ts : list string) : R := INR (length ts).

(** The tokens other than [t]. *)
Definition others (t : string) (ts : list string) : list string :=
  List.filter (λ u, negb (bool_decide (u = t))) ts.

(** The two summands of the stated score, as reals. *)
Definition rprior (m : model) (c : Category) : R :=
  ln (Rmax (IZR (Z.of_N (ScoreSpec.stored_count (classCounts m) (cat_name c)))) (1 / 10)
      / Rmax (IZR (Z.of_N (totalDocs m))) 1).

Definition rlik (m : model) (c : Category) (t : string) : R :=
  ln ((IZR (Z.of_N (ScoreSpec.stored_count (wordCounts m c) t)) + 1)
      / (IZR (Z.of_N (ScoreSpec.total_count (wordCounts m c))) + INR (size (vocab m)))).

(** ** One document of a completed fit *)

(** [add_doc] completes on a document whose label is a category, or whose
    text has no term (the inner loop is not entered). *)
Definition completes (d : document) : bool :=
  match wordCounts_slot (label d), doc_tokens d with
  | SlotCategory _, _ => true
  | _, [] => true
  | _, _ => false
  end.

(** The state a completed [add_doc] leaves. *)
Definition step (m : model) (d : document) : model :=
  let cc := set_prop (classCounts m) (label d) (incr (get_prop (classCounts m) (label d))) in
  match category_of (label d) with
  | Some c =>
      set_wordCounts
        (mkModel (wcPositive m) (wcNegative m) (wcNeutral m) cc
                 (list_to_set (doc_tokens d) ∪ vocab m) (totalDocs m + 1))
        c (bump_all (wordCounts m c) (doc_tokens d))
  | None =>
      mkModel (wcPositive m) (wcNegative m) (wcNeutral m) cc (vocab m) (totalDocs m + 1)
  end.

(** A string that starts like the text of a built-in function or object:
    with "f" or with "[". *)
Definition is_text (s : string) : bool :=
  match s with
  | String c _ => bool_decide (c = "f"%char) || bool_decide (c = "["%char)
  | EmptyString => false
  end.

(** Every string a dictionary holds is such a text. *)
Definition strings_are_text (o : gmap string jsval) : Prop :=
  ∀ t s, o !! t = Some (VStr s) → is_text s = true.

(** ** Further string operations of the source *)

Module Text.

(** A character a token can contain: [a-z0-9_]. *)
Definition is_token_char (c : ascii) : bool :=
  Chars.between 97 122 (Chars.code c) || Chars.is_digit c || (Chars.code c =? 95)%nat.

Fixpoint chars (s : string) : list ascii :=
  match s with
  | EmptyString => []
  | String c r => c :: chars r
  end.

Fixpoint trim_start (s : string) : string :=
  match s with
  | EmptyString => EmptyString
  | String c r => if Chars.is_space c then trim_start r else s
  end.

Fixpoint trim_end (s : string) : string :=
  match s with
  | EmptyString => EmptyString
  | String c r =>
      match trim_end r with
      | EmptyString => if Chars.is_space c then EmptyString else String c EmptyString
      | r' => String c r'
      end
  end.

(** [String.prototype.trim]: white space and line terminators are removed
    at both ends; on code units below 256 that is the class [\s]. *)
Definition trim (s : string) : string := trim_end (trim_start s).

(** [Array.prototype.join] on strings. *)
Fixpoint join (sep : string) (l : list string) : string :=
  match l with
  | [] => EmptyString
  | [w] => w
  | w :: r => w +:+ sep +:+ join sep r
  end.

End Text.

(** The normal form the tokenizer splits: lower-cased, without the
    characters outside [\w] and [\s]. *)
Definition normalise (s : string) : string :=
  Chars.strip_non_word (Chars.toLowerCase s).

(** A well-formed token: at least three characters, all in [a-z0-9_]. *)
Definition token_ok (w : string) : Prop :=
  (3 <= String.length w)%nat ∧ Forall (λ c, Text.is_token_char c = true) (Text.chars w).

(** ** callGemini (lines 12-40)

    The request is sent at most three times.  What the network answers is
    not decided by the program: it is given as a function from the index of
    the attempt to the outcome of that [fetch].  The run is returned with
    its trace of fetches and sleeps. *)

Module Gemini.

Local Set Warnings "-register-all".

(** The values [response.json()] can resolve to, and [undefined] for a
    property read that misses. *)
Inductive value :=
| Undefined
| Null
| Bool (b : bool)
| Num (q : Q)
| Str (s : string)
| Arr (items : list value)
| Obj (fields : list (string * value)).

(** An own property of a parsed object; of two members with the same name
    the later one stays. *)
Fixpoint field (fields : list (string * value)) (k : string) : option value :=
  match fields with
  | [] => None
  | (k', v) :: r =>
      match field r k with
      | Some w => Some w
      | None => if bool_decide (k' = k) then Some v else None
      end
  end.

(** [v[k]] for a value that is neither [null] nor [undefined] and a key
    among "candidates", "content", "parts", "text" and "0" (none of which is
    inherited from a prototype): an own property of an object, the first
    element of an array, the first code unit of a string. *)
Definition prop (v : value) (k : string) : value :=
  match v with
  | Obj fields => default Undefined (field fields k)
  | Arr items => if bool_decide (k = "0") then default Undefined (head items) else Undefined
  | Str (String c _) => if bool_decide (k = "0") then Str (String c EmptyString) else Undefined
  | _ => Undefined
  end.

(** [v?.[k]]: [undefined] when [v] is [null] or [undefined]. *)
Definition opt_prop (v : value) (k : string) : value :=
  match v with
  | Undefined | Null => Undefined
  | _ => prop v k
  end.

(** ToBoolean. *)
Definition truthy (v : value) : bool :=
  match v with
  | Undefined | Null => false
  | Bool b => b
  | Num q => negb (Qeq_bool q 0)
  | Str s => negb (bool_decide (s = EmptyString))
  | Arr _ | Obj _ => true
  end.

Definition no_response : value := Str "No response generated.".
Definition error_message : value := Str "Error generating AI response. Please try again.".

(** Line 34.  [None]: the read of [candidates] on [null] throws. *)
Definition extract (data : value) : option value :=
  match data with
  | Undefined | Null => None
  | _ =>
      let text :=
        opt_prop (opt_prop (opt_prop (opt_prop (opt_prop (prop data "candidates")
          "0") "content") "parts") "0") "text" in
      Some (if truthy text then text else no_response)
  end.

(** The outcome of one [fetch]: it rejects, or resolves to a response with
    its [ok] flag, its status, and the value [response.json()] resolves to
    ([None] when that promise rejects). *)
Inductive attempt :=
| Rejected
| Response (ok : bool) (status : N) (body : option value).

(** The [try] block (lines 25-34); [None] when it throws. *)
Definition try_once (a : attempt) : option value :=
  match a with
  | Rejected => None
  | Response ok _ body =>
      if ok then
        match body with
        | Some data => extract data
        | None => None
        end
      else None
  end.

Inductive event :=
| Fetch
| Sleep (ms : N).

(** The [for] loop from [i], with [rounds] iterations left. *)
Fixpoint attempts (network : nat → attempt) (i rounds : nat) : value * list event :=
  match rounds with
  | O => (Undefined, [])
  | S rounds' =>
      match try_once (network i) with
      | Some v => (v, [Fetch])
      | None =>
          if (i =? 2)%nat then (error_message, [Fetch])
          else
            let '(v, trace) := attempts network (S i) rounds' in
            (v, Fetch :: Sleep (1000 * 2 ^ N.of_nat i) :: trace)
      end
  end.

Definition callGemini (network : nat → attempt) : value * list event :=
  attempts network 0 3.

Definition fetches (trace : list event) : nat :=
  length (List.filter (λ e, match e with Fetch => true | _ => false end) trace).

Definition slept (trace : list event) : N :=
  fold_right (λ e acc, match e with Sleep ms => (ms + acc)%N | Fetch => acc end) 0%N trace.

End Gemini.

(** ** The App component (lines 186-430): history, handlers and effects

    React's scheduling is taken as follows: the state updates of one
    handler are committed together; after a commit the effects whose
    dependency changed run in the order of their declaration (the training
    effect of line 239 before the prediction effect of line 245); a new
    array is always a changed dependency.  The module-level [classifier] is
    part of the state.  [generateSyntheticData], whose items are read from
    JSON of arbitrary shape, is not among the events. *)

Module App.

Record item := mkItem {
  item_id : N;
  item_text : string;
  item_label : string;
  item_timestamp : string
}.

(** What [train] reads of a history item: [doc.text] and [doc.label]. *)
Definition doc_of (it : item) : document := mkDoc (item_text it) (item_label it).

Definition docs_of (history : list item) : list document := map doc_of history.

(** Lines 190-196. *)
Definition initial_history : list item :=
  [mkItem 1 "The product is great, fast delivery!" "Positive" "Initial Data";
   mkItem 2 "Terrible service, very slow and rude." "Negative" "Initial Data";
   mkItem 3 "It's okay, nothing special." "Neutral" "Initial Data";
   mkItem 4 "I love the new features." "Positive" "Initial Data";
   mkItem 5 "Broken immediately. Waste of money." "Negative" "Initial Data"].

(** [{ label: 'Neutral', scores: {} }] (lines 198 and 247). *)
Definition default_prediction : prediction := mkPrediction Neutral ∅.

(** [handleCorrection] (lines 267-269). *)
Definition handleCorrection (id : N) (newLabel : string) (prev : list item) : list item :=
  map (λ it, if bool_decide (item_id it = id)
             then mkItem (item_id it) (item_text it) newLabel (item_timestamp it)
             else it) prev.

Definition glue_char (c : ascii) (l : list string) : list string :=
  match l with
  | w :: ws => String c w :: ws
  | [] => [String c EmptyString]
  end.

Definition is_lf (c : ascii) : bool := (Chars.code c =? 10)%nat.
Definition is_cr (c : ascii) : bool := (Chars.code c =? 13)%nat.

(** [text.split(/\r?\n/)]: the text is cut at every line feed, which takes
    a carriage return just before it along. *)
Fixpoint split_lines (s : string) : list string :=
  match s with
  | EmptyString => [EmptyString]
  | String c r =>
      if is_lf c then EmptyString :: split_lines r
      else
        match r with
        | String c' r' =>
            if is_cr c && is_lf c' then EmptyString :: split_lines r'
            else glue_char c (split_lines r)
        | EmptyString => glue_char c (split_lines r)
        end
  end.

(** The lines kept by line 273. *)
Definition kept_line (line : string) : bool :=
  (5 <? String.length (Text.trim line))%nat.

(** [processExtractedText] (lines 272-283): the new history.  [now idx] is
    what [Date.now()] returns when the entry of index [idx] is built. *)
Definition processExtractedText (cls : model) (now : nat → N) (text : string)
    (prev : list item) : list item :=
  let lines := List.filter kept_line (split_lines text) in
  let newEntries :=
    imap (λ idx line,
            mkItem (now idx + N.of_nat idx) (Text.trim line)
                   (cat_name (p_label (predict cls line))) "Imported File") lines in
  (newEntries ++ prev)%list.

(** [stats] (lines 410-414). *)
Definition labelled (l : string) (history : list item) : list item :=
  List.filter (λ h, bool_decide (item_label h = l)) history.

Definition stats_pos (history : list item) : nat := length (labelled "Positive" history).
Definition stats_neg (history : list item) : nat := length (labelled "Negative" history).
Definition stats_neu (history : list item) : nat := length (labelled "Neutral" history).

(** [categorizedHistory] (lines 423-429): the three columns. *)
Definition categorizedHistory (history : list item) : list item * list item * list item :=
  (labelled "Positive" history, labelled "Neutral" history, labelled "Negative" history).

Record state := mkState {
  input : string;
  history : list item;
  shown : prediction;        (* the state variable [prediction] *)
  classifier : model
}.

(** The effect of lines 239-242, run after [history] changed; [None] when
    [train] throws. *)
Definition training_effect (st : state) : option state :=
  match train (classifier st) (docs_of (history st)) with
  | Done m =>
      Some (mkState (input st) (history st)
              (if bool_decide (input st = EmptyString) then shown st
               else predict m (input st))
              m)
  | _ => None
  end.

(** The effect of lines 245-253, run after [input] changed. *)
Definition prediction_effect (st : state) : state :=
  mkState (input st) (history st)
    (if bool_decide (Text.trim (input st) = EmptyString) then default_prediction
     else predict (classifier st) (input st))
    (classifier st).

(** The first render and its two effects. *)
Definition mount : option state :=
  prediction_effect <$>
    training_effect (mkState EmptyString initial_history default_prediction constructor).

Inductive event :=
| Edit (s : string)                 (* [onChange] of the textarea *)
| Save (now : N) (time : string)    (* [handleSave] *)
| Correct (id : N) (newLabel : Category)   (* [handleCorrection], from the three options *)
| Import (now : nat → N) (text : string).  (* [processExtractedText] *)

Definition handle (st : state) (e : event) : option state :=
  match e with
  | Edit s =>
      if bool_decide (s = input st) then Some st
      else Some (prediction_effect (mkState s (history st) (shown st) (classifier st)))
  | Save now time =>
      if bool_decide (Text.trim (input st) = EmptyString) then Some st
      else
        let newItem := mkItem now (input st) (cat_name (p_label (shown st))) time in
        prediction_effect <$>
          training_effect (mkState EmptyString (newItem :: history st) (shown st) (classifier st))
  | Correct id newLabel =>
      training_effect
        (mkState (input st) (handleCorrection id (cat_name newLabel) (history st))
                 (shown st) (classifier st))
  | Import now text =>
      training_effect
        (mkState (input st)
                 (processExtractedText (classifier st) now text (history st))
                 (shown st) (classifier st))
  end.

Fixpoint run (st : state) (events : list event) : option state :=
  match events with
  | [] => Some st
  | e :: r =>
      match handle st e with
      | Some st' => run st' r
      | None => None
      end
  end.

(** The states reached from the first render by the four events above:
    typing, saving, correcting and importing. *)
Definition reachable (st : state) : Prop :=
  ∃ st0 events, mount = Some st0 ∧ run st0 events = Some st.

(** What holds in every such state. *)
Record invariant (st : state) : Prop := {
  inv_valid : valid_corpus (docs_of (history st));
  inv_fitted : classifier st = fitted (docs_of (history st));
  inv_shown :
    Text.trim (input st) ≠ EmptyString → shown st = predict (classifier st) (input st);
  inv_initial :
    ∃ added, map item_text (history st)
             = (added ++ map item_text initial_history)%list
}.

End App.

(** A score that is a finite number or NaN, never an infinity. *)
Definition not_infinite (a : jsnum) : Prop := (∃ r, a = Fin r) ∨ a = NaN.

(** The state after the first render and the typing of "great app". *)
Definition app_example_state : App.state :=
  App.mkState "great app" App.initial_history
    (predict (fitted (App.docs_of App.initial_history)) "great app")
    (fitted (App.docs_of App.initial_history)).

(** The constant [newEntries] of [processExtractedText] (lines 274-279). *)
Definition newEntries (cls : model) (now : nat → N) (text : string) : list App.item :=
  imap (λ idx line,
          App.mkItem (now idx + N.of_nat idx) (Text.trim line)
                     (cat_name (p_label (predict cls line))) "Imported File")
       (List.filter App.kept_line (App.split_lines text)).

(** The items whose label is one of the three categories. *)
Definition categorised (history : list App.item) : list App.item :=
  List.filter (λ it, bool_decide (is_Some (category_of (App.item_label it)))) history.

(** The separator of [jsonData.flat().join('\n')] (line 311). *)
Definition line_feed : string := String (ascii_of_nat 10) EmptyString.

Fixpoint ends_with_cr (s : string) : bool :=
  match s with
  | EmptyString => false
  | String c EmptyString => App.is_cr c
  | String _ r => ends_with_cr r
  end.

(** A spreadsheet cell that is one line: no line feed in it and no carriage
    return at its end. *)
Definition single_line (cell : string) : bool :=
  forallb (λ c, negb (App.is_lf c)) (Text.chars cell) && negb (ends_with_cr cell).

(** The text the Excel branch of [handleFileUpload] hands over (line 311),
    from the rows of the first sheet with their cells as strings. *)
Definition sheet_text (rows : list (list string)) : string :=
  Text.join line_feed (concat rows).

(** ** The tokenizer on UTF-16 text

    A JavaScript string is a sequence of 16-bit code units, and the regular
    expressions of [tokenize] (no [u] flag) and [length] work on code units.
    [String.prototype.toLowerCase] belongs to the runtime: its table, the
    Unicode case mapping, is no part of the program and is a parameter of
    [tokenize] here.  On text whose code units are all below 256, with the
    Latin-1 part of that table, this is the tokenizer above
    ([tokenize_latin1]). *)

Module Utf16.

Definition between (lo hi u : N) : bool := (lo <=? u)%N && (u <=? hi)%N.

(** The class [\w]: [A-Za-z0-9_]. *)
Definition is_word (u : N) : bool :=
  between 65 90 u || between 97 122 u || between 48 57 u || (u =? 95)%N.

(** The class [\s]: the WhiteSpace and LineTerminator code points of the
    language, U+0009..U+000D, U+0020, U+00A0, U+1680, U+2000..U+200A,
    U+2028, U+2029, U+202F, U+205F, U+3000 and U+FEFF. *)
Definition is_space (u : N) : bool :=
  between 9 13 u || (u =? 32)%N || (u =? 160)%N || (u =? 5760)%N
  || between 8192 8202 u || (u =? 8232)%N || (u =? 8233)%N || (u =? 8239)%N
  || (u =? 8287)%N || (u =? 12288)%N || (u =? 65279)%N.

(** [s.replace(/[^\w\s]/g, '')]. *)
Definition strip_non_word (s : list N) : list N :=
  List.filter (λ u, is_word u || is_space u) s.

(** [s.split(/\s+/)], as [Chars.split_from]. *)
Fixpoint split_from (in_sep : bool) (cur : list N) (s : list N) : list (list N) :=
  match s with
  | [] => [cur]
  | u :: r =>
      if is_space u then
        if in_sep then split_from true cur r
        else cur :: split_from true [] r
      else split_from false (cur ++ [u]) r
  end.

Definition split_ws (s : list N) : list (list N) := split_from false [] s.

(** [tokenize] (lines 54-57). *)
Definition tokenize (toLowerCase : list N → list N) (text : option (list N))
    : list (list N) :=
  match text with
  | None => []
  | Some [] => []
  | Some s =>
      List.filter (λ w, (2 <? length w)%nat)
        (split_ws (strip_non_word (toLowerCase s)))
  end.

(** *** The amended wording

    Lower-case, keep the code units of a class, split on runs of white
    space, discard the tokens of length at most 2. *)

(** Cut at every single white-space code unit. *)
Fixpoint pieces (s : list N) : list (list N) :=
  match s with
  | [] => [[]]
  | u :: r =>
      if is_space u then [] :: pieces r
      else match pieces r with
           | w :: ws => (u :: w) :: ws
           | [] => [[u]]
           end
  end.

Definition nonempty (w : list N) : bool :=
  match w with [] => false | _ => true end.

(** The maximal runs without white space, in order. *)
Definition words (s : list N) : list (list N) := List.filter nonempty (pieces s).

Definition long (w : list N) : bool := (2 <? length w)%nat.

(** An ASCII letter, an ASCII digit, the underscore or white space. *)
Definition keep_code (u : N) : bool :=
  between 65 90 u || between 97 122 u || between 48 57 u || (u =? 95)%N
  || is_space u.

Definition tokens_keeping (keep : N → bool) (toLowerCase : list N → list N)
    (text : option (list N)) : list (list N) :=
  let s := default [] text in
  List.filter long (words (List.filter keep (toLowerCase s))).

(** The code units of a string of the 8-bit model. *)
Definition units (s : string) : list N :=
  map (λ c, N.of_nat (Chars.code c)) (Text.chars s).

(** [toLowerCase] on its Latin-1 part, applied unit by unit; the other code
    units are left as they are, which the runtime does not do. *)
Definition lower_latin1 (s : list N) : list N :=
  map (λ u, if between 65 90 u || (between 192 222 u && negb (u =? 215)%N)
            then (u + 32)%N else u) s.

End Utf16.

(** A code unit a token is made of: [a-z0-9_]. *)
Definition is_token_unit (u : N) : bool :=
  Utf16.between 97 122 u || Utf16.between 48 57 u || (u =? 95)%N.

(** * Properties *)

(** ** The tokenizer *)

Example tokenize_spec_example :
  tokenize (Some "Great! App is ok.") = ["great"; "app"].
Proof. reflexivity. Qed.

Example tokenize_edges :
  tokenize (Some "  Hello   big  World ") = ["hello"; "big"; "world"]
  ∧ tokenize None = [] ∧ tokenize (Some "") = []
  ∧ Chars.split_ws " a  b " = [""; "a"; "b"; ""].
Proof. repeat split; reflexivity. Qed.

Section Tokenizer.
Import Chars TokenSpec.

Lemma sapp_cons (c : ascii) (a b : string) : String c a +:+ b = String c (a +:+ b).
Proof. reflexivity. Qed.

Lemma sapp_nil_r (s : string) : s +:+ "" = s.
Proof. induction s as [|c r IH]; [done |]. by rewrite sapp_cons, IH. Qed.

Lemma sapp_assoc (a b c : string) : (a +:+ b) +:+ c = a +:+ (b +:+ c).
Proof. induction a as [|x a IH]; [done |]. by rewrite !sapp_cons, IH. Qed.

Lemma pieces_cons (s : string) : ∃ p ps, pieces s = p :: ps.
Proof.
  destruct s as [|c r]; simpl; [by eexists _, _ |].
  destruct (is_space c); [by eexists _, _ |].
  destruct (pieces r); by eexists _, _.
Qed.

Lemma split_from_pieces (s : string) :
  ∀ in_sep cur, (in_sep = true → cur = "") →
    List.filter long (split_from in_sep cur s) = List.filter long (glue cur (pieces s)).
Proof.
  induction s as [|c r IH]; intros in_sep cur Hsep; simpl.
  - by rewrite sapp_nil_r.
  - destruct (is_space c) eqn:Hc.
    + destruct in_sep.
      * rewrite (Hsep eq_refl). simpl. rewrite IH by done.
        destruct (pieces_cons r) as (p & ps & ->). done.
      * simpl. rewrite sapp_nil_r. f_equal.
        rewrite IH by done. destruct (pieces_cons r) as (p & ps & ->). done.
    + rewrite IH by done.
      destruct (pieces_cons r) as (p & ps & ->). simpl.
      by rewrite sapp_assoc.
Qed.

Lemma long_nonempty (w : string) : long w = true → nonempty w = true.
Proof. by destruct w. Qed.

Lemma filter_long_words (l : list string) :
  List.filter long (List.filter nonempty l) = List.filter long l.
Proof.
  induction l as [|w l IH]; simpl; [done |].
  destruct (nonempty w) eqn:Hn; simpl; rewrite IH; [done |].
  destruct (long w) eqn:Hl; [| done].
  apply long_nonempty in Hl. congruence.
Qed.

Lemma split_ws_words (s : string) :
  List.filter long (split_ws s) = List.filter long (words s).
Proof.
  unfold split_ws, words. rewrite split_from_pieces by done.
  rewrite filter_long_words.
  by destruct (pieces_cons s) as (p & ps & ->).
Qed.

End Tokenizer.

(** C2, as stated, fails: [\w] contains the underscore, which is neither a
    letter nor a digit, so the code keeps "foo_bar" whole where the stated
    algorithm yields "foobar". *)
Lemma tokenize_keeps_underscore :
  tokenize (Some "foo_bar") = ["foo_bar"]
  ∧ TokenSpec.spec_tokenize (Some "foo_bar") = ["foobar"]
  ∧ tokenize (Some "foo_bar") ≠ TokenSpec.spec_tokenize (Some "foo_bar").
Proof. split; [reflexivity | split; [reflexivity | discriminate]]. Qed.

(** The refinement on text in the Latin-1 block, the 8-bit model used for
    the classifier below. *)
Lemma tokenize_latin1_refines (text : option string) :
  tokenize text = TokenSpec.tokens_keeping TokenSpec.keep_code text.
Proof.
  destruct text as [[|c s]|]; [reflexivity | | reflexivity].
  unfold tokenize, TokenSpec.tokens_keeping. simpl default.
  apply split_ws_words.
Qed.

Section TokenizerUtf16.
Import Utf16.
Local Close Scope string_scope.

Lemma pieces16_cons (s : list N) : ∃ p ps, pieces s = p :: ps.
Proof.
  destruct s as [|u r]; simpl; [by eexists _, _ |].
  destruct (is_space u); [by eexists _, _ |].
  destruct (pieces r); by eexists _, _.
Qed.

Lemma split_from16_pieces (s : list N) :
  ∀ in_sep cur, (in_sep = true → cur = []) →
    List.filter long (split_from in_sep cur s)
    = List.filter long (match pieces s with
                        | p :: ps => (cur ++ p) :: ps
                        | [] => [cur]
                        end).
Proof.
  induction s as [|u r IH]; intros in_sep cur Hsep; simpl.
  - by rewrite app_nil_r.
  - destruct (is_space u) eqn:Hu.
    + destruct in_sep.
      * rewrite (Hsep eq_refl). simpl. rewrite IH by done.
        destruct (pieces16_cons r) as (p & ps & ->). done.
      * simpl. rewrite app_nil_r. f_equal.
        rewrite IH by done. destruct (pieces16_cons r) as (p & ps & ->). done.
    + rewrite IH by done.
      destruct (pieces16_cons r) as (p & ps & ->). simpl.
      by rewrite <- app_assoc.
Qed.

Lemma filter_long16_words (l : list (list N)) :
  List.filter long (List.filter nonempty l) = List.filter long l.
Proof.
  induction l as [|w l IH]; simpl; [done |].
  destruct (nonempty w) eqn:Hn; simpl; rewrite IH; [done |].
  by destruct w.
Qed.

Lemma split_ws16_words (s : list N) :
  List.filter long (split_ws s) = List.filter long (words s).
Proof.
  unfold split_ws, words. rewrite split_from16_pieces by done.
  rewrite filter_long16_words.
  by destruct (pieces16_cons s) as (p & ps & ->).
Qed.

Lemma keep_code_word_space (u : N) : keep_code u = is_word u || is_space u.
Proof. reflexivity. Qed.

(** The two character tables agree below 256. *)
Lemma is_space_units (c : ascii) :
  is_space (N.of_nat (Chars.code c)) = Chars.is_space c.
Proof. destruct c as [[] [] [] [] [] [] [] []]; reflexivity. Qed.

Lemma is_word_units (c : ascii) :
  is_word (N.of_nat (Chars.code c)) = Chars.is_word c.
Proof. destruct c as [[] [] [] [] [] [] [] []]; reflexivity. Qed.

Lemma lower_latin1_units (s : string) :
  lower_latin1 (units s) = units (Chars.toLowerCase s).
Proof.
  unfold lower_latin1, units, Chars.toLowerCase.
  induction s as [|c r IH]; [done |]. simpl. rewrite IH. f_equal.
  destruct c as [[] [] [] [] [] [] [] []]; reflexivity.
Qed.

Lemma units_app (a b : string) : units (a +:+ b)%string = units a ++ units b.
Proof.
  unfold units. induction a as [|c a IH]; [done |].
  rewrite sapp_cons. simpl. by rewrite IH.
Qed.

Lemma units_length (s : string) : length (units s) = String.length s.
Proof. unfold units. induction s as [|c r IH]; [done |]. simpl. by rewrite IH. Qed.

Lemma strip_units (s : string) :
  strip_non_word (units s) = units (Chars.strip_non_word s).
Proof.
  unfold strip_non_word, units, Chars.strip_non_word.
  induction s as [|c r IH]; [done |]. simpl.
  rewrite is_word_units, is_space_units.
  destruct (Chars.is_word c || Chars.is_space c); simpl; by rewrite IH.
Qed.

Lemma split_from_units (s : string) :
  ∀ in_sep cur,
    split_from in_sep (units cur) (units s) = map units (Chars.split_from in_sep cur s).
Proof.
  induction s as [|c r IH]; intros in_sep cur; [done |].
  change (units (String c r)) with (N.of_nat (Chars.code c) :: units r).
  simpl. rewrite is_space_units. destruct (Chars.is_space c).
  - destruct in_sep; [apply IH |]. simpl. f_equal. apply (IH true EmptyString).
  - rewrite <- IH. f_equal. by rewrite units_app.
Qed.

End TokenizerUtf16.

(** On text in the Latin-1 block, and with a [toLowerCase] that acts there
    as the Latin-1 table does, the tokenizer on code units is the
    tokenizer of the 8-bit model. *)
Lemma tokenize_latin1 (toLowerCase : list N → list N) (s : string) :
  (∀ x, toLowerCase (Utf16.units x) = Utf16.units (Chars.toLowerCase x)) →
  Utf16.tokenize toLowerCase (Some (Utf16.units s)) = map Utf16.units (tokenize (Some s)).
Proof.
  intros Hl. destruct s as [|c r]; [done |].
  unfold Utf16.tokenize, tokenize.
  change (Utf16.units (String c r))
    with (N.of_nat (Chars.code c) :: Utf16.units r) at 1.
  cbv iota.
  change (N.of_nat (Chars.code c) :: Utf16.units r) with (Utf16.units (String c r)).
  rewrite Hl, strip_units. unfold Utf16.split_ws, Chars.split_ws.
  rewrite (split_from_units _ false EmptyString).
  generalize (Chars.split_from false EmptyString
                (Chars.strip_non_word (Chars.toLowerCase (String c r)))).
  intros l. induction l as [|w l IH]; [done |]. simpl.
  rewrite units_length. destruct (2 <? String.length w)%nat; simpl; by rewrite IH.
Qed.


(** C2, amended: for every text, a sequence of UTF-16 code units, missing
    text counting as empty, [tokenize] returns the lower-cased text (by the
    runtime's [toLowerCase], whatever its table, the empty text staying
    empty) with every code unit other
    than an ASCII letter, an ASCII digit, the underscore or a white-space
    character of the language removed, split on runs of white space,
    without the tokens of length at most 2, in order and with duplicates. *)
Theorem tokenize_refines_spec (toLowerCase : list N → list N) (text : option (list N)) :
  toLowerCase [] = [] →
  Utf16.tokenize toLowerCase text
  = Utf16.tokens_keeping Utf16.keep_code toLowerCase text.
Proof.
  intros Hnil. destruct text as [[|u s]|].
  - unfold Utf16.tokens_keeping. simpl default. by rewrite Hnil.
  - unfold Utf16.tokenize, Utf16.tokens_keeping. simpl default.
    apply split_ws16_words.
  - unfold Utf16.tokens_keeping. simpl default. by rewrite Hnil.
Qed.

(** "Great", an em space (U+2003), "Value!": two tokens. *)
Lemma tokenize_refines_spec_witness :
  Utf16.lower_latin1 [] = []
  ∧ Utf16.tokenize Utf16.lower_latin1
      (Some [71; 114; 101; 97; 116; 8195; 86; 97; 108; 117; 101; 33]%N)
    = Utf16.tokens_keeping Utf16.keep_code Utf16.lower_latin1
        (Some [71; 114; 101; 97; 116; 8195; 86; 97; 108; 117; 101; 33]%N)
  ∧ Utf16.tokenize Utf16.lower_latin1
      (Some [71; 114; 101; 97; 116; 8195; 86; 97; 108; 117; 101; 33]%N)
    = [[103; 114; 101; 97; 116]; [118; 97; 108; 117; 101]]%N.
Proof.
  split; [reflexivity |].
  split; [apply (tokenize_refines_spec Utf16.lower_latin1); reflexivity |].
  vm_compute. reflexivity.
Defined.

(** ** What [train] computes *)

Section Train.

Lemma category_of_name (c : Category) : category_of (cat_name c) = Some c.
Proof. by destruct c. Qed.

Lemma category_of_Some (l : string) (c : Category) :
  category_of l = Some c → l = cat_name c.
Proof.
  unfold category_of. repeat case_bool_decide; intros; simplify_eq; done.
Qed.

Lemma wordCounts_slot_valid (l : string) (c : Category) :
  category_of l = Some c → wordCounts_slot l = SlotCategory c.
Proof. unfold wordCounts_slot. by intros ->. Qed.

Lemma wordCounts_set_same (m : model) (c : Category) (o : gmap string jsval) :
  wordCounts (set_wordCounts m c o) c = o.
Proof. by destruct c. Qed.

Lemma wordCounts_set_other (m : model) (c c' : Category) (o : gmap string jsval) :
  c ≠ c' → wordCounts (set_wordCounts m c o) c' = wordCounts m c'.
Proof. by destruct c, c'. Qed.

(** The inner loop on a document of category [c]. *)
Lemma add_tokens_valid (l : string) (c : Category) (ts : list string) :
  category_of l = Some c →
  ∀ m, add_tokens l m ts =
       Done (set_wordCounts
               (mkModel (wcPositive m) (wcNegative m) (wcNeutral m) (classCounts m)
                        (list_to_set ts ∪ vocab m) (totalDocs m))
               c (bump_all (wordCounts m c) ts)).
Proof.
  intros Hl. induction ts as [|t ts IH]; intros m.
  - simpl. f_equal. destruct m, c; simpl; f_equal; set_solver.
  - simpl. unfold add_token. rewrite (wordCounts_slot_valid _ _ Hl). simpl.
    rewrite IH. f_equal.
    destruct m, c; simpl; f_equal; set_solver.
Qed.

End Train.

Section TrainValid.

Lemma bump_all_app (o : gmap string jsval) (ts us : list string) :
  bump_all o (ts ++ us) = bump_all (bump_all o ts) us.
Proof. apply fold_left_app. Qed.

Lemma count_label_cons (d : document) (docs : list document) (c : Category) :
  count_label (d :: docs) c =
  ((if has_label c d then 1 else 0) + count_label docs c)%N.
Proof.
  unfold count_label. simpl. destruct (has_label c d); simpl; lia.
Qed.

Lemma class_counts_incr (a b c : N) (k : Category) :
  set_prop (class_counts a b c) (cat_name k)
           (incr (get_prop (class_counts a b c) (cat_name k))) =
  class_counts (if decide (k = Positive) then a + 1 else a)
               (if decide (k = Negative) then b + 1 else b)
               (if decide (k = Neutral) then c + 1 else c).
Proof.
  destruct k; unfold set_prop, get_prop, class_counts; simpl;
    apply map_eq; intros i; simplify_map_eq; done.
Qed.

(** A valid document adds its label to the counts and its terms to the
    dictionary of its category and to the vocabulary. *)
Lemma add_doc_valid (d : document) (k : Category) (wp wn wu : gmap string jsval)
    (a b c : N) (v : gset string) (n : N) :
  category_of (label d) = Some k →
  add_doc (mkModel wp wn wu (class_counts a b c) v n) d =
  Done (mkModel
          (if decide (k = Positive) then bump_all wp (doc_tokens d) else wp)
          (if decide (k = Negative) then bump_all wn (doc_tokens d) else wn)
          (if decide (k = Neutral) then bump_all wu (doc_tokens d) else wu)
          (class_counts (if decide (k = Positive) then a + 1 else a)
                        (if decide (k = Negative) then b + 1 else b)
                        (if decide (k = Neutral) then c + 1 else c))
          (list_to_set (doc_tokens d) ∪ v) (n + 1)).
Proof.
  intros Hk. unfold add_doc. rewrite (add_tokens_valid _ k _ Hk). simpl.
  rewrite (category_of_Some _ _ Hk), class_counts_incr.
  by destruct k.
Qed.

Lemma has_label_iff (c : Category) (d : document) (k : Category) :
  category_of (label d) = Some k → has_label c d = bool_decide (k = c).
Proof.
  intros Hk. unfold has_label. rewrite Hk.
  apply bool_decide_ext. split; congruence.
Qed.

Lemma add_docs_valid (docs : list document) :
  valid_corpus docs →
  ∀ wp wn wu a b c v n,
    add_docs (mkModel wp wn wu (class_counts a b c) v n) docs =
    Done (mkModel (bump_all wp (tokens_in docs Positive))
                  (bump_all wn (tokens_in docs Negative))
                  (bump_all wu (tokens_in docs Neutral))
                  (class_counts (a + count_label docs Positive)
                                (b + count_label docs Negative)
                                (c + count_label docs Neutral))
                  (list_to_set (all_tokens docs) ∪ v)
                  (n + N.of_nat (length docs))).
Proof.
  induction 1 as [|d docs [k Hk] _ IH]; intros wp wn wu a b c v n.
  - simpl. f_equal. unfold count_label. simpl.
    f_equal; try (f_equal; lia); try lia; set_solver.
  - cbn [add_docs]. rewrite (add_doc_valid d k) by done. cbn [bind].
    rewrite IH. f_equal.
    unfold tokens_in, all_tokens. cbn [flat_map length].
    rewrite !count_label_cons, !bump_all_app, !(has_label_iff _ d k) by done.
    destruct k; simpl; f_equal; try (f_equal; lia); try lia;
      rewrite list_to_set_app_L; set_solver.
Qed.

(** A fit of a valid corpus completes, in the state [fitted]. *)
Lemma train_valid (this : model) (docs : list document) :
  valid_corpus docs → train this docs = Done (fitted docs).
Proof.
  intros Hv. unfold train, fresh.
  change (<["Positive":=VInt 0]> _) with (class_counts 0 0 0).
  rewrite add_docs_valid by done. unfold fitted. f_equal.
  f_equal; try (f_equal; lia); try lia; set_solver.
Qed.

End TrainValid.

(** ** Strings in a dictionary *)

Section Texts.

Lemma is_text_app (s s' : string) : is_text s = true → is_text (s +:+ s') = true.
Proof. by destruct s. Qed.

Lemma is_text_fun (k : string) : is_text (fun_text k) = true.
Proof. done. Qed.

Lemma add_one_text (v : jsval) (s : string) :
  (∀ s0, v = VStr s0 → is_text s0 = true) →
  add_one (js_or v (VInt 0)) = VStr s → is_text s = true.
Proof.
  intros Hv. unfold js_or. destruct v as [|n| |s0|k|]; simpl.
  - done.
  - by destruct (n =? 0)%N.
  - done.
  - case_bool_decide; simpl; [done |]. intros [= <-].
    apply is_text_app, Hv. done.
  - by intros [= <-].
  - by intros [= <-].
Qed.

Lemma bump_text (o : gmap string jsval) (t : string) :
  strings_are_text o → strings_are_text (bump o t).
Proof.
  intros Ho u s. unfold bump, set_prop. case_bool_decide; [apply Ho |].
  destruct (decide (t = u)) as [->|Hne].
  - rewrite lookup_insert_eq. intros [= Hs]. revert Hs. apply add_one_text.
    intros s0. unfold get_prop. destruct (o !! u) as [v|] eqn:Hl.
    + intros ->. by apply (Ho u).
    + unfold proto_get. by repeat case_match.
  - rewrite lookup_insert_ne by done. apply Ho.
Qed.

(** The strings that line 73 can leave in a dictionary all start with the
    text of a built-in; none is a numeric literal. *)
Lemma stored_strings_are_text (ts : list string) :
  ∀ o, strings_are_text o → strings_are_text (bump_all o ts).
Proof.
  induction ts as [|t ts IH]; intros o Ho; [done |].
  simpl. apply IH. by apply bump_text.
Qed.

End Texts.

(** ** Order independence *)

Section Order.

Lemma bump_comm (o : gmap string jsval) (t u : string) :
  bump (bump o t) u = bump (bump o u) t.
Proof.
  destruct (decide (t = u)) as [->|Hne]; [done |].
  unfold bump, set_prop, get_prop.
  repeat case_bool_decide; simplify_eq; rewrite ?lookup_insert_ne by done; try done.
  by apply insert_insert_ne.
Qed.

Lemma bump_all_perm (ts us : list string) :
  ts ≡ₚ us → ∀ o, bump_all o ts = bump_all o us.
Proof.
  induction 1 as [|t ts us _ IH|t u ts|ts us ws _ IH1 _ IH2]; intros o; simpl.
  - done.
  - apply IH.
  - by rewrite bump_comm.
  - by rewrite IH1, IH2.
Qed.

Lemma tokens_in_perm (docs docs' : list document) (c : Category) :
  docs ≡ₚ docs' → tokens_in docs c ≡ₚ tokens_in docs' c.
Proof. intros Hp. unfold tokens_in. by apply Permutation_flat_map. Qed.

Lemma all_tokens_perm (docs docs' : list document) :
  docs ≡ₚ docs' → all_tokens docs ≡ₚ all_tokens docs'.
Proof. intros Hp. unfold all_tokens. by apply Permutation_flat_map. Qed.

Lemma filter_length_perm {A} (p : A → bool) (l l' : list A) :
  l ≡ₚ l' → length (List.filter p l) = length (List.filter p l').
Proof.
  induction 1 as [|x l l' _ IH|x y l|l l' l'' _ IH1 _ IH2]; simpl.
  - done.
  - destruct (p x); simpl; lia.
  - destruct (p x), (p y); simpl; lia.
  - lia.
Qed.

Lemma count_label_perm (docs docs' : list document) (c : Category) :
  docs ≡ₚ docs' → count_label docs c = count_label docs' c.
Proof. intros Hp. unfold count_label. by rewrite (filter_length_perm _ _ _ Hp). Qed.

Lemma fitted_perm (docs docs' : list document) :
  docs ≡ₚ docs' → fitted docs = fitted docs'.
Proof.
  intros Hp. unfold fitted.
  rewrite !(bump_all_perm _ _ (tokens_in_perm docs docs' _ Hp)).
  rewrite !(count_label_perm _ _ _ Hp).
  rewrite (list_to_set_perm_L _ _ (all_tokens_perm _ _ Hp)).
  by rewrite (Permutation_length Hp).
Qed.

End Order.

Section OrderGeneral.

Lemma add_doc_step (m : model) (d : document) :
  add_doc m d = if completes d then Done (step m d) else add_doc m d.
Proof.
  unfold completes, step, add_doc, doc_tokens, wordCounts_slot.
  destruct (category_of (label d)) as [c|] eqn:Hc.
  - by rewrite (add_tokens_valid _ c _ Hc).
  - destruct (is_proto_key (label d)); by destruct (tokenize (Some (text d))).
Qed.

Lemma add_doc_done (m m' : model) (d : document) :
  add_doc m d = Done m' → completes d = true ∧ m' = step m d.
Proof.
  destruct (completes d) eqn:Hc.
  - rewrite add_doc_step, Hc. by intros [= <-].
  - intros H. exfalso. revert H Hc.
    unfold completes, add_doc, doc_tokens, wordCounts_slot.
    destruct (category_of (label d)) as [c|] eqn:Hl; [done |].
    destruct (is_proto_key (label d)) eqn:Hk;
      (destruct (tokenize (Some (text d))) as [|t ts]; [done |]);
      simpl; unfold add_token, wordCounts_slot; rewrite Hl, Hk; done.
Qed.

Lemma incr_comm (cc : gmap string jsval) (l l' : string) :
  let f := λ cc l, set_prop cc l (incr (get_prop cc l)) in
  f (f cc l) l' = f (f cc l') l.
Proof.
  intros f. unfold f. destruct (decide (l = l')) as [->|Hne]; [done |].
  unfold set_prop, get_prop.
  repeat case_bool_decide; simplify_eq; rewrite ?lookup_insert_ne by done; try done.
  by apply insert_insert_ne.
Qed.

Lemma bump_all_comm (o : gmap string jsval) (ts us : list string) :
  bump_all (bump_all o ts) us = bump_all (bump_all o us) ts.
Proof.
  rewrite <- !bump_all_app. apply bump_all_perm, Permutation_app_comm.
Qed.

(** Two completed documents can be processed in either order. *)
Lemma step_comm (m : model) (d d' : document) :
  step (step m d) d' = step (step m d') d.
Proof.
  unfold step.
  pose proof (incr_comm (classCounts m) (label d) (label d')) as Hcc. simpl in Hcc.
  destruct (category_of (label d)) as [c|], (category_of (label d')) as [c'|];
    destruct m as [wp wn wu cc v n]; try destruct c; try destruct c';
    simpl in *; rewrite ?Hcc; f_equal;
    try apply bump_all_comm; try lia; set_solver.
Qed.

Lemma add_docs_done_perm (docs docs' : list document) :
  docs ≡ₚ docs' → ∀ m m', add_docs m docs = Done m' → add_docs m docs' = Done m'.
Proof.
  induction 1 as [|d docs docs' _ IH|d d' docs|docs docs' docs'' _ IH1 _ IH2];
    intros m m'; simpl.
  - done.
  - destruct (add_doc m d) as [m1| |] eqn:Hd; simpl; try done. apply IH.
  - destruct (add_doc m d') as [m1| |] eqn:Hd'; simpl; try done.
    destruct (add_doc m1 d) as [m2| |] eqn:Hd; simpl; try done.
    apply add_doc_done in Hd' as [Hc' ->]. apply add_doc_done in Hd as [Hc ->].
    rewrite (add_doc_step m d), Hc. simpl.
    rewrite (add_doc_step _ d'), Hc'. simpl.
    by rewrite step_comm.
  - intros H. by apply IH2, IH1.
Qed.

End OrderGeneral.

(** C8: for every corpus and every permutation of it, [train] leaves the
    same model state (term frequencies, category counts, vocabulary and
    total), so every later [predict] returns the same result.  The fit of a
    corpus of the data model always completes; and whenever a fit
    completes, the fit of each permutation completes in the identical
    state. *)
Theorem train_order_independent (this this' : model) (docs docs' : list document) :
  docs ≡ₚ docs' →
  (valid_corpus docs → ∃ m, train this docs = Done m)
  ∧ ∀ m, train this docs = Done m →
      train this' docs' = Done m
      ∧ ∀ m' txt, train this' docs' = Done m' → predict m' txt = predict m txt.
Proof.
  intros Hp. split.
  - intros Hv. exists (fitted docs). by apply train_valid.
  - intros m Hm. unfold train in *.
    pose proof (add_docs_done_perm _ _ Hp _ _ Hm) as Hm'.
    split; [exact Hm' |]. intros m' txt. rewrite Hm'. by intros [= <-].
Qed.

(** ** The shape of a prediction *)

Section Predict.

Lemma js_gt_irrefl (a : jsnum) : js_gt a a = false.
Proof.
  destruct a; simpl; try done.
  destruct (Rlt_dec r r) as [H|H]; [exfalso; lra | done].
Qed.

Lemma js_gt_asym (a b : jsnum) : js_gt a b = true → js_gt b a = false.
Proof.
  destruct a, b; simpl; try done.
  destruct (Rlt_dec r0 r), (Rlt_dec r r0); try done. exfalso; lra.
Qed.

Lemma cat_name_inj (c c' : Category) : cat_name c = cat_name c' → c = c'.
Proof. by destruct c, c'. Qed.

(** The loop of [predict] separates into the scores and the selection
    over them. *)
Lemma visit_fold (m : model) (tokens : list string) (cs : list Category) :
  ∀ best sc,
    fold_left (visit m tokens) cs (best, sc) =
    (fold_left (λ b c, if js_gt (logProb m tokens c) b.2
                       then (c, logProb m tokens c) else b) cs best,
     fold_left (λ sc c, <[cat_name c := logProb m tokens c]> sc) cs sc).
Proof.
  induction cs as [|c cs IH]; intros [b mx] sc; [done |].
  cbn [fold_left]. rewrite <- IH. f_equal.
  unfold visit. cbn [snd]. by destruct (js_gt _ mx).
Qed.

Lemma predict_unfold (m : model) (txt : string) :
  let s := logProb m (tokenize (Some txt)) in
  predict m txt =
  mkPrediction (select s).1
    (<["Neutral" := s Neutral]> (<["Negative" := s Negative]>
       (<["Positive" := s Positive]> ∅))).
Proof.
  intros s. unfold predict. rewrite visit_fold. fold s.
  unfold select. by destruct (fold_left _ categories (Neutral, NInf)).
Qed.

Lemma predict_score (m : model) (txt : string) (c : Category) :
  score_of (predict m txt) c = Some (logProb m (tokenize (Some txt)) c).
Proof.
  rewrite predict_unfold. unfold score_of. cbn [p_scores].
  destruct c; by simplify_map_eq.
Qed.

Lemma predict_label (m : model) (txt : string) :
  p_label (predict m txt) = (select (logProb m (tokenize (Some txt)))).1.
Proof. by rewrite predict_unfold. Qed.



End Predict.


(** ** The empty model *)

(** C10: a freshly constructed classifier is in the state that [train]
    leaves on the empty corpus: every category count zero, every
    term-frequency map empty, the vocabulary empty and the total zero; so
    [predict] agrees on the two for every text. *)
Theorem constructor_is_empty_fit (this : model) :
  train this [] = Done constructor
  ∧ (∀ c, wordCounts constructor c = ∅
          ∧ classCounts constructor !! cat_name c = Some (VInt 0))
  ∧ vocab constructor = ∅ ∧ totalDocs constructor = 0%N
  ∧ ∀ m txt, train this [] = Done m → predict m txt = predict constructor txt.
Proof.
  split; [reflexivity |].
  split; [intros c; by destruct c |].
  split; [reflexivity |]. split; [reflexivity |].
  intros m txt [= <-]. reflexivity.
Qed.

(** ** Labels outside the three categories *)

Section ExtraLabels.

Lemma add_tokens_frame (l : string) (ts : list string) :
  ∀ m m', add_tokens l m ts = Done m' →
    classCounts m' = classCounts m ∧ totalDocs m' = totalDocs m.
Proof.
  induction ts as [|t ts IH]; intros m m'; simpl.
  - by intros [= <-].
  - unfold add_token. destruct (wordCounts_slot l) as [c| |]; simpl; [| done | done].
    intros H. apply IH in H as [-> ->]. by destruct c.
Qed.

Lemma add_tokens_completes (l : string) (ts : list string) :
  wordCounts_slot l ≠ SlotBuiltin →
  (wordCounts_slot l = SlotUndefined → ts = []) →
  ∀ m, ∃ m', add_tokens l m ts = Done m'.
Proof.
  intros Hb Hu. induction ts as [|t ts IH]; intros m; simpl; [by eexists |].
  unfold add_token. destruct (wordCounts_slot l) as [c| |] eqn:Hs; simpl.
  - apply IH. done.
  - done.
  - by specialize (Hu eq_refl).
Qed.

Lemma add_doc_breaks (m : model) (d : document) :
  breaks d = true → ∃ m', add_doc m d = Threw m'.
Proof.
  unfold breaks, add_doc, doc_tokens.
  destruct (wordCounts_slot (label d)) eqn:Hs; try done.
  destruct (tokenize (Some (text d))) as [|t ts]; [done |]. intros _.
  simpl. unfold add_token. rewrite Hs. simpl. by eexists.
Qed.

Lemma add_doc_completes (m : model) (d : document) :
  wordCounts_slot (label d) ≠ SlotBuiltin → breaks d = false →
  ∃ m', add_doc m d = Done m'
        ∧ totalDocs m' = (totalDocs m + 1)%N
        ∧ classCounts m' =
            set_prop (classCounts m) (label d) (incr (get_prop (classCounts m) (label d))).
Proof.
  intros Hb Hbr. unfold add_doc.
  edestruct (add_tokens_completes (label d) (tokenize (Some (text d))) Hb) as [m' Hm'].
  - intros Hs. unfold breaks, doc_tokens in Hbr. rewrite Hs in Hbr.
    by destruct (tokenize (Some (text d))).
  - exists m'. split; [exact Hm' |].
    apply add_tokens_frame in Hm' as [-> ->]. done.
Qed.

Lemma existsb_breaks_throws (docs : list document) :
  Forall (λ d, wordCounts_slot (label d) ≠ SlotBuiltin) docs →
  existsb breaks docs = true →
  ∀ m, ∃ m', add_docs m docs = Threw m'.
Proof.
  induction 1 as [|d docs Hd _ IH]; simpl; [done |]. intros Hex m.
  destruct (breaks d) eqn:Hbr.
  - destruct (add_doc_breaks m d Hbr) as [m' ->]. by eexists.
  - destruct (add_doc_completes m d Hd Hbr) as (m' & -> & _). simpl.
    apply IH. done.
Qed.

Lemma incr_nan_lookup (cc : gmap string jsval) (l l' : string) :
  cc !! l = Some VNaN →
  set_prop cc l' (incr (get_prop cc l')) !! l = Some VNaN.
Proof.
  intros Hl. unfold set_prop, get_prop. case_bool_decide; [done |].
  destruct (decide (l' = l)) as [->|Hne].
  - rewrite Hl. by rewrite lookup_insert_eq.
  - by rewrite lookup_insert_ne.
Qed.

Lemma add_docs_keeps_nan (docs : list document) (l : string) :
  Forall (λ d, wordCounts_slot (label d) ≠ SlotBuiltin) docs →
  existsb breaks docs = false →
  ∀ m, classCounts m !! l = Some VNaN →
    ∃ m', add_docs m docs = Done m'
          ∧ totalDocs m' = (totalDocs m + N.of_nat (length docs))%N
          ∧ classCounts m' !! l = Some VNaN.
Proof.
  induction 1 as [|d docs Hd _ IH]; simpl; intros Hex m Hl.
  - exists m. split; [done |]. split; [lia | done].
  - apply orb_false_iff in Hex as [Hbr Hex].
    destruct (add_doc_completes m d Hd Hbr) as (m1 & -> & Ht & Hc). simpl.
    destruct (IH Hex m1) as (m' & -> & Ht' & Hl').
    { rewrite Hc. by apply incr_nan_lookup. }
    exists m'. split; [done |]. split; [lia | done].
Qed.

Lemma extra_label_nan (cc : gmap string jsval) (l : string) :
  wordCounts_slot l = SlotUndefined →
  (∀ v, cc !! l = Some v → v = VNaN) →
  set_prop cc l (incr (get_prop cc l)) !! l = Some VNaN.
Proof.
  unfold wordCounts_slot. destruct (category_of l); [done |].
  destruct (is_proto_key l) eqn:Hk; [done |]. intros _ Hv.
  unfold is_proto_key in Hk. apply orb_false_iff in Hk as [Hp Hm].
  unfold set_prop, get_prop. rewrite Hp. rewrite lookup_insert_eq.
  destruct (cc !! l) as [v|] eqn:Hl.
  - by rewrite (Hv v eq_refl).
  - unfold proto_get. rewrite Hp, Hm. done.
Qed.

End ExtraLabels.

Section ExtraLabelsDone.

Lemma extra_counts_nan_step (m m' : model) (l0 : string) :
  extra_counts_nan m →
  classCounts m' = set_prop (classCounts m) l0 (incr (get_prop (classCounts m) l0)) →
  extra_counts_nan m'.
Proof.
  intros Hinv Hc l v Hs. rewrite Hc.
  destruct (decide (l = l0)) as [->|Hne].
  - rewrite extra_label_nan by eauto. congruence.
  - unfold set_prop. case_bool_decide; [by apply Hinv |].
    rewrite lookup_insert_ne by done. by apply Hinv.
Qed.

Lemma add_docs_extra (docs : list document) :
  Forall (λ d, wordCounts_slot (label d) ≠ SlotBuiltin) docs →
  existsb breaks docs = false →
  ∀ m, extra_counts_nan m →
    ∃ m', add_docs m docs = Done m'
          ∧ totalDocs m' = (totalDocs m + N.of_nat (length docs))%N
          ∧ ∀ d, d ∈ docs → wordCounts_slot (label d) = SlotUndefined →
                 classCounts m' !! label d = Some VNaN.
Proof.
  induction 1 as [|d docs Hd Hds IH]; simpl; intros Hex m Hinv.
  - exists m. split; [done |]. split; [lia |]. intros d Hin. by apply elem_of_nil in Hin.
  - apply orb_false_iff in Hex as [Hbr Hex].
    destruct (add_doc_completes m d Hd Hbr) as (m1 & Hm1 & Ht & Hc).
    rewrite Hm1. simpl.
    pose proof (extra_counts_nan_step m m1 (label d) Hinv Hc) as Hinv1.
    destruct (IH Hex m1 Hinv1) as (m' & Hm' & Ht' & Hl').
    exists m'. split; [done |]. split; [lia |].
    intros d' Hin Hs. apply elem_of_cons in Hin as [->|Hin]; [| by apply Hl'].
    destruct (add_docs_keeps_nan docs (label d) Hds Hex m1) as (m'' & Hm'' & _ & Hn).
    { rewrite Hc. apply extra_label_nan; [done |]. intros v. by apply Hinv. }
    congruence.
Qed.

Lemma fresh_extra_counts_nan : extra_counts_nan fresh.
Proof.
  intros l v Hs. unfold wordCounts_slot in Hs.
  destruct (category_of l) eqn:Hc; [done |].
  unfold category_of in Hc. repeat case_bool_decide; try done.
  unfold fresh. simpl. by rewrite !lookup_insert_ne, lookup_empty by done.
Qed.

Lemma logProb_with_classCounts (m : model) (cc : gmap string jsval)
    (tokens : list string) (c : Category) :
  cc !! cat_name c = classCounts m !! cat_name c →
  logProb (with_classCounts m cc) tokens c = logProb m tokens c.
Proof.
  intros Hc. unfold logProb.
  assert (prior (with_classCounts m cc) c = prior m c) as ->.
  { unfold prior, get_prop. simpl. by rewrite Hc. }
  assert (∀ t, likelihood (with_classCounts m cc) c t = likelihood m c t) as Hl.
  { intros t. unfold likelihood, denominator. by destruct c. }
  generalize (prior m c). induction tokens as [|t ts IH]; intros a; simpl; [done |].
  by rewrite Hl, IH.
Qed.

Lemma select_ext (s s' : Category → jsnum) :
  (∀ c, s c = s' c) → select s = select s'.
Proof. intros H. unfold select, categories. simpl. by rewrite !H. Qed.

(** [predict] reads [classCounts] at the three category names only. *)
Lemma predict_with_classCounts (m : model) (cc : gmap string jsval) (txt : string) :
  (∀ c, cc !! cat_name c = classCounts m !! cat_name c) →
  predict (with_classCounts m cc) txt = predict m txt.
Proof.
  intros Hc. rewrite !predict_unfold. cbv zeta.
  rewrite (select_ext _ (logProb m (tokenize (Some txt)))).
  - by rewrite !logProb_with_classCounts.
  - intros c. by apply logProb_with_classCounts.
Qed.

Lemma slot_of_extra (l : string) :
  category_of l = None → wordCounts_slot l ≠ SlotBuiltin →
  wordCounts_slot l = SlotUndefined.
Proof.
  unfold wordCounts_slot. intros ->. by destruct (is_proto_key l).
Qed.

End ExtraLabelsDone.

(** C3, as stated, fails: a document labelled "Spam" with a term makes
    [train] throw (line 73 reads a property of [undefined]); the call does
    not complete. *)
Lemma train_extra_label_throws :
  (∃ m, train constructor [mkDoc "buy now please" "Spam"] = Threw m)
  ∧ ¬ (∃ m, train constructor [mkDoc "buy now please" "Spam"] = Done m).
Proof.
  split; [by eexists |]. intros [m Hm]. discriminate Hm.
Qed.

Section ExtraLabelsThrow.
Local Close Scope string_scope.

Lemma add_docs_extra_inv (docs : list document) :
  Forall (λ d, wordCounts_slot (label d) ≠ SlotBuiltin) docs →
  existsb breaks docs = false →
  ∀ m, extra_counts_nan m →
    ∃ m', add_docs m docs = Done m'
          ∧ totalDocs m' = (totalDocs m + N.of_nat (length docs))%N
          ∧ extra_counts_nan m'.
Proof.
  induction 1 as [|d docs Hd Hds IH]; simpl; intros Hex m Hinv.
  - exists m. split; [done |]. split; [lia | done].
  - apply orb_false_iff in Hex as [Hbr Hex].
    destruct (add_doc_completes m d Hd Hbr) as (m1 & Hm1 & Ht & Hc).
    rewrite Hm1. simpl.
    destruct (IH Hex m1 (extra_counts_nan_step m m1 (label d) Hinv Hc))
      as (m' & Hm' & Ht' & Hinv').
    exists m'. split; [done |]. split; [lia | done].
Qed.

(** The first document that breaks stops the loop in the middle of its own
    processing. *)
Lemma add_docs_throw_state (docs : list document) :
  Forall (λ d, wordCounts_slot (label d) ≠ SlotBuiltin) docs →
  existsb breaks docs = true →
  ∀ m, extra_counts_nan m →
    ∃ pre d post t ts m0,
      docs = pre ++ d :: post
      ∧ existsb breaks pre = false ∧ breaks d = true
      ∧ tokenize (Some (text d)) = t :: ts
      ∧ add_docs m pre = Done m0
      ∧ totalDocs m0 = (totalDocs m + N.of_nat (length pre))%N
      ∧ extra_counts_nan m0
      ∧ add_docs m docs
        = Threw (mkModel (wcPositive m0) (wcNegative m0) (wcNeutral m0)
                   (set_prop (classCounts m0) (label d)
                      (incr (get_prop (classCounts m0) (label d))))
                   ({[t]} ∪ vocab m0) (totalDocs m0 + 1)).
Proof.
  induction 1 as [|d docs Hd Hds IH]; simpl; [done |]. intros Hex m Hinv.
  destruct (breaks d) eqn:Hbr.
  - pose proof Hbr as Hbr'. unfold breaks, doc_tokens in Hbr'.
    destruct (wordCounts_slot (label d)) eqn:Hs; try done.
    destruct (tokenize (Some (text d))) as [|t ts] eqn:Htok; [done |].
    exists [], d, docs, t, ts, m.
    split; [done |]. split; [done |]. split; [done |]. split; [done |].
    split; [done |]. split; [simpl; lia |]. split; [done |].
    unfold add_doc. rewrite Htok. simpl. unfold add_token. rewrite Hs. done.
  - simpl in Hex.
    destruct (add_doc_completes m d Hd Hbr) as (m1 & Hm1 & Ht & Hc).
    destruct (IH Hex m1 (extra_counts_nan_step m m1 (label d) Hinv Hc))
      as (pre & d' & post & t & ts & m0 & -> & Hpre & Hd' & Htok & Hm0 & Ht0 & Hinv0 & Hthrow).
    exists (d :: pre), d', post, t, ts, m0.
    split; [done |]. split; [simpl; by rewrite Hbr |]. split; [done |].
    split; [done |]. split; [simpl; by rewrite Hm1 |].
    split; [simpl length; lia |]. split; [done |].
    by rewrite Hm1.
Qed.

End ExtraLabelsThrow.

(** C3, amended: on a corpus with labels outside the three categories (none
    of them the name of a property inherited from [Object.prototype]),
    [train] throws at the first such document that has a term, and leaves
    the model partly rebuilt: the documents before that one are fitted, that
    document is counted ([totalDocs], and NaN under its label), its first
    term is in the vocabulary, no term frequency of it is stored and the
    documents after it are not read.  If no such document has a term the
    call completes, every document is counted in [totalDocs], the count
    stored under each extra label is NaN, and [predict] reads no count but
    those of the three categories. *)
Theorem train_extra_label (this : model) (docs : list document) :
  Forall (λ d, wordCounts_slot (label d) ≠ SlotBuiltin) docs →
  (existsb breaks docs = true →
     ∃ pre d post t ts m0 m,
       docs = (pre ++ d :: post)%list
       ∧ existsb breaks pre = false ∧ breaks d = true
       ∧ tokenize (Some (text d)) = t :: ts
       ∧ train this pre = Done m0
       ∧ train this docs = Threw m
       ∧ (∀ c, wordCounts m c = wordCounts m0 c)
       ∧ vocab m = {[t]} ∪ vocab m0
       ∧ totalDocs m = (N.of_nat (length pre) + 1)%N
       ∧ classCounts m !! label d = Some VNaN
       ∧ (∀ l, l ≠ label d → classCounts m !! l = classCounts m0 !! l))
  ∧ (existsb breaks docs = false →
     ∃ m, train this docs = Done m
          ∧ totalDocs m = N.of_nat (length docs)
          ∧ (∀ d, d ∈ docs → category_of (label d) = None →
               classCounts m !! label d = Some VNaN)
          ∧ (∀ cc txt, (∀ c, cc !! cat_name c = classCounts m !! cat_name c) →
               predict (with_classCounts m cc) txt = predict m txt)).
Proof.
  intros Hb. split; intros Hex.
  - destruct (add_docs_throw_state docs Hb Hex fresh fresh_extra_counts_nan)
      as (pre & d & post & t & ts & m0 & Hdocs & Hpre & Hd & Htok & Hm0 & Ht0 & Hinv0 & Hthrow).
    eexists pre, d, post, t, ts, m0, _.
    split; [exact Hdocs |]. split; [exact Hpre |]. split; [exact Hd |].
    split; [exact Htok |]. split; [exact Hm0 |]. split; [exact Hthrow |].
    split; [intros c; by destruct c |]. split; [reflexivity |].
    split; [simpl; simpl in Ht0; lia |].
    assert (Hs : wordCounts_slot (label d) = SlotUndefined).
    { unfold breaks in Hd. by destruct (wordCounts_slot (label d)). }
    split.
    + simpl. apply extra_label_nan; [done |]. intros v. by apply Hinv0.
    + intros l Hne. simpl. unfold set_prop. case_bool_decide; [done |].
      by rewrite lookup_insert_ne.
  - destruct (add_docs_extra docs Hb Hex fresh fresh_extra_counts_nan)
      as (m & Hm & Ht & Hl).
    exists m. split; [exact Hm |]. split; [simpl in Ht; lia |].
    split.
    + intros d Hin Hc. apply Hl; [done |]. apply slot_of_extra; [done |].
      rewrite Forall_forall in Hb. by apply Hb.
    + intros cc txt. apply predict_with_classCounts.
Qed.

(** The throw in the middle of a corpus: the first document is fitted, the
    second is counted and has put its first term into the vocabulary, the
    third is not read. *)
Example train_throw_state :
  ∃ m, train constructor [mkDoc "fast delivery" "Positive";
                          mkDoc "buy now please" "Spam";
                          mkDoc "slow service" "Negative"] = Threw m
       ∧ totalDocs m = 2%N
       ∧ vocab m = {["fast"; "delivery"; "buy"]}
       ∧ classCounts m !! "Spam" = Some VNaN
       ∧ classCounts m !! "Negative" = Some (VInt 0)
       ∧ wordCounts m Negative = ∅.
Proof.
  eexists. split; [reflexivity |].
  split; [reflexivity |]. split; [vm_compute; reflexivity |].
  split; [reflexivity |]. split; reflexivity.
Qed.

(** A corpus with a term-less document labelled "Spam": the fit completes
    and the count stored under "Spam" is NaN. *)
Lemma train_extra_label_witness :
  ∃ m, train constructor [mkDoc "ok" "Spam"; mkDoc "fast delivery" "Positive"] = Done m
       ∧ totalDocs m = 2%N
       ∧ classCounts m !! "Spam" = Some VNaN.
Proof.
  destruct (train_extra_label constructor
              [mkDoc "ok" "Spam"; mkDoc "fast delivery" "Positive"]) as [_ H].
  { repeat constructor; discriminate. }
  destruct (H eq_refl) as (m & Hm & Ht & Hl & _).
  exists m. split; [exact Hm |]. split; [exact Ht |].
  apply (Hl (mkDoc "ok" "Spam")); [| reflexivity].
  apply elem_of_cons. by left.
Defined.

(** ** Arithmetic on scores *)

Section Numbers.
Local Open Scope R_scope.

Lemma js_div_fin (x y : R) : y ≠ 0 → js_div (Fin x) (Fin y) = Fin (x / y).
Proof. intros Hy. simpl. by destruct (Req_dec_T y 0). Qed.

Lemma js_div_by_zero (x y : R) : 0 < x → y = 0 → js_div (Fin x) (Fin y) = PInf.
Proof.
  intros Hx Hy. simpl. destruct (Req_dec_T y 0); [| done].
  destruct (Req_dec_T x 0); [lra |]. by destruct (Rlt_dec 0 x).
Qed.

Lemma js_log_pos (x : R) : 0 < x → js_log (Fin x) = Fin (ln x).
Proof. intros Hx. simpl. by destruct (Rlt_dec 0 x). Qed.

Lemma js_add_nan_r (a : jsnum) : js_add a NaN = NaN.
Proof. by destruct a. Qed.

Lemma js_add_nan_l (a : jsnum) : js_add NaN a = NaN.
Proof. done. Qed.

Lemma IZR_of_N_nonneg (n : N) : 0 <= IZR (Z.of_N n).
Proof. apply IZR_le. lia. Qed.

Lemma IZR_of_N_pos (n : N) : (n ≠ 0)%N → 0 < IZR (Z.of_N n).
Proof. intros Hn. apply IZR_lt. lia. Qed.

(** Once NaN, the running sum of line 91 stays NaN. *)
Lemma fold_js_add_nan (f : string → jsnum) (ts : list string) :
  fold_left (λ acc t, js_add acc (f t)) ts NaN = NaN.
Proof. induction ts as [|t ts IH]; simpl; [done | exact IH]. Qed.

End Numbers.

(** ** The empty model *)

Section EmptyModel.
Local Open Scope R_scope.

Lemma prior_empty (c : Category) : prior constructor c = Fin (ln (1 / 10 / 1)).
Proof.
  unfold prior.
  replace (get_prop (classCounts constructor) (cat_name c)) with (VInt 0)
    by (by destruct c).
  unfold or_number. cbn [truthy totalDocs constructor fresh N.eqb negb].
  rewrite js_div_fin by lra. apply js_log_pos. lra.
Qed.

Lemma denominator_empty (c : Category) : denominator constructor c = Fin (0 + 0).
Proof. by destruct c. Qed.

(** On the empty model a term that [Object.prototype] does not know has
    likelihood [log(1 / 0)]. *)
Lemma likelihood_empty (c : Category) (t : string) :
  is_proto_key t = false → likelihood constructor c t = PInf.
Proof.
  intros Ht. unfold likelihood. rewrite denominator_empty.
  replace (wordCounts constructor c) with (∅ : gmap string jsval) by (by destruct c).
  unfold get_prop, proto_get. rewrite lookup_empty.
  unfold is_proto_key in Ht. apply orb_false_iff in Ht as [-> ->].
  cbn [js_or truthy add_one to_number]. simpl Z.of_N.
  rewrite js_div_by_zero; [done | lra | lra].
Qed.

(** A term naming an inherited method reads that function as its count. *)
Lemma likelihood_proto_method (m : model) (c : Category) (t : string) :
  wordCounts m c !! t = None → is_proto_method t = true →
  t ≠ "__proto__" → likelihood m c t = NaN.
Proof.
  intros Hl Hm Hp. unfold likelihood, get_prop, proto_get. rewrite Hl, Hm.
  rewrite bool_decide_eq_false_2 by done.
  cbn [js_or truthy add_one to_number]. done.
Qed.

End EmptyModel.

(** C1 (evaluation of the code): after [train] on the empty corpus,
    [predict("anything")] has label Positive, but each of the three scores
    is +Infinity: the likelihood term divides by
    [classTotalWords + vocabSize = 0]. *)
Theorem predict_empty_model_infinite (this : model) :
  train this [] = Done constructor
  ∧ p_label (predict constructor "anything") = Positive
  ∧ ∀ c, score_of (predict constructor "anything") c = Some PInf.
Proof.
  split; [reflexivity |].
  assert (Hs : ∀ c, logProb constructor (tokenize (Some "anything")) c = PInf).
  { intros c. change (tokenize (Some "anything")) with ["anything"].
    unfold logProb. cbn [fold_left].
    rewrite prior_empty, likelihood_empty by reflexivity. done. }
  split.
  - rewrite predict_label. unfold select, categories. cbn [fold_left].
    rewrite !Hs. reflexivity.
  - intros c. by rewrite predict_score, Hs.
Qed.

(** C7 (evaluation of the code): on a fitted model [predict] can return
    scores that are not finite.  On the empty model a text of unseen terms
    scores +Infinity in every category; and a text containing the term
    "constructor" scores NaN in every category, whatever the model holds
    for other terms, and keeps the initial label Neutral. *)
Theorem predict_scores_not_finite (this : model) :
  train this [] = Done constructor
  ∧ (∀ c, score_of (predict constructor "unseen words") c = Some PInf)
  ∧ (∀ c, score_of (predict constructor "constructor") c = Some NaN)
  ∧ p_label (predict constructor "constructor") = Neutral.
Proof.
  split; [reflexivity |].
  assert (Hu : ∀ c, logProb constructor (tokenize (Some "unseen words")) c = PInf).
  { intros c. change (tokenize (Some "unseen words")) with ["unseen"; "words"].
    unfold logProb. cbn [fold_left].
    rewrite prior_empty, !likelihood_empty by reflexivity. done. }
  assert (Hc : ∀ c, logProb constructor (tokenize (Some "constructor")) c = NaN).
  { intros c. change (tokenize (Some "constructor")) with ["constructor"].
    unfold logProb. cbn [fold_left].
    rewrite likelihood_proto_method; [apply js_add_nan_r | by destruct c | done | done]. }
  split; [intros c; by rewrite predict_score, Hu |].
  split; [intros c; by rewrite predict_score, Hc |].
  rewrite predict_label. unfold select, categories. cbn [fold_left].
  rewrite !Hc. reflexivity.
Qed.


(** The two orders of the two-document corpus of the specification. *)
Lemma train_order_independent_witness :
  ∃ m, train constructor [mkDoc "great fast delivery" "Positive";
                          mkDoc "terrible slow service" "Negative"] = Done m
       ∧ train constructor [mkDoc "terrible slow service" "Negative";
                            mkDoc "great fast delivery" "Positive"] = Done m.
Proof.
  destruct (train_order_independent constructor constructor
              [mkDoc "great fast delivery" "Positive";
               mkDoc "terrible slow service" "Negative"]
              [mkDoc "terrible slow service" "Negative";
               mkDoc "great fast delivery" "Positive"]) as [H1 H2].
  - apply perm_swap.
  - destruct H1 as [m Hm]; [repeat constructor; by eexists |].
    exists m. split; [exact Hm |]. by apply H2.
Defined.

(** ** Terms that name properties of Object.prototype *)

Section PrototypeTerms.

Lemma logProb_nan (m : model) (c : Category) (tokens : list string) (t : string) :
  t ∈ tokens → likelihood m c t = NaN → logProb m tokens c = NaN.
Proof.
  intros Hin Hl. unfold logProb. generalize (prior m c).
  induction tokens as [|u us IH]; intros a; [by apply elem_of_nil in Hin |].
  cbn [fold_left]. apply elem_of_cons in Hin as [<-|Hin].
  - rewrite Hl, js_add_nan_r. apply fold_js_add_nan.
  - by apply IH.
Qed.

(** A term whose slot holds a string: [tokenCount + 1] concatenates. *)
Lemma likelihood_string (m : model) (c : Category) (t s : string) :
  wordCounts m c !! t = Some (VStr s) → s ≠ "" → likelihood m c t = NaN.
Proof.
  intros Hl Hs. unfold likelihood, get_prop. rewrite Hl.
  unfold js_or. cbn [truthy]. rewrite bool_decide_eq_false_2 by done. done.
Qed.

End PrototypeTerms.

(** C9 (evaluation of the code): a valid corpus whose text contains the
    terms "constructor" and "__proto__".  The category counts add up, but
    the frequency stored for "constructor" is a string, not a count, and
    "__proto__" enters the vocabulary without becoming a key of any
    term-frequency map. *)
Theorem train_prototype_terms_break_invariant (this : model) :
  let corpus := [mkDoc "Broken constructor, __proto__ leak" "Negative"] in
  valid_corpus corpus
  ∧ ∃ m, train this corpus = Done m
      ∧ counts_add_up m
      ∧ wcNegative m !! "constructor" = Some (VStr "function Object() { [native code] }1")
      ∧ ¬ frequencies_are_counts m
      ∧ "__proto__" ∈ vocab m
      ∧ ("__proto__" ∉ dom (wcPositive m) ∪ dom (wcNegative m) ∪ dom (wcNeutral m))
      ∧ ¬ vocab_is_union_of_keys m.
Proof.
  intros corpus.
  assert (Hv : valid_corpus corpus) by (repeat constructor; by eexists).
  split; [exact Hv |].
  exists (fitted corpus). split; [by apply train_valid |].
  assert (Hs : wcNegative (fitted corpus) !! "constructor"
               = Some (VStr "function Object() { [native code] }1"))
    by (vm_compute; reflexivity).
  assert (Hin : "__proto__" ∈ vocab (fitted corpus))
    by (apply (bool_decide_unpack _); vm_compute; exact I).
  assert (Hout : "__proto__" ∉ (dom (wcPositive (fitted corpus))
                   ∪ dom (wcNegative (fitted corpus)) ∪ dom (wcNeutral (fitted corpus))))
    by (apply (bool_decide_unpack _); vm_compute; exact I).
  split; [vm_compute; reflexivity |].
  split; [exact Hs |].
  split.
  { intros Hf. destruct (Hf Negative _ _ Hs) as [n Hn]. discriminate Hn. }
  split; [exact Hin |]. split; [exact Hout |].
  intros Hu. apply Hout. by rewrite <- Hu.
Qed.

(** ** The score formula of the specification *)

Section SpecScore.
Import ScoreSpec.
Local Open Scope R_scope.

Lemma spec_prior_finite (m : model) (c : Category) : finite (spec_prior m c).
Proof.
  unfold spec_prior.
  set (a := Rmax _ (1 / 10)). set (b := Rmax _ 1).
  assert (0 < a) by (pose proof (Rmax_r (IZR (Z.of_N (stored_count (classCounts m) (cat_name c)))) (1 / 10)); fold a in H; lra).
  assert (0 < b) by (pose proof (Rmax_r (IZR (Z.of_N (totalDocs m))) 1); fold b in H0; lra).
  rewrite js_div_fin by lra. rewrite js_log_pos.
  - by eexists.
  - by apply Rdiv_lt_0_compat.
Qed.

Lemma spec_likelihood_finite (m : model) (c : Category) (t : string) :
  vocab m ≠ ∅ → finite (spec_likelihood m c t).
Proof.
  intros Hv. unfold spec_likelihood.
  set (x := IZR (Z.of_N (stored_count (wordCounts m c) t)) + 1).
  set (y := IZR (Z.of_N (total_count (wordCounts m c))) + INR (size (vocab m))).
  assert (0 < x) by (pose proof (IZR_of_N_nonneg (stored_count (wordCounts m c) t)); unfold x; lra).
  assert (0 < y).
  { pose proof (IZR_of_N_nonneg (total_count (wordCounts m c))).
    assert (0 < INR (size (vocab m))); [| unfold y; lra].
    apply lt_0_INR. destruct (size (vocab m)) eqn:Hs; [| lia].
    apply size_empty_inv in Hs. exfalso. apply Hv. by apply leibniz_equiv. }
  rewrite js_div_fin by lra. rewrite js_log_pos.
  - by eexists.
  - by apply Rdiv_lt_0_compat.
Qed.

Lemma fold_js_add_finite (f : string → jsnum) (ts : list string) :
  (∀ t, finite (f t)) → ∀ a, finite a →
  finite (fold_left (λ acc t, js_add acc (f t)) ts a).
Proof.
  intros Hf. induction ts as [|t ts IH]; intros a Ha; simpl; [done |].
  apply IH. destruct Ha as [r ->]. destruct (Hf t) as [r' ->]. by eexists.
Qed.

(** By the stated formula every score is finite once the vocabulary is not
    empty. *)
Lemma spec_score_finite (m : model) (tokens : list string) (c : Category) :
  vocab m ≠ ∅ → finite (spec_score m tokens c).
Proof.
  intros Hv. unfold spec_score. apply fold_js_add_finite.
  - intros t. by apply spec_likelihood_finite.
  - apply spec_prior_finite.
Qed.

End SpecScore.

(** C4 (evaluation of the code): on the model fitted to the two-document
    corpus of the specification, [predict("constructor")] scores NaN in
    every category, where the stated formula (count 0 for the unseen term)
    gives a finite number. *)
Theorem predict_score_prototype_term (this : model) :
  let corpus := [mkDoc "great fast delivery" "Positive";
                 mkDoc "terrible slow service" "Negative"] in
  valid_corpus corpus
  ∧ ∃ m, train this corpus = Done m
      ∧ ∀ c, score_of (predict m "constructor") c = Some NaN
             ∧ finite (ScoreSpec.spec_score m (tokenize (Some "constructor")) c)
             ∧ Some (ScoreSpec.spec_score m (tokenize (Some "constructor")) c)
               ≠ score_of (predict m "constructor") c.
Proof.
  intros corpus.
  assert (Hv : valid_corpus corpus) by (repeat constructor; by eexists).
  split; [exact Hv |].
  exists (fitted corpus). split; [by apply train_valid |].
  intros c.
  assert (Hs : score_of (predict (fitted corpus) "constructor") c = Some NaN).
  { rewrite predict_score.
    change (tokenize (Some "constructor")) with ["constructor"].
    rewrite (logProb_nan _ _ _ "constructor"); [done | by apply list_elem_of_singleton |].
    apply likelihood_proto_method; [| done | done].
    destruct c; vm_compute; reflexivity. }
  assert (Hf : finite (ScoreSpec.spec_score (fitted corpus) (tokenize (Some "constructor")) c)).
  { apply spec_score_finite. intros He.
    assert (Hin : "great" ∈ vocab (fitted corpus))
      by (apply (bool_decide_unpack _); vm_compute; exact I).
    rewrite He in Hin. by apply not_elem_of_empty in Hin. }
  split; [exact Hs |]. split; [exact Hf |].
  rewrite Hs. destruct Hf as [r ->]. discriminate.
Qed.

(** C6 (evaluation of the code): a corpus whose only document D, labelled
    Negative, contains the term "constructor".  The Positive score of D's
    text is NaN under the fit of the corpus and NaN again after D is
    relabelled Positive, so the second is not greater than or equal to the
    first. *)
Theorem relabel_prototype_term (this : model) :
  let D := mkDoc "The constructor failed" "Negative" in
  let D' := mkDoc (text D) "Positive" in
  ∃ m m' before after,
    train this [D] = Done m ∧ train this [D'] = Done m'
    ∧ score_of (predict m (text D)) Positive = Some before
    ∧ score_of (predict m' (text D)) Positive = Some after
    ∧ before = NaN ∧ after = NaN
    ∧ js_ge after before = false.
Proof.
  intros D D'.
  exists (fitted [D]), (fitted [D']), NaN, NaN.
  split; [apply train_valid; repeat constructor; by eexists |].
  split; [apply train_valid; repeat constructor; by eexists |].
  rewrite !predict_score.
  change (tokenize (Some (text D))) with ["the"; "constructor"; "failed"].
  split; [| split]; [| | done].
  - f_equal. apply (logProb_nan _ _ _ "constructor").
    + apply elem_of_cons. right. apply elem_of_cons. by left.
    + apply likelihood_proto_method; [vm_compute; reflexivity | done | done].
  - f_equal. apply (logProb_nan _ _ _ "constructor").
    + apply elem_of_cons. right. apply elem_of_cons. by left.
    + apply (likelihood_string _ _ _ "function Object() { [native code] }1");
        [vm_compute; reflexivity | done].
Qed.

(** ** Dictionaries of counts

    Away from the property names of [Object.prototype], line 73 is the
    increment of a counter. *)

Section Counts.
Import ScoreSpec.

Lemma clean_token_spec (t : string) :
  clean_token t → t ≠ "__proto__" ∧ proto_get t = VUndef.
Proof.
  unfold clean_token, is_proto_key. intros H.
  apply orb_false_iff in H as [Hp Hm]. split.
  - by apply bool_decide_eq_false in Hp.
  - unfold proto_get. by rewrite Hp, Hm.
Qed.

Lemma bump_clean (o : gmap string jsval) (t : string) :
  counts_only o → clean_token t →
  bump o t = <[t := VInt (stored_count o t + 1)]> o.
Proof.
  intros Ho Ht. destruct (clean_token_spec t Ht) as [Hp Hg].
  unfold bump, set_prop, get_prop, stored_count.
  rewrite bool_decide_eq_false_2 by done.
  destruct (o !! t) as [v|] eqn:Hl.
  - destruct (Ho t v Hl) as [n ->]. unfold js_or. simpl.
    destruct (n =? 0)%N eqn:Hn; simpl; [| done].
    apply N.eqb_eq in Hn. by subst.
  - by rewrite Hg.
Qed.

Lemma counts_only_empty : counts_only ∅.
Proof. intros t v. by rewrite lookup_empty. Qed.

Lemma counts_only_insert (o : gmap string jsval) (t : string) (n : N) :
  counts_only o → counts_only (<[t := VInt n]> o).
Proof.
  intros Ho u v. destruct (decide (t = u)) as [->|Hne].
  - rewrite lookup_insert_eq. intros [= <-]. by eexists.
  - rewrite lookup_insert_ne by done. apply Ho.
Qed.

Lemma counts_only_bump (o : gmap string jsval) (t : string) :
  counts_only o → clean_token t → counts_only (bump o t).
Proof. intros Ho Ht. rewrite bump_clean by done. by apply counts_only_insert. Qed.

Lemma stored_count_insert (o : gmap string jsval) (t u : string) (n : N) :
  stored_count (<[t := VInt n]> o) u = if decide (t = u) then n else stored_count o u.
Proof.
  unfold stored_count. destruct (decide (t = u)) as [->|Hne].
  - by rewrite lookup_insert_eq.
  - by rewrite lookup_insert_ne.
Qed.

Lemma total_count_insert_fresh (o : gmap string jsval) (t : string) (v : jsval) :
  o !! t = None →
  total_count (<[t := v]> o) =
  (total_count o + match v with VInt n => n | _ => 0 end)%N.
Proof.
  intros Hl. unfold total_count. rewrite map_fold_insert_L; [| | done].
  - destruct v; lia.
  - intros j1 j2 z1 z2 y _ _ _. destruct z1, z2; lia.
Qed.

Lemma total_count_insert (o : gmap string jsval) (t : string) (n : N) :
  (total_count (<[t := VInt n]> o) + stored_count o t)%N = (total_count o + n)%N.
Proof.
  destruct (o !! t) as [v|] eqn:Hl.
  - rewrite <- (insert_delete_eq o).
    rewrite <- (insert_delete_id o t v Hl) at 3.
    rewrite !total_count_insert_fresh by apply lookup_delete_eq.
    unfold stored_count. rewrite Hl. destruct v; lia.
  - rewrite total_count_insert_fresh by done.
    unfold stored_count. rewrite Hl. lia.
Qed.

Lemma total_count_bump (o : gmap string jsval) (t : string) :
  counts_only o → clean_token t →
  total_count (bump o t) = (total_count o + 1)%N.
Proof.
  intros Ho Ht. rewrite bump_clean by done.
  pose proof (total_count_insert o t (stored_count o t + 1)). lia.
Qed.

Lemma classTotalWords_counts (o : gmap string jsval) :
  counts_only o → classTotalWords o = Some (total_count o).
Proof.
  induction o as [|t v o Hl IH] using map_ind; intros Ho; [done |].
  destruct (Ho t v) as [n ->]; [apply lookup_insert_eq |].
  rewrite total_count_insert_fresh by done.
  unfold classTotalWords. rewrite map_fold_insert_L; [| | done].
  - fold (classTotalWords o). rewrite IH; [done |].
    intros u w Hu. apply (Ho u w).
    rewrite lookup_insert_ne; [done |]. intros ->. congruence.
  - intros j1 j2 z1 z2 y _ _ _.
    destruct y, z1, z2; try done. f_equal. lia.
Qed.

Lemma dom_bump (o : gmap string jsval) (t : string) :
  counts_only o → clean_token t → dom (bump o t) = {[t]} ∪ dom o.
Proof. intros Ho Ht. rewrite bump_clean by done. apply dom_insert_L. Qed.

Lemma occ_cons (t u : string) (ts : list string) :
  occ t (u :: ts) = ((if decide (u = t) then 1 else 0) + occ t ts)%N.
Proof.
  unfold occ. simpl. case_bool_decide; case_decide; try done; simpl; lia.
Qed.

(** The dictionary after a run of the inner loop over clean terms. *)
Lemma bump_all_clean (ts : list string) :
  Forall clean_token ts →
  ∀ o, counts_only o →
    counts_only (bump_all o ts)
    ∧ (∀ t, stored_count (bump_all o ts) t = (stored_count o t + occ t ts)%N)
    ∧ total_count (bump_all o ts) = (total_count o + N.of_nat (length ts))%N
    ∧ dom (bump_all o ts) = list_to_set ts ∪ dom o.
Proof.
  induction 1 as [|u ts Hu _ IH]; intros o Ho; simpl.
  - split; [done |]. split; [intros t; unfold occ; simpl; lia |].
    split; [lia | set_solver].
  - destruct (IH (bump o u) (counts_only_bump o u Ho Hu)) as (H1 & H2 & H3 & H4).
    split; [exact H1 |]. split; [| split].
    + intros t. rewrite H2, occ_cons, bump_clean, stored_count_insert by done.
      case_decide; subst; lia.
    + rewrite H3, total_count_bump by done. lia.
    + rewrite H4, dom_bump by done. set_solver.
Qed.

End Counts.

(** ** Fitted models of clean corpora *)

Section CleanModels.
Import ScoreSpec.
Local Open Scope R_scope.

Lemma wordCounts_fitted (docs : list document) (c : Category) :
  wordCounts (fitted docs) c = bump_all ∅ (tokens_in docs c).
Proof. by destruct c. Qed.

Lemma tokens_in_clean (docs : list document) (c : Category) :
  clean_corpus docs → Forall clean_token (tokens_in docs c).
Proof.
  unfold clean_corpus, all_tokens, tokens_in.
  induction docs as [|d docs IH]; simpl; [done |].
  rewrite !Forall_app. intros [Hd Hr]. split; [| by apply IH].
  by destruct (has_label c d).
Qed.

Lemma fitted_counts_only (docs : list document) (c : Category) :
  clean_corpus docs → counts_only (wordCounts (fitted docs) c).
Proof.
  intros Hc. rewrite wordCounts_fitted.
  by apply bump_all_clean; [apply tokens_in_clean | apply counts_only_empty].
Qed.

Lemma stored_count_class_counts (a b c : N) (k : Category) :
  stored_count (class_counts a b c) (cat_name k) =
  match k with Positive => a | Negative => b | Neutral => c end.
Proof. by destruct k. Qed.

Lemma count_label_total (docs : list document) :
  valid_corpus docs →
  (count_label docs Positive + count_label docs Negative
   + count_label docs Neutral)%N = N.of_nat (length docs).
Proof.
  induction 1 as [|d docs [k Hk] _ IH]; [done |].
  rewrite !count_label_cons, !(has_label_iff _ d k) by done.
  cbn [length]. destruct k; simpl; lia.
Qed.

Lemma vocab_by_category (docs : list document) :
  valid_corpus docs →
  (list_to_set (all_tokens docs) : gset string) =
  list_to_set (tokens_in docs Positive) ∪ list_to_set (tokens_in docs Negative)
  ∪ list_to_set (tokens_in docs Neutral).
Proof.
  unfold all_tokens, tokens_in.
  induction 1 as [|d docs [k Hk] _ IH]; simpl; [set_solver |].
  rewrite !list_to_set_app_L, IH, !(has_label_iff _ d k) by done.
  destruct k; simpl; set_solver.
Qed.

(** The invariant of the data model holds after a fit of a valid corpus
    none of whose terms names a property of [Object.prototype]. *)
Lemma fitted_invariant_clean (this : model) (docs : list document) :
  valid_corpus docs → clean_corpus docs →
  ∃ m, train this docs = Done m
       ∧ counts_add_up m ∧ frequencies_are_counts m ∧ vocab_is_union_of_keys m.
Proof.
  intros Hv Hc. exists (fitted docs). split; [by apply train_valid |].
  split; [| split].
  - unfold counts_add_up. cbn [classCounts totalDocs fitted].
    rewrite (stored_count_class_counts _ _ _ Positive),
            (stored_count_class_counts _ _ _ Negative),
            (stored_count_class_counts _ _ _ Neutral).
    by apply count_label_total.
  - intros c. apply fitted_counts_only. done.
  - unfold vocab_is_union_of_keys. cbn [vocab wcPositive wcNegative wcNeutral fitted].
    rewrite vocab_by_category by done.
    destruct (bump_all_clean _ (tokens_in_clean docs Positive Hc) ∅ counts_only_empty)
      as (_ & _ & _ & ->).
    destruct (bump_all_clean _ (tokens_in_clean docs Negative Hc) ∅ counts_only_empty)
      as (_ & _ & _ & ->).
    destruct (bump_all_clean _ (tokens_in_clean docs Neutral Hc) ∅ counts_only_empty)
      as (_ & _ & _ & ->).
    rewrite dom_empty_L. set_solver.
Qed.

Lemma or_number_max (n : N) (d : R) :
  0 < d <= 1 → or_number (VInt n) d = Fin (Rmax (IZR (Z.of_N n)) d).
Proof.
  intros Hd. unfold or_number. cbn [truthy to_number].
  destruct (n =? 0)%N eqn:Hn; simpl.
  - apply N.eqb_eq in Hn. subst. simpl. rewrite Rmax_right by lra. done.
  - apply N.eqb_neq in Hn. rewrite Rmax_left; [done |].
    assert (1 <= IZR (Z.of_N n)) by (apply IZR_le; lia). lra.
Qed.

Lemma prior_spec (m : model) (c : Category) (n : N) :
  classCounts m !! cat_name c = Some (VInt n) → prior m c = spec_prior m c.
Proof.
  intros Hl. unfold prior, spec_prior, get_prop, stored_count. rewrite Hl.
  rewrite !or_number_max by lra. done.
Qed.

Lemma token_count_clean (o : gmap string jsval) (t : string) :
  counts_only o → clean_token t →
  add_one (js_or (get_prop o t) (VInt 0)) = VInt (stored_count o t + 1).
Proof.
  intros Ho Ht. destruct (clean_token_spec t Ht) as [_ Hg].
  unfold get_prop, stored_count.
  destruct (o !! t) as [v|] eqn:Hl.
  - destruct (Ho t v Hl) as [n ->]. unfold js_or. simpl.
    destruct (n =? 0)%N eqn:Hn; simpl; [| done].
    apply N.eqb_eq in Hn. by subst.
  - by rewrite Hg.
Qed.

Lemma likelihood_spec (m : model) (c : Category) (t : string) :
  counts_only (wordCounts m c) → clean_token t →
  likelihood m c t = spec_likelihood m c t.
Proof.
  intros Ho Ht. unfold likelihood, spec_likelihood, denominator.
  rewrite token_count_clean, classTotalWords_counts by done.
  cbn [to_number]. by rewrite N2Z.inj_add, plus_IZR.
Qed.

(** On a model of counts and a text of clean terms the score is the stated
    formula. *)
Lemma logProb_spec (m : model) (c : Category) (tokens : list string) (n : N) :
  classCounts m !! cat_name c = Some (VInt n) →
  counts_only (wordCounts m c) → Forall clean_token tokens →
  logProb m tokens c = spec_score m tokens c.
Proof.
  intros Hc Ho Ht. unfold logProb, spec_score. rewrite (prior_spec m c n Hc).
  generalize (spec_prior m c).
  induction Ht as [|t ts Ht _ IH]; intros a; simpl; [done |].
  by rewrite likelihood_spec, IH.
Qed.

Lemma fitted_class_count (docs : list document) (c : Category) :
  classCounts (fitted docs) !! cat_name c = Some (VInt (count_label docs c)).
Proof. by destruct c. Qed.

(** The score formula on the fit of a valid, clean corpus. *)
Lemma predict_score_clean (this : model) (docs : list document) (txt : string) :
  valid_corpus docs → clean_corpus docs →
  Forall clean_token (tokenize (Some txt)) →
  ∃ m, train this docs = Done m
       ∧ ∀ c, score_of (predict m txt) c
              = Some (spec_score m (tokenize (Some txt)) c).
Proof.
  intros Hv Hc Ht. exists (fitted docs). split; [by apply train_valid |].
  intros c. rewrite predict_score. f_equal.
  eapply logProb_spec; [apply fitted_class_count | by apply fitted_counts_only | done].
Qed.

(** With a non-empty vocabulary, or for a text without terms, the scores
    of a clean text on the fit of a valid, clean corpus are finite. *)
Lemma predict_finite_clean (this : model) (docs : list document) (txt : string) :
  valid_corpus docs → clean_corpus docs →
  Forall clean_token (tokenize (Some txt)) →
  all_tokens docs ≠ [] ∨ tokenize (Some txt) = [] →
  ∃ m, train this docs = Done m
       ∧ ∀ c, ∃ r, score_of (predict m txt) c = Some (Fin r).
Proof.
  intros Hv Hc Ht Hne.
  destruct (predict_score_clean this docs txt Hv Hc Ht) as (m & Hm & Hs).
  exists m. split; [exact Hm |]. intros c. rewrite Hs.
  assert (Hf : finite (spec_score m (tokenize (Some txt)) c)).
  { destruct Hne as [Hne | ->].
    - apply spec_score_finite.
      rewrite train_valid in Hm by done. injection Hm as <-.
      cbn [vocab fitted]. destruct (all_tokens docs) as [|t ts]; [done |].
      set_solver.
    - apply spec_prior_finite. }
  destruct Hf as [r ->]. by exists r.
Qed.

End CleanModels.

(** ** Relabelling a document

    The inequality behind the "monotonic correction" property: moving the
    terms of a document into a category cannot lower the smoothed
    likelihood that category gives to those very terms. *)

Section Harmonic.
Local Open Scope R_scope.

Lemma ln_lower_bound (x : R) : 0 < x → 1 - / x <= ln x.
Proof.
  intros Hx.
  assert (Hi : 0 < / x) by (by apply Rinv_0_lt_compat).
  assert (H : ln (/ x) <= / x - 1).
  { pose proof (exp_ineq1_le (/ x - 1)) as He.
    replace (1 + (/ x - 1)) with (/ x) in He by lra.
    destruct He as [He | He].
    - left. rewrite <- (ln_exp (/ x - 1)). by apply ln_increasing.
    - rewrite He at 1. rewrite ln_exp. lra. }
  rewrite ln_Rinv in H by done. lra.
Qed.

Lemma Rdiv_nonneg (x y : R) : 0 <= x → 0 < y → 0 <= x / y.
Proof. intros Hx Hy. unfold Rdiv. by apply Rle_mult_inv_pos. Qed.

Lemma par_0_l (b : R) : par 0 b = 0.
Proof. unfold par. rewrite Rmult_0_l. unfold Rdiv. by rewrite Rmult_0_l. Qed.

Lemma par_nonneg (a b : R) : 0 <= a → 0 <= b → 0 <= par a b.
Proof.
  intros Ha Hb. unfold par.
  destruct (Req_dec_T (a + b) 0) as [H0|Hn].
  - assert (a = 0) by lra. subst. unfold Rdiv. rewrite Rmult_0_l, Rmult_0_l. lra.
  - apply Rdiv_nonneg; [by apply Rmult_le_pos | lra].
Qed.

(** The harmonic combination is superadditive. *)
Lemma par_superadditive (a b c d : R) :
  0 <= a → 0 < b → 0 <= c → 0 <= d →
  par a b + par c d <= par (a + c) (b + d).
Proof.
  intros Ha Hb Hc Hd.
  destruct (Req_dec_T (c + d) 0) as [H0|Hn].
  - assert (c = 0) by lra. assert (d = 0) by lra. subst.
    rewrite par_0_l, !Rplus_0_r. lra.
  - assert (Hcd : 0 < c + d) by lra.
    assert (He : par (a + c) (b + d) - (par a b + par c d)
                 = (a * d - b * c) ^ 2 / ((a + b) * (c + d) * (a + b + c + d))).
    { unfold par. field. repeat split; lra. }
    assert (0 <= (a * d - b * c) ^ 2 / ((a + b) * (c + d) * (a + b + c + d))).
    { apply Rdiv_nonneg; [apply pow2_ge_0 |].
      repeat apply Rmult_lt_0_compat; lra. }
    lra.
Qed.

Lemma par_mono_r (a b b' : R) : 0 <= a → 0 < b → b <= b' → par a b <= par a b'.
Proof.
  intros Ha Hb Hbb.
  pose proof (par_superadditive a b 0 (b' - b) Ha Hb (Rle_refl 0)) as H.
  rewrite par_0_l in H. replace (a + 0) with a in H by lra.
  replace (b + (b' - b)) with b' in H by lra. lra.
Qed.

End Harmonic.

Section TokenSums.
Local Open Scope R_scope.

Lemma rsum_cons (g : string → R) (t : string) (ts : list string) :
  rsum g (t :: ts) = g t + rsum g ts.
Proof. done. Qed.

Lemma rsum_ext_in (g h : string → R) (ts : list string) :
  (∀ u, u ∈ ts → g u = h u) → rsum g ts = rsum h ts.
Proof.
  induction ts as [|t ts IH]; intros H; [done |].
  rewrite !rsum_cons, H, IH; [done | | apply elem_of_cons; by left].
  intros u Hu. apply H. apply elem_of_cons. by right.
Qed.

Lemma rsum_le (g h : string → R) (ts : list string) :
  (∀ u, u ∈ ts → g u <= h u) → rsum g ts <= rsum h ts.
Proof.
  induction ts as [|t ts IH]; intros H; [simpl; lra |].
  rewrite !rsum_cons.
  assert (g t <= h t) by (apply H, elem_of_cons; by left).
  assert (rsum g ts <= rsum h ts); [| lra].
  apply IH. intros u Hu. apply H, elem_of_cons. by right.
Qed.

Lemma rsum_nonneg (g : string → R) (ts : list string) :
  (∀ u, 0 <= g u) → 0 <= rsum g ts.
Proof.
  intros H. induction ts as [|t ts IH]; [simpl; lra |].
  rewrite rsum_cons. specialize (H t). lra.
Qed.

Lemma rsum_plus (g h : string → R) (ts : list string) :
  rsum (λ u, g u + h u) ts = rsum g ts + rsum h ts.
Proof. induction ts as [|t ts IH]; [simpl; lra |]. rewrite !rsum_cons, IH. lra. Qed.

Lemma rsum_scal (K : R) (h : string → R) (ts : list string) :
  rsum (λ u, K * h u) ts = K * rsum h ts.
Proof. induction ts as [|t ts IH]; [simpl; lra |]. rewrite !rsum_cons, IH. lra. Qed.

Lemma rlength_cons (t : string) (ts : list string) :
  rlength (t :: ts) = 1 + rlength ts.
Proof. unfold rlength. cbn [length]. rewrite S_INR. lra. Qed.

Lemma rlength_nonneg (ts : list string) : 0 <= rlength ts.
Proof. apply pos_INR. Qed.

Lemma rsum_const (c : R) (ts : list string) :
  rsum (λ _, c) ts = c * rlength ts.
Proof.
  induction ts as [|t ts IH]; [unfold rlength; simpl; lra |].
  rewrite rsum_cons, rlength_cons, IH. lra.
Qed.

Lemma rocc_cons (t u : string) (ts : list string) :
  rocc t (u :: ts) = (if decide (u = t) then 1 else 0) + rocc t ts.
Proof.
  unfold rocc. rewrite occ_cons, N2Z.inj_add, plus_IZR.
  by case_decide.
Qed.

Lemma rocc_nonneg (t : string) (ts : list string) : 0 <= rocc t ts.
Proof. apply IZR_of_N_nonneg. Qed.

Lemma others_cons (t u : string) (ts : list string) :
  others t (u :: ts) = if decide (u = t) then others t ts else u :: others t ts.
Proof. unfold others. simpl. by case_bool_decide; case_decide. Qed.

Lemma elem_of_others (t u : string) (ts : list string) :
  u ∈ others t ts ↔ u ∈ ts ∧ u ≠ t.
Proof.
  induction ts as [|v ts IH].
  - unfold others. simpl. split; [intros H | intros [H _]]; by apply elem_of_nil in H.
  - rewrite others_cons. case_decide; subst.
    + rewrite IH, elem_of_cons. naive_solver.
    + rewrite !elem_of_cons, IH. naive_solver.
Qed.

Lemma length_others_le (t : string) (ts : list string) :
  (length (others t ts) <= length ts)%nat.
Proof.
  induction ts as [|v ts IH]; [done |].
  rewrite others_cons. case_decide; simpl; lia.
Qed.

Lemma rocc_others (t u : string) (ts : list string) :
  u ≠ t → rocc u (others t ts) = rocc u ts.
Proof.
  intros Hne. induction ts as [|v ts IH]; [done |].
  rewrite others_cons, rocc_cons. case_decide; subst.
  - rewrite IH. case_decide; [congruence | lra].
  - rewrite rocc_cons, IH. done.
Qed.

Lemma rlength_others (t : string) (ts : list string) :
  rlength ts = rocc t ts + rlength (others t ts).
Proof.
  induction ts as [|v ts IH]; [unfold rlength, rocc; simpl; lra |].
  rewrite others_cons, rocc_cons, rlength_cons, IH.
  case_decide; [| rewrite rlength_cons]; lra.
Qed.

(** Collect the occurrences of one term. *)
Lemma rsum_peel (g : string → R) (t : string) (ts : list string) :
  rsum g ts = rocc t ts * g t + rsum g (others t ts).
Proof.
  induction ts as [|v ts IH]; [unfold rocc; simpl; lra |].
  rewrite others_cons, rocc_cons, rsum_cons, IH.
  case_decide; subst; [| rewrite rsum_cons]; lra.
Qed.

Lemma rocc_not_in (t : string) (ts : list string) : t ∉ ts → rocc t ts = 0.
Proof.
  induction ts as [|v ts IH]; intros Hn; [done |].
  rewrite rocc_cons. apply not_elem_of_cons in Hn as [Hne Hn].
  rewrite IH by done. case_decide; [congruence | lra].
Qed.

Lemma rocc_NoDup (t : string) (ks : list string) :
  NoDup ks → t ∈ ks → rocc t ks = 1.
Proof.
  induction 1 as [|v ks Hv Hnd IH]; intros Hin; [by apply elem_of_nil in Hin |].
  rewrite rocc_cons. case_decide; subst.
  - rewrite rocc_not_in by done. lra.
  - apply elem_of_cons in Hin as [->|Hin]; [done |]. rewrite IH by done. lra.
Qed.

Lemma NoDup_others (t : string) (ks : list string) : NoDup ks → NoDup (others t ks).
Proof.
  induction 1 as [|v ks Hv Hnd IH]; [constructor |].
  rewrite others_cons. case_decide; [done |].
  constructor; [| done]. rewrite elem_of_others. naive_solver.
Qed.

End TokenSums.

Section Gain.
Local Open Scope R_scope.

Variable p : string → R.
Hypothesis p_pos : ∀ u, 0 < p u.

(** Summed over the occurrences of a token list, the ratios
    [p u / (p u + occurrences of u)] stay below the harmonic combination of
    the length of the list with the mass of any duplicate-free key list
    that covers it. *)
Lemma harmonic_bound (n : nat) :
  ∀ ds ks, (length ds <= n)%nat → NoDup ks → (∀ u, u ∈ ds → u ∈ ks) →
    rsum (λ u, p u / (p u + rocc u ds)) ds <= par (rlength ds) (rsum p ks).
Proof using p_pos.
  induction n as [|n IH]; intros ds ks Hlen Hnd Hsub.
  - destruct ds; [| simpl in Hlen; lia].
    unfold rlength. simpl. rewrite par_0_l. lra.
  - destruct ds as [|t rest].
    { unfold rlength. simpl. rewrite par_0_l. lra. }
    set (ds := t :: rest) in *.
    assert (Ht : t ∈ ks) by (apply Hsub, elem_of_cons; by left).
    set (G := λ u, p u / (p u + rocc u ds)).
    set (k := rocc t ds).
    assert (Hk : 1 <= k).
    { unfold k, ds. rewrite rocc_cons. case_decide; [| done].
      pose proof (rocc_nonneg t rest). lra. }
    (* the occurrences of [t], then the rest *)
    rewrite (rsum_peel G t ds). fold k.
    rewrite (rsum_peel p t ks), (rocc_NoDup t ks Hnd Ht), Rmult_1_l.
    rewrite (rlength_others t ds). fold k.
    assert (Hds' : others t ds = others t rest).
    { unfold ds. rewrite others_cons. by case_decide. }
    assert (Hrest : rsum G (others t ds)
                    <= par (rlength (others t ds)) (rsum p (others t ks))).
    { rewrite (rsum_ext_in G (λ u, p u / (p u + rocc u (others t ds)))).
      - apply IH.
        + rewrite Hds'. pose proof (length_others_le t rest). simpl in Hlen. lia.
        + by apply NoDup_others.
        + intros u Hu. apply elem_of_others in Hu as [Hu Hne].
          apply elem_of_others. split; [by apply Hsub | done].
      - intros u Hu. apply elem_of_others in Hu as [_ Hne].
        unfold G. by rewrite rocc_others. }
    assert (Hhead : k * G t = par k (p t)).
    { unfold G, par. fold k. pose proof (p_pos t). field. lra. }
    rewrite Hhead.
    etransitivity; [| apply par_superadditive].
    + lra.
    + lra.
    + apply p_pos.
    + apply rlength_nonneg.
    + apply rsum_nonneg. intros u. left. apply p_pos.
Qed.

End Gain.

Section LikelihoodGain.
Local Open Scope R_scope.

Variable f : string → R.
Hypothesis f_nonneg : ∀ u, 0 <= f u.

(** Moving the tokens [ds] into a category whose smoothed counts are
    [f u + 1] over the keys [ks] does not lower the sum of the
    log-likelihoods of [ds]. *)
Lemma likelihood_gain (ds ks : list string) :
  NoDup ks → (∀ u, u ∈ ds → u ∈ ks) →
  let S := rsum (λ u, f u + 1) ks in
  rsum (λ u, ln ((f u + 1) / S)) ds
  <= rsum (λ u, ln ((f u + rocc u ds + 1) / (S + rlength ds))) ds.
Proof using f_nonneg.
  intros Hnd Hsub S.
  destruct ds as [|t rest] eqn:Hds; [simpl; lra |]. rewrite <- Hds in *.
  set (L := rlength ds).
  assert (HL : 1 <= L).
  { unfold L. rewrite Hds, rlength_cons. pose proof (rlength_nonneg rest). lra. }
  assert (HS : 1 <= S).
  { unfold S. assert (Ht : t ∈ ks) by (apply Hsub; rewrite Hds; apply elem_of_cons; by left).
    rewrite (rsum_peel _ t ks), (rocc_NoDup t ks Hnd Ht).
    assert (0 <= rsum (λ u, f u + 1) (others t ks)).
    { apply rsum_nonneg. intros u. specialize (f_nonneg u). lra. }
    specialize (f_nonneg t). lra. }
  set (h := λ u, (f u + 1) / ((f u + 1) + rocc u ds)).
  set (K := (S + L) / S).
  (* each term gains at least [1 - K h u] *)
  assert (Hterm : ∀ u, u ∈ ds →
            ln ((f u + 1) / S) + (1 + - K * h u)
            <= ln ((f u + rocc u ds + 1) / (S + L))).
  { intros u _. pose proof (f_nonneg u) as Hf. pose proof (rocc_nonneg u ds) as Ho.
    set (b := (f u + 1) / S). set (a := (f u + rocc u ds + 1) / (S + L)).
    assert (Hb : 0 < b) by (apply Rdiv_lt_0_compat; lra).
    assert (Ha : 0 < a) by (apply Rdiv_lt_0_compat; lra).
    assert (Hq : K * h u = / (a / b)).
    { unfold K, h, a, b. field. repeat split; lra. }
    assert (Hab : 0 < a / b) by (by apply Rdiv_lt_0_compat).
    pose proof (ln_lower_bound (a / b) Hab) as Hln.
    assert (Hd : ln (a / b) = ln a - ln b).
    { unfold Rdiv. rewrite ln_mult, ln_Rinv; [lra | done | done |].
      by apply Rinv_0_lt_compat. }
    lra. }
  etransitivity; [| apply (rsum_le _ _ ds Hterm)].
  rewrite rsum_plus, rsum_plus, rsum_const, rsum_scal. fold L.
  assert (Hh : rsum h ds <= par L S).
  { unfold h, L, S. apply (harmonic_bound (λ u, f u + 1)) with (n := length ds);
      [| done | done | done].
    intros u. specialize (f_nonneg u). lra. }
  assert (HK : K * par L S = L).
  { unfold K, par. field. lra. }
  assert (0 < K) by (unfold K; apply Rdiv_lt_0_compat; lra).
  assert (K * rsum h ds <= L).
  { rewrite <- HK. apply Rmult_le_compat_l; lra. }
  lra.
Qed.

End LikelihoodGain.

Section ScoreValues.
Import ScoreSpec.
Local Open Scope R_scope.

Lemma spec_prior_value (m : model) (c : Category) :
  spec_prior m c = Fin (rprior m c).
Proof.
  unfold spec_prior, rprior.
  set (a := Rmax _ (1 / 10)). set (b := Rmax _ 1).
  assert (0 < a) by (pose proof (Rmax_r (IZR (Z.of_N (stored_count (classCounts m) (cat_name c)))) (1 / 10)) as H; fold a in H; lra).
  assert (0 < b) by (pose proof (Rmax_r (IZR (Z.of_N (totalDocs m))) 1) as H'; fold b in H'; lra).
  rewrite js_div_fin by lra. apply js_log_pos. by apply Rdiv_lt_0_compat.
Qed.

Lemma size_pos (X : gset string) : X ≠ ∅ → 0 < INR (size X).
Proof.
  intros HX. apply lt_0_INR. destruct (size X) eqn:Hs; [| lia].
  apply size_empty_inv in Hs. exfalso. apply HX. by apply leibniz_equiv.
Qed.

Lemma spec_likelihood_value (m : model) (c : Category) (t : string) :
  vocab m ≠ ∅ → spec_likelihood m c t = Fin (rlik m c t).
Proof.
  intros Hv. unfold spec_likelihood, rlik.
  pose proof (IZR_of_N_nonneg (stored_count (wordCounts m c) t)).
  pose proof (IZR_of_N_nonneg (total_count (wordCounts m c))).
  pose proof (size_pos _ Hv).
  rewrite js_div_fin by lra. apply js_log_pos. apply Rdiv_lt_0_compat; lra.
Qed.

Lemma fold_js_add_fin (g : string → R) (ts : list string) :
  ∀ a, fold_left (λ acc t, js_add acc (Fin (g t))) ts (Fin a) = Fin (a + rsum g ts).
Proof.
  induction ts as [|t ts IH]; intros a; simpl.
  - f_equal. lra.
  - rewrite IH. f_equal. lra.
Qed.

(** The stated score as a real number. *)
Lemma spec_score_value (m : model) (tokens : list string) (c : Category) :
  vocab m ≠ ∅ ∨ tokens = [] →
  spec_score m tokens c = Fin (rprior m c + rsum (rlik m c) tokens).
Proof.
  intros [Hv | ->].
  - unfold spec_score. rewrite spec_prior_value.
    rewrite <- fold_js_add_fin. revert Hv. generalize (Fin (rprior m c)).
    induction tokens as [|t ts IH]; intros a Hv; simpl; [done |].
    rewrite spec_likelihood_value by done. by apply IH.
  - unfold spec_score. simpl. rewrite spec_prior_value. f_equal. lra.
Qed.

Lemma ln_mono (x y : R) : 0 < x → x <= y → ln x <= ln y.
Proof.
  intros Hx [Hlt | ->]; [| lra]. left. by apply ln_increasing.
Qed.

Lemma rocc_app (t : string) (a b : list string) :
  rocc t (a ++ b) = rocc t a + rocc t b.
Proof.
  induction a as [|u a IH]; [unfold rocc at 2; simpl; lra |].
  simpl app. rewrite !rocc_cons, IH. lra.
Qed.

Lemma rlength_app (a b : list string) : rlength (a ++ b) = rlength a + rlength b.
Proof. unfold rlength. by rewrite length_app, plus_INR. Qed.

Lemma rlength_of_N (ts : list string) :
  IZR (Z.of_N (N.of_nat (length ts))) = rlength ts.
Proof. unfold rlength. by rewrite nat_N_Z, <- INR_IZR_INZ. Qed.

(** Over a duplicate-free key list that covers [ts], the counts of the keys
    add up to the length of [ts]. *)
Lemma rsum_rocc_keys (ts ks : list string) :
  NoDup ks → (∀ u, u ∈ ts → u ∈ ks) → rsum (λ u, rocc u ts) ks = rlength ts.
Proof.
  intros Hnd. induction ts as [|v ts IH]; intros Hsub.
  - rewrite (rsum_ext_in _ (λ _, 0)); [rewrite rsum_const; unfold rlength; simpl; lra |].
    done.
  - rewrite (rsum_ext_in _ (λ u, rocc u [v] + rocc u ts)).
    + rewrite rsum_plus, IH, rlength_cons.
      * assert (rsum (λ u, rocc u [v]) ks = 1); [| lra].
        assert (Hv : v ∈ ks) by (apply Hsub, elem_of_cons; by left).
        clear -Hnd Hv. induction Hnd as [|k ks Hk Hnd IH]; [by apply elem_of_nil in Hv |].
        rewrite rsum_cons, rocc_cons. unfold rocc at 1. simpl.
        apply elem_of_cons in Hv as [->|Hv].
        -- case_decide; [| done].
           rewrite (rsum_ext_in _ (λ _, 0)); [rewrite rsum_const; lra |].
           intros u Hu. rewrite rocc_cons. unfold rocc. simpl.
           case_decide; [subst; done | lra].
        -- case_decide; [subst; done |]. rewrite IH by done. lra.
      * intros u Hu. apply Hsub, elem_of_cons. by right.
    + intros u _. by rewrite <- rocc_app.
Qed.

End ScoreValues.

Section Relabel.
Import ScoreSpec.
Local Close Scope string_scope.
Local Open Scope R_scope.

Lemma fitted_rlik (docs : list document) (c : Category) (u : string) :
  clean_corpus docs →
  rlik (fitted docs) c u =
  ln ((rocc u (tokens_in docs c) + 1)
      / (rlength (tokens_in docs c) + rlength (elements (vocab (fitted docs))))).
Proof.
  intros Hc. unfold rlik. rewrite wordCounts_fitted.
  destruct (bump_all_clean _ (tokens_in_clean docs c Hc) ∅ counts_only_empty)
    as (_ & Hs & Ht & _).
  rewrite Hs, Ht. unfold stored_count at 1. rewrite lookup_empty.
  change (total_count ∅) with 0%N. rewrite !N.add_0_l, rlength_of_N. done.
Qed.

Lemma fitted_rprior (docs : list document) (c : Category) :
  rprior (fitted docs) c =
  ln (Rmax (IZR (Z.of_N (count_label docs c))) (1 / 10)
      / Rmax (IZR (Z.of_N (N.of_nat (length docs)))) 1).
Proof.
  unfold rprior. cbn [classCounts totalDocs fitted].
  rewrite stored_count_class_counts. by destruct c.
Qed.

Lemma tokens_in_subset (docs : list document) (c : Category) (u : string) :
  u ∈ tokens_in docs c → u ∈ all_tokens docs.
Proof.
  unfold tokens_in, all_tokens. induction docs as [|d docs IH]; simpl; [done |].
  rewrite !elem_of_app. intros [H|H]; [| right; by apply IH].
  left. by destruct (has_label c d); [| apply elem_of_nil in H].
Qed.

Lemma all_tokens_app (a b : list document) :
  all_tokens (a ++ b) = all_tokens a ++ all_tokens b.
Proof. apply flat_map_app. Qed.

Lemma tokens_in_app (a b : list document) (c : Category) :
  tokens_in (a ++ b) c = tokens_in a c ++ tokens_in b c.
Proof. apply flat_map_app. Qed.

Lemma count_label_app (a b : list document) (c : Category) :
  count_label (a ++ b) c = (count_label a c + count_label b c)%N.
Proof. unfold count_label. rewrite List.filter_app, length_app. lia. Qed.

(** Relabelling a Negative document D as Positive and fitting again does
    not lower the Positive score of D's own text, on a valid corpus none of
    whose terms names a property of [Object.prototype]. *)
Lemma relabel_monotone_clean (this : model) (pre post : list document) (D : document) :
  let corpus := pre ++ D :: post in
  let corpus' := pre ++ mkDoc (text D) "Positive" :: post in
  label D = "Negative" → valid_corpus corpus → clean_corpus corpus →
  ∃ m m' before after,
    train this corpus = Done m ∧ train this corpus' = Done m'
    ∧ score_of (predict m (text D)) Positive = Some (Fin before)
    ∧ score_of (predict m' (text D)) Positive = Some (Fin after)
    ∧ before <= after.
Proof.
  intros corpus corpus' HD Hv Hc.
  set (D' := mkDoc (text D) "Positive") in *.
  set (ds := tokenize (Some (text D))).
  assert (HlD : has_label Positive D = false).
  { unfold has_label. rewrite HD. done. }
  assert (Hat : all_tokens corpus' = all_tokens corpus).
  { unfold corpus, corpus'. by rewrite !all_tokens_app. }
  assert (Hv' : valid_corpus corpus').
  { unfold valid_corpus, corpus, corpus' in *.
    rewrite Forall_app, Forall_cons in Hv. destruct Hv as (? & ? & ?).
    rewrite Forall_app, Forall_cons. repeat split; try done. by eexists. }
  assert (Hc' : clean_corpus corpus') by (unfold clean_corpus; by rewrite Hat).
  assert (Hsub : ∀ u, u ∈ ds → u ∈ all_tokens corpus).
  { intros u Hu. unfold corpus. rewrite all_tokens_app. apply elem_of_app. right.
    unfold all_tokens. simpl. apply elem_of_app. by left. }
  assert (Hds : Forall clean_token ds).
  { apply Forall_forall. intros u Hu. unfold clean_corpus in Hc.
    rewrite Forall_forall in Hc. by apply Hc, Hsub. }
  assert (Hne : vocab (fitted corpus) ≠ ∅ ∨ ds = []).
  { destruct ds as [|t ts] eqn:E; [by right |]. left. intros He.
    assert (Hin : t ∈ vocab (fitted corpus)).
    { cbn [vocab fitted]. apply elem_of_list_to_set, Hsub, elem_of_cons. by left. }
    rewrite He in Hin. by apply not_elem_of_empty in Hin. }
  assert (Hvoc : vocab (fitted corpus') = vocab (fitted corpus)).
  { cbn [vocab fitted]. by rewrite Hat. }
  assert (Hne' : vocab (fitted corpus') ≠ ∅ ∨ ds = []) by (by rewrite Hvoc).
  destruct (predict_score_clean this corpus (text D) Hv Hc Hds) as (m & Hm & Hs).
  destruct (predict_score_clean this corpus' (text D) Hv' Hc' Hds) as (m' & Hm' & Hs').
  rewrite train_valid in Hm, Hm' by done.
  injection Hm as <-. injection Hm' as <-.
  exists (fitted corpus), (fitted corpus'),
    (rprior (fitted corpus) Positive + rsum (rlik (fitted corpus) Positive) ds),
    (rprior (fitted corpus') Positive + rsum (rlik (fitted corpus') Positive) ds).
  split; [by apply train_valid |]. split; [by apply train_valid |].
  split; [rewrite Hs; fold ds; by rewrite spec_score_value |].
  split; [rewrite Hs'; fold ds; by rewrite spec_score_value |].
  (* the prior *)
  assert (Hprior : rprior (fitted corpus) Positive <= rprior (fitted corpus') Positive).
  { rewrite !fitted_rprior.
    assert (Hn : count_label corpus' Positive = (count_label corpus Positive + 1)%N).
    { unfold corpus, corpus'. rewrite !count_label_app, !count_label_cons, HlD.
      change (has_label Positive D') with true. cbv iota. lia. }
    assert (Hl : length corpus' = length corpus).
    { unfold corpus, corpus'. by rewrite !length_app. }
    rewrite Hn, Hl, N2Z.inj_add, plus_IZR.
    set (a := IZR (Z.of_N (count_label corpus Positive))).
    set (b := Rmax _ 1).
    assert (0 < b) by (pose proof (Rmax_r (IZR (Z.of_N (N.of_nat (length corpus)))) 1) as H; fold b in H; lra).
    assert (0 < Rmax a (1 / 10)) by (pose proof (Rmax_r a (1 / 10)); lra).
    assert (Rmax a (1 / 10) <= Rmax (a + IZR (Z.of_N 1)) (1 / 10)).
    { apply Rle_max_compat_r. simpl. lra. }
    apply ln_mono; [by apply Rdiv_lt_0_compat |].
    unfold Rdiv. apply Rmult_le_compat_r; [| done].
    left. by apply Rinv_0_lt_compat. }
  (* the likelihoods *)
  assert (Hlik : rsum (rlik (fitted corpus) Positive) ds
                 <= rsum (rlik (fitted corpus') Positive) ds).
  { set (tsP := tokens_in corpus Positive).
    set (ks := elements (vocab (fitted corpus))).
    assert (Hnd : NoDup ks) by apply NoDup_elements.
    assert (Hks : ∀ u, u ∈ all_tokens corpus → u ∈ ks).
    { intros u Hu. unfold ks. apply elem_of_elements. cbn [vocab fitted].
      by apply elem_of_list_to_set. }
    assert (HS : rsum (λ u, rocc u tsP + 1) ks = rlength tsP + rlength ks).
    { rewrite rsum_plus, rsum_const, rsum_rocc_keys; [lra | done |].
      intros u Hu. by apply Hks, (tokens_in_subset _ Positive). }
    assert (HtP : tokens_in corpus' Positive
                  = tokens_in pre Positive ++ ds ++ tokens_in post Positive).
    { unfold corpus'. rewrite tokens_in_app. unfold tokens_in at 2. simpl.
      change (has_label Positive D') with true. done. }
    assert (HtP0 : tsP = tokens_in pre Positive ++ tokens_in post Positive).
    { unfold tsP, corpus. rewrite tokens_in_app. unfold tokens_in at 2. simpl.
      by rewrite HlD. }
    rewrite (rsum_ext_in (rlik (fitted corpus) Positive)
               (λ u, ln ((rocc u tsP + 1) / rsum (λ u, rocc u tsP + 1) ks))).
    2:{ intros u _. rewrite fitted_rlik by done. by rewrite HS. }
    rewrite (rsum_ext_in (rlik (fitted corpus') Positive)
               (λ u, ln ((rocc u tsP + rocc u ds + 1)
                         / (rsum (λ u, rocc u tsP + 1) ks + rlength ds)))).
    2:{ intros u _. rewrite fitted_rlik by done. rewrite Hvoc. fold ks.
        rewrite HS, HtP, HtP0, !rocc_app, !rlength_app. f_equal. f_equal; lra. }
    apply (likelihood_gain (λ u, rocc u tsP)); [| done |].
    - intros u. apply rocc_nonneg.
    - intros u Hu. by apply Hks, Hsub. }
  lra.
Qed.

End Relabel.

(** ** The worked example of the specification *)

Section WorkedExample.
Import ScoreSpec.
Local Open Scope R_scope.

Lemma js_gt_fin_false (x y : R) : x <= y → js_gt (Fin x) (Fin y) = false.
Proof. intros H. simpl. destruct (Rlt_dec y x); [lra | done]. Qed.

(** [scores] always has exactly the three category names as keys. *)
Lemma predict_three_entries (m : model) (txt : string) :
  dom (p_scores (predict m txt)) = ({["Positive"; "Negative"; "Neutral"]} : gset string).
Proof. rewrite predict_unfold. cbn [p_scores]. rewrite !dom_insert_L. set_solver. Qed.

Let corpus : list document :=
  [mkDoc "great fast delivery" "Positive"; mkDoc "terrible slow service" "Negative"].

Ltac eval_counts :=
  repeat match goal with
  | |- context [Z.of_N ?n] =>
      lazymatch n with
      | N0 => fail
      | Npos _ => fail
      | _ => let v := eval vm_compute in n in
             replace n with v by (vm_compute; reflexivity)
      end
  | |- context [INR (size ?X)] =>
      let v := eval vm_compute in (size X) in
      replace (size X) with v by (vm_compute; reflexivity)
  end.

Lemma example_scores (c : Category) :
  logProb (fitted corpus) ["great"; "delivery"] c =
  Fin (match c with
       | Positive => ln (1 / 2) + (ln (2 / 9) + (ln (2 / 9) + 0))
       | Negative => ln (1 / 2) + (ln (1 / 9) + (ln (1 / 9) + 0))
       | Neutral => ln (1 / 10 / 2) + (ln (1 / 6) + (ln (1 / 6) + 0))
       end).
Proof.
  assert (Hc : clean_corpus corpus) by (repeat constructor).
  rewrite (logProb_spec _ _ _ (count_label corpus c));
    [| apply fitted_class_count | by apply fitted_counts_only | repeat constructor].
  rewrite spec_score_value.
  2:{ left. intros He.
      assert (Hin : "great" ∈ vocab (fitted corpus))
        by (apply (bool_decide_unpack _); vm_compute; exact I).
      rewrite He in Hin. by apply not_elem_of_empty in Hin. }
  f_equal. unfold rsum, rprior, rlik. cbn [fold_right].
  destruct c; cbn [cat_name]; eval_counts; simpl IZR; simpl INR.
  - rewrite Rmax_left, Rmax_left by lra.
    repeat f_equal; lra.
  - rewrite Rmax_left, Rmax_left by lra.
    repeat f_equal; lra.
  - rewrite Rmax_right, Rmax_left by lra.
    repeat f_equal; lra.
Qed.

(** Section 8 of the specification: fitted to one Positive document "great
    fast delivery" and one Negative document "terrible slow service",
    [predict("great delivery")] answers Positive. *)
Example predict_great_delivery :
  train constructor corpus = Done (fitted corpus)
  ∧ p_label (predict (fitted corpus) "great delivery") = Positive.
Proof.
  split; [apply train_valid; repeat constructor; by eexists |].
  rewrite predict_label.
  change (tokenize (Some "great delivery")) with ["great"; "delivery"].
  unfold select, categories. cbn [fold_left].
  rewrite !example_scores. cbn [snd].
  change (js_gt (Fin _) NInf) with true. cbn [snd].
  assert (H19 : ln (1 / 9) < ln (2 / 9)) by (apply ln_increasing; lra).
  assert (H16 : ln (1 / 6) < ln (2 / 9)) by (apply ln_increasing; lra).
  assert (H12 : ln (1 / 10 / 2) < ln (1 / 2)) by (apply ln_increasing; lra).
  rewrite js_gt_fin_false by lra. cbn [snd].
  rewrite js_gt_fin_false by lra. done.
Qed.

End WorkedExample.

(** * Further properties of the classifier *)

(** ** More on the tokenizer *)

Section TokenizerMore.
Import Chars TokenSpec Text.

(** [tokenize] through the words of the normalised text. *)
Lemma tokenize_words (text : option string) :
  tokenize text =
  List.filter long (words (strip_non_word (toLowerCase (default EmptyString text)))).
Proof.
  destruct text as [[|c s]|]; [reflexivity | | reflexivity].
  unfold tokenize. simpl default. apply split_ws_words.
Qed.

Ltac by_ascii_cases c :=
  destruct c as [[] [] [] [] [] [] [] []]; vm_compute;
  try reflexivity; try discriminate; intuition discriminate.

Lemma lower_idem (c : ascii) : lower (lower c) = lower c.
Proof. by_ascii_cases c. Qed.

Lemma keep_lower (c : ascii) :
  is_word (lower c) || is_space (lower c) = is_word c || is_space c.
Proof. by_ascii_cases c. Qed.

Lemma lower_space (c : ascii) : is_space c = true → lower c = c.
Proof. by_ascii_cases c. Qed.

Lemma word_lower_token_char (c : ascii) :
  is_word (lower c) = true → is_token_char (lower c) = true.
Proof. by_ascii_cases c. Qed.

Lemma token_char_fixed (c : ascii) :
  is_token_char c = true → lower c = c ∧ is_word c = true ∧ is_space c = false.
Proof. by_ascii_cases c. Qed.

Lemma word_or_space (c : ascii) :
  is_word c || is_space c = true → is_space c = false → is_word c = true.
Proof. by destruct (is_word c), (is_space c). Qed.

End TokenizerMore.

Section Pieces.
Import Chars TokenSpec Text.

Lemma chars_app (a b : string) : chars (a +:+ b) = (chars a ++ chars b)%list.
Proof. induction a as [|c a IH]; [done |]. rewrite sapp_cons. simpl. by rewrite IH. Qed.

Lemma normalise_cons (c : ascii) (s : string) :
  normalise (String c s) =
  if is_word (lower c) || is_space (lower c)
  then String (lower c) (normalise s) else normalise s.
Proof. done. Qed.

Lemma normalise_app (a b : string) : normalise (a +:+ b) = normalise a +:+ normalise b.
Proof.
  induction a as [|c a IH]; [done |].
  rewrite sapp_cons, !normalise_cons, IH.
  by destruct (is_word (lower c) || is_space (lower c)).
Qed.

Lemma normalise_space (c : ascii) (s : string) :
  is_space c = true → normalise (String c s) = String c (normalise s).
Proof.
  intros Hc. rewrite normalise_cons, (lower_space c Hc), Hc.
  by rewrite orb_true_r.
Qed.

Lemma pieces_space (c : ascii) (s : string) :
  is_space c = true → pieces (String c s) = EmptyString :: pieces s.
Proof. intros Hc. simpl. by rewrite Hc. Qed.

Lemma pieces_char (c : ascii) (s : string) (p : string) (ps : list string) :
  is_space c = false → pieces s = p :: ps → pieces (String c s) = String c p :: ps.
Proof. intros Hc Hp. simpl. by rewrite Hc, Hp. Qed.

Lemma pieces_app (a b : string) (c : ascii) :
  is_space c = true → pieces (a +:+ String c b) = (pieces a ++ pieces b)%list.
Proof.
  intros Hc. induction a as [|x a IH].
  - change (EmptyString +:+ String c b) with (String c b). by rewrite pieces_space.
  - rewrite sapp_cons. destruct (is_space x) eqn:Hx.
    + rewrite !pieces_space, IH by done. done.
    + destruct (pieces_cons a) as (p & ps & Hp).
      rewrite (pieces_char x a p ps Hx Hp).
      rewrite (pieces_char x _ p (ps ++ pieces b) Hx); [done |].
      by rewrite IH, Hp.
Qed.

Lemma words_app (a b : string) (c : ascii) :
  is_space c = true → words (a +:+ String c b) = (words a ++ words b)%list.
Proof. intros Hc. unfold words. by rewrite pieces_app, List.filter_app. Qed.

(** A string without white space is one piece. *)
Lemma pieces_no_space (w : string) :
  Forall (λ c, is_space c = false) (chars w) → pieces w = [w].
Proof.
  induction w as [|c w IH]; intros H; [done |].
  simpl in H. apply Forall_cons in H as [Hc Hw].
  by rewrite (pieces_char c w w [] Hc (IH Hw)).
Qed.

(** The characters of a piece are characters of the text, none a space. *)
Lemma pieces_chars (s : string) :
  ∀ w, w ∈ pieces s →
    Forall (λ c, c ∈ chars s ∧ is_space c = false) (chars w).
Proof.
  induction s as [|c s IH]; intros w Hw.
  - simpl in Hw. apply list_elem_of_singleton in Hw as ->. constructor.
  - destruct (is_space c) eqn:Hc.
    + rewrite pieces_space in Hw by done. apply elem_of_cons in Hw as [->|Hw].
      * constructor.
      * eapply Forall_impl; [by apply IH |].
        intros x [Hx ?]. split; [| done]. simpl. apply elem_of_cons. by right.
    + destruct (pieces_cons s) as (p & ps & Hp).
      rewrite (pieces_char c s p ps Hc Hp) in Hw.
      assert (Hin : ∀ v, v ∈ p :: ps →
                Forall (λ x, x ∈ chars (String c s) ∧ is_space x = false) (chars v)).
      { intros v Hv. rewrite <- Hp in Hv. eapply Forall_impl; [by apply IH |].
        intros x [Hx ?]. split; [| done]. simpl. apply elem_of_cons. by right. }
      apply elem_of_cons in Hw as [->|Hw].
      * simpl. constructor.
        -- split; [| done]. apply elem_of_cons. by left.
        -- apply Hin. apply elem_of_cons. by left.
      * apply Hin. apply elem_of_cons. by right.
Qed.

Lemma normalise_chars (s : string) :
  Forall (λ c, ∃ c0, c = lower c0 ∧ is_word c || is_space c = true)
         (chars (normalise s)).
Proof.
  induction s as [|c s IH]; [constructor |].
  rewrite normalise_cons.
  destruct (is_word (lower c) || is_space (lower c)) eqn:Hk; [| done].
  simpl. constructor; [by exists c | done].
Qed.

End Pieces.

(** On Latin-1 text every token has at least three characters, all of them
    lower-case ASCII letters, digits or underscores. *)
Lemma tokenize_token_ok (text : option string) (w : string) :
  w ∈ tokenize text → token_ok w.
Proof.
  rewrite tokenize_words. intros Hw.
  apply list_elem_of_In, filter_In in Hw as [Hw Hlong].
  apply filter_In in Hw as [Hw _]. apply list_elem_of_In in Hw.
  split.
  - unfold TokenSpec.long in Hlong. apply Nat.ltb_lt in Hlong. lia.
  - pose proof (pieces_chars _ _ Hw) as Hc.
    pose proof (normalise_chars (default EmptyString text)) as Hn.
    rewrite Forall_forall in Hc, Hn. apply Forall_forall. intros c Hin.
    destruct (Hc c Hin) as [Hcs Hsp].
    destruct (Hn c Hcs) as (c0 & -> & Hk).
    apply word_lower_token_char. by apply word_or_space.
Qed.

Section TokensUtf16.
Local Close Scope string_scope.

(** Every piece of a split is made of code units of the text that are no
    white space, and of the piece under way. *)
Lemma split_from16_units (Q : N → Prop) (s : list N) :
  Forall (λ u, Utf16.is_space u = false → Q u) s →
  ∀ in_sep cur, Forall Q cur →
    Forall (Forall Q) (Utf16.split_from in_sep cur s).
Proof.
  induction 1 as [|u r Hu Hr IH]; intros in_sep cur Hcur; simpl.
  - by constructor.
  - destruct (Utf16.is_space u) eqn:Hs.
    + destruct in_sep; [by apply IH |]. constructor; [done |]. by apply IH.
    + apply IH. apply Forall_app. split; [done |]. constructor; [by apply Hu | done].
Qed.

Lemma strip16_Forall (s : list N) :
  Forall (λ u, Utf16.is_space u = false → Utf16.is_word u = true)
         (Utf16.strip_non_word s).
Proof.
  unfold Utf16.strip_non_word. induction s as [|u r IH]; simpl; [done |].
  destruct (Utf16.is_word u || Utf16.is_space u) eqn:Hk; [| done].
  constructor; [| done]. intros Hs. by rewrite Hs, orb_false_r in Hk.
Qed.

Lemma strip16_sub (P : N → Prop) (s : list N) :
  Forall P s → Forall P (Utf16.strip_non_word s).
Proof.
  unfold Utf16.strip_non_word. induction 1 as [|u r Hu Hr IH]; simpl; [done |].
  destruct (Utf16.is_word u || Utf16.is_space u); [by constructor | done].
Qed.

Lemma word_not_upper (u : N) :
  Utf16.is_word u = true → Utf16.between 65 90 u = false → is_token_unit u = true.
Proof. unfold Utf16.is_word, is_token_unit. intros H Hu. by rewrite Hu in H. Qed.

Lemma tokenize16_elem (toLowerCase : list N → list N) (text : option (list N))
    (w : list N) :
  w ∈ Utf16.tokenize toLowerCase text →
  ∃ s, (3 <= length w)%nat
       ∧ w ∈ Utf16.split_ws (Utf16.strip_non_word (toLowerCase s)).
Proof.
  destruct text as [[|u s]|]; simpl; [by intros ?%elem_of_nil | | by intros ?%elem_of_nil].
  intros Hw. exists (u :: s).
  apply list_elem_of_In, filter_In in Hw as [Hw Hlong].
  apply Nat.ltb_lt in Hlong. split; [lia |]. by apply list_elem_of_In.
Qed.

Lemma lower_latin1_no_upper (x : list N) :
  Forall (λ u, Utf16.between 65 90 u = false) (Utf16.lower_latin1 x).
Proof.
  unfold Utf16.lower_latin1. apply Forall_forall. intros v Hv.
  apply list_elem_of_fmap in Hv as (u & -> & _).
  unfold Utf16.between.
  destruct ((65 <=? u)%N && (u <=? 90)%N) eqn:E1; simpl.
  - apply andb_true_iff in E1 as [H1 H2].
    apply N.leb_le in H1, H2. apply andb_false_iff. right. apply N.leb_gt. lia.
  - destruct (((192 <=? u)%N && (u <=? 222)%N) && negb (u =? 215)%N) eqn:E2; [| done].
    apply andb_true_iff in E2 as [E2 _]. apply andb_true_iff in E2 as [H1 H2].
    apply N.leb_le in H1, H2. apply andb_false_iff. right. apply N.leb_gt. lia.
Qed.

End TokensUtf16.

(** X1: for every text, a sequence of UTF-16 code units, and whatever the
    table of the runtime's [toLowerCase], every token [tokenize] returns has
    at least three code units, each an ASCII letter, an ASCII digit or the
    underscore; if [toLowerCase] returns no code unit of [A-Z], as the
    language's does, each is in [a-z0-9_]. *)
Theorem tokenize_tokens_wellformed (toLowerCase : list N → list N)
    (text : option (list N)) (w : list N) :
  w ∈ Utf16.tokenize toLowerCase text →
  (3 <= length w)%nat
  ∧ Forall (λ u, Utf16.is_word u = true) w
  ∧ ((∀ x, Forall (λ u, Utf16.between 65 90 u = false) (toLowerCase x)) →
     Forall (λ u, is_token_unit u = true) w).
Proof.
  intros Hw. apply tokenize16_elem in Hw as (s & Hlen & Hw).
  split; [exact Hlen |]. unfold Utf16.split_ws in Hw. split.
  - pose proof (split_from16_units (λ u, Utf16.is_word u = true) _
                  (strip16_Forall (toLowerCase s)) false [] (Forall_nil_2 _)) as H.
    rewrite Forall_forall in H. by apply H.
  - intros Hup.
    assert (Hs : Forall (λ u, Utf16.is_space u = false → is_token_unit u = true)
                   (Utf16.strip_non_word (toLowerCase s))).
    { pose proof (strip16_Forall (toLowerCase s)) as H1.
      pose proof (strip16_sub _ _ (Hup s)) as H2.
      rewrite Forall_forall in H1, H2. apply Forall_forall. intros u Hu Hsp.
      apply word_not_upper; [by apply H1 | by apply H2]. }
    pose proof (split_from16_units (λ u, is_token_unit u = true) _ Hs false []
                  (Forall_nil_2 _)) as H.
    rewrite Forall_forall in H. by apply H.
Qed.

(** The token "great" of "Great", an em space, "Value!". *)
Lemma tokenize_tokens_wellformed_witness :
  (3 <= length [103; 114; 101; 97; 116]%N)%nat
  ∧ Forall (λ u, is_token_unit u = true) [103; 114; 101; 97; 116]%N.
Proof.
  destruct (tokenize_tokens_wellformed Utf16.lower_latin1
              (Some [71; 114; 101; 97; 116; 8195; 86; 97; 108; 117; 101; 33]%N)
              [103; 114; 101; 97; 116]%N) as (H1 & _ & H3).
  - apply elem_of_cons. left. reflexivity.
  - split; [exact H1 |]. apply H3. apply lower_latin1_no_upper.
Defined.

Section TokenizerCompose.
Import Chars TokenSpec Text.

Lemma tokenize_normalise (text : option string) :
  tokenize text = List.filter long (words (normalise (default EmptyString text))).
Proof. apply tokenize_words. Qed.

(** Texts joined by a white-space character tokenize to the two token
    lists, one after the other. *)
Lemma tokenize_app (a b : string) (c : ascii) :
  is_space c = true →
  tokenize (Some (a +:+ String c b)) = (tokenize (Some a) ++ tokenize (Some b))%list.
Proof.
  intros Hc. rewrite !tokenize_normalise. simpl default.
  rewrite normalise_app, normalise_space, words_app, List.filter_app by done.
  done.
Qed.

Lemma normalise_token (w : string) :
  Forall (λ c, is_token_char c = true) (chars w) → normalise w = w.
Proof.
  induction w as [|c w IH]; intros H; [done |].
  simpl in H. apply Forall_cons in H as [Hc Hw].
  destruct (token_char_fixed c Hc) as (Hl & Hword & _).
  rewrite normalise_cons, Hl, Hword, IH by done. done.
Qed.

(** A well-formed token is its own tokenization. *)
Lemma tokenize_token (w : string) : token_ok w → tokenize (Some w) = [w].
Proof.
  intros [Hlen Hc]. rewrite tokenize_normalise. simpl default.
  rewrite normalise_token by done. unfold words.
  rewrite pieces_no_space.
  - simpl. destruct w as [|c w]; [simpl in Hlen; lia |]. simpl.
    unfold long. destruct (2 <? String.length (String c w))%nat eqn:E; [done |].
    apply Nat.ltb_ge in E. lia.
  - eapply Forall_impl; [exact Hc |]. intros c Hx.
    by destruct (token_char_fixed c Hx) as (_ & _ & ?).
Qed.

Lemma tokenize_join (ts : list string) :
  Forall token_ok ts → tokenize (Some (join " " ts)) = ts.
Proof.
  induction 1 as [|w ts Hw Hts IH]; [done |].
  destruct ts as [|u ts]; [by apply tokenize_token |].
  change (join " " (w :: u :: ts)) with (w +:+ String " "%char (join " " (u :: ts))).
  rewrite tokenize_app by done. by rewrite tokenize_token, IH.
Qed.

End TokenizerCompose.

(** X2: for a text in the Latin-1 block (every code unit at most U+00FF),
    tokenizing its tokens, joined by single spaces, gives the same tokens
    again. *)
Theorem tokenize_join_tokens (text : option string) :
  tokenize (Some (Text.join " " (tokenize text))) = tokenize text.
Proof.
  apply tokenize_join. apply Forall_forall. intros w Hw.
  rewrite tokenize_words in Hw.
  apply list_elem_of_In, filter_In in Hw as [Hw Hlong].
  apply filter_In in Hw as [Hw _]. apply list_elem_of_In in Hw.
  split.
  - unfold TokenSpec.long in Hlong. apply Nat.ltb_lt in Hlong. lia.
  - pose proof (pieces_chars _ _ Hw) as Hc.
    pose proof (normalise_chars (default EmptyString text)) as Hn.
    rewrite Forall_forall in Hc, Hn. apply Forall_forall. intros c Hin.
    destruct (Hc c Hin) as [Hcs Hsp].
    destruct (Hn c Hcs) as (c0 & -> & Hk).
    apply word_lower_token_char. by apply word_or_space.
Qed.

(** X3: for two texts in the Latin-1 block (every code unit at most
    U+00FF) joined by a white-space character of that block, the tokens are
    the tokens of the first followed by the tokens of the second. *)
Theorem tokenize_concat (a b : string) (c : ascii) :
  Chars.is_space c = true →
  tokenize (Some (a +:+ String c b)) = (tokenize (Some a) ++ tokenize (Some b))%list.
Proof. apply tokenize_app. Qed.

Lemma tokenize_concat_witness :
  tokenize (Some ("Great app" +:+ String " "%char "fast delivery"))
  = (tokenize (Some "Great app") ++ tokenize (Some "fast delivery"))%list.
Proof. apply (tokenize_concat "Great app" "fast delivery" " "%char). reflexivity. Defined.

Section TokenizerNormal.
Import Chars TokenSpec Text.

Lemma normalise_idem (s : string) : normalise (normalise s) = normalise s.
Proof.
  induction s as [|c s IH]; [done |].
  rewrite normalise_cons.
  destruct (is_word (lower c) || is_space (lower c)) eqn:Hk; [| done].
  rewrite normalise_cons, lower_idem, Hk, IH. done.
Qed.

Lemma predict_tokens (m : model) (s s' : string) :
  tokenize (Some s) = tokenize (Some s') → predict m s = predict m s'.
Proof. intros H. unfold predict. by rewrite H. Qed.

(** Trailing empty pieces do not change the words. *)
Lemma words_of_pieces_padded (l : list string) (k : nat) :
  List.filter nonempty (l ++ replicate k EmptyString) = List.filter nonempty l.
Proof.
  rewrite List.filter_app.
  assert (List.filter nonempty (replicate k EmptyString) = []) as ->.
  { induction k as [|k IH]; [done | exact IH]. }
  by rewrite app_nil_r.
Qed.

Lemma pieces_cons_padded (c : ascii) (a b : string) (k : nat) :
  pieces b = (pieces a ++ replicate k EmptyString)%list →
  pieces (String c b) = (pieces (String c a) ++ replicate k EmptyString)%list.
Proof.
  intros H. destruct (is_space c) eqn:Hc.
  - rewrite !pieces_space by done. by rewrite H.
  - destruct (pieces_cons a) as (p & ps & Hp). rewrite Hp in H.
    rewrite (pieces_char c a p ps Hc Hp).
    by rewrite (pieces_char c b p (ps ++ replicate k EmptyString) Hc H).
Qed.

Lemma normalise_pieces_cons_padded (c : ascii) (a b : string) (k : nat) :
  pieces (normalise b) = (pieces (normalise a) ++ replicate k EmptyString)%list →
  pieces (normalise (String c b))
  = (pieces (normalise (String c a)) ++ replicate k EmptyString)%list.
Proof.
  intros H. rewrite !normalise_cons.
  destruct (is_word (lower c) || is_space (lower c)); [| done].
  by apply pieces_cons_padded.
Qed.

(** Removing white space at the end only removes empty pieces at the end. *)
Lemma trim_end_pieces (s : string) :
  ∃ k, pieces (normalise s)
       = (pieces (normalise (trim_end s)) ++ replicate k EmptyString)%list.
Proof.
  induction s as [|c s [k IH]]; [by exists 0%nat |].
  pose proof (normalise_pieces_cons_padded c _ _ k IH) as Hc.
  simpl trim_end. destruct (trim_end s) as [|c' r'] eqn:Ht.
  - destruct (is_space c) eqn:Hs.
    + exists (S k). rewrite Hc, normalise_space by done.
      rewrite pieces_space by done. done.
    + by exists k.
  - by exists k.
Qed.

Lemma trim_start_pieces (s : string) :
  List.filter nonempty (pieces (normalise (trim_start s)))
  = List.filter nonempty (pieces (normalise s)).
Proof.
  induction s as [|c s IH]; [done |].
  simpl trim_start. destruct (is_space c) eqn:Hc; [| done].
  rewrite IH, normalise_space, pieces_space by done. done.
Qed.

Lemma tokenize_trim (s : string) : tokenize (Some (trim s)) = tokenize (Some s).
Proof.
  rewrite !tokenize_normalise. simpl default. unfold words, trim. f_equal.
  destruct (trim_end_pieces (trim_start s)) as [k Hk].
  rewrite <- (trim_start_pieces s), Hk. by rewrite words_of_pieces_padded.
Qed.

Lemma normalise_lower (s : string) : normalise (toLowerCase s) = normalise s.
Proof.
  induction s as [|c s IH]; [done |].
  change (toLowerCase (String c s)) with (String (lower c) (toLowerCase s)).
  rewrite !normalise_cons, lower_idem, IH. done.
Qed.

Lemma normalise_strip (s : string) : normalise (strip_non_word s) = normalise s.
Proof.
  induction s as [|c s IH]; [done |].
  rewrite normalise_cons.
  change (strip_non_word (String c s))
    with (if is_word c || is_space c
          then String c (strip_non_word s) else strip_non_word s).
  rewrite keep_lower.
  destruct (is_word c || is_space c) eqn:Hk; [| exact IH].
  rewrite normalise_cons, keep_lower, Hk, IH. done.
Qed.

End TokenizerNormal.

(** X4: a text in the Latin-1 block (every code unit at most U+00FF) and
    its normal form (lower-cased, without the characters outside [\w] and
    [\s]) have the same tokens, and so the same prediction on every model:
    on such text [predict] ignores letter case and punctuation. *)
Theorem predict_ignores_case_and_punctuation (m : model) (s : string) :
  normalise (Chars.toLowerCase s) = normalise s
  ∧ normalise (Chars.strip_non_word s) = normalise s
  ∧ tokenize (Some (normalise s)) = tokenize (Some s)
  ∧ predict m (normalise s) = predict m s.
Proof.
  pose proof (normalise_lower s) as Hl.
  pose proof (normalise_strip s) as Hs.
  assert (Ht : tokenize (Some (normalise s)) = tokenize (Some s)).
  { rewrite !tokenize_normalise. simpl default. by rewrite normalise_idem. }
  split; [done |]. split; [done |]. split; [done |].
  by apply predict_tokens.
Qed.

(** X5: for a text in the Latin-1 block (every code unit at most U+00FF),
    white space at its ends changes neither its tokens nor its
    prediction. *)
Theorem predict_ignores_outer_space (m : model) (s : string) :
  tokenize (Some (Text.trim s)) = tokenize (Some s)
  ∧ predict m (Text.trim s) = predict m s.
Proof.
  split; [apply tokenize_trim |]. apply predict_tokens, tokenize_trim.
Qed.

(** ** More on predict *)

Section Argmax.

Lemma js_gt_below (a x : jsnum) : js_gt a NInf = false → js_gt a x = false.
Proof. destruct a, x; simpl; done. Qed.

Lemma js_gt_chain (a b b' : jsnum) :
  js_gt a b = false → js_gt b' b = true → js_gt a b' = false.
Proof.
  destruct a, b, b'; simpl; try done.
  destruct (Rlt_dec r0 r), (Rlt_dec r0 r1), (Rlt_dec r1 r); try done.
  exfalso. lra.
Qed.

(** No score is strictly greater than the score of the selected category. *)
Lemma select_max (s : Category → jsnum) (c : Category) :
  js_gt (s c) (s (select s).1) = false.
Proof.
  unfold select, categories. cbn [fold_left snd].
  destruct (js_gt (s Positive) NInf) eqn:Hp; cbn [snd];
    destruct (js_gt (s Negative) _) eqn:Hn; cbn [snd fst];
    destruct (js_gt (s Neutral) _) eqn:Hu; cbn [snd fst];
    destruct c;
    eauto using js_gt_irrefl, js_gt_asym, js_gt_chain, js_gt_below.
Qed.

End Argmax.

(** X6: in every prediction, no category's score is strictly greater than
    the score of the returned label. *)
Theorem predict_label_is_maximal (m : model) (txt : string) (c : Category) (a b : jsnum) :
  score_of (predict m txt) c = Some a →
  score_of (predict m txt) (p_label (predict m txt)) = Some b →
  js_gt a b = false.
Proof.
  rewrite !predict_score, predict_label. intros [= <-] [= <-]. apply select_max.
Qed.

Lemma predict_label_is_maximal_witness :
  js_gt (Fin (ln (1 / 10 / 1))) (Fin (ln (1 / 10 / 1))) = false.
Proof.
  apply (predict_label_is_maximal constructor "" Negative).
  - rewrite predict_score. f_equal. apply prior_empty.
  - rewrite predict_score. f_equal. apply prior_empty.
Defined.

Section Majority.
Import ScoreSpec.
Local Open Scope R_scope.

Lemma rprior_le_count (docs : list document) (c c' : Category) :
  rprior (fitted docs) c <= rprior (fitted docs) c' →
  (count_label docs c <= count_label docs c')%N.
Proof.
  rewrite !fitted_rprior.
  set (b := Rmax (IZR (Z.of_N (N.of_nat (length docs)))) 1).
  set (n := count_label docs c). set (n' := count_label docs c').
  assert (Hb : 0 < b) by (pose proof (Rmax_r (IZR (Z.of_N (N.of_nat (length docs)))) 1) as H; fold b in H; lra).
  intros Hle.
  destruct (decide (n = 0%N)) as [->|Hn]; [lia |].
  assert (H1 : 1 <= IZR (Z.of_N n)) by (apply IZR_le; lia).
  assert (Ha : Rmax (IZR (Z.of_N n)) (1 / 10) = IZR (Z.of_N n)) by (apply Rmax_left; lra).
  assert (Hpos' : 0 < Rmax (IZR (Z.of_N n')) (1 / 10))
    by (pose proof (Rmax_r (IZR (Z.of_N n')) (1 / 10)); lra).
  assert (Hmax : Rmax (IZR (Z.of_N n)) (1 / 10) <= Rmax (IZR (Z.of_N n')) (1 / 10)).
  { destruct (Rle_dec (Rmax (IZR (Z.of_N n)) (1 / 10)) (Rmax (IZR (Z.of_N n')) (1 / 10)))
      as [H|H]; [done |].
    exfalso. apply Rnot_le_lt in H.
    assert (ln (Rmax (IZR (Z.of_N n')) (1 / 10) / b) < ln (Rmax (IZR (Z.of_N n)) (1 / 10) / b)).
    { apply ln_increasing; [by apply Rdiv_lt_0_compat |].
      unfold Rdiv. apply Rmult_lt_compat_r; [by apply Rinv_0_lt_compat | done]. }
    lra. }
  rewrite Ha in Hmax.
  destruct (decide (n' = 0%N)) as [E|Hn'].
  - rewrite E in Hmax. simpl in Hmax. rewrite Rmax_right in Hmax by lra. lra.
  - assert (1 <= IZR (Z.of_N n')) by (apply IZR_le; lia).
    rewrite Rmax_left in Hmax by lra.
    apply le_IZR in Hmax. lia.
Qed.

Lemma logProb_no_tokens (docs : list document) (c : Category) :
  logProb (fitted docs) [] c = Fin (rprior (fitted docs) c).
Proof.
  unfold logProb. simpl.
  rewrite (prior_spec _ _ (count_label docs c)) by apply fitted_class_count.
  apply spec_prior_value.
Qed.

End Majority.

(** X7: on the fit of a valid corpus, a text without tokens (empty, or made
    of words shorter than three characters) is given a category that no
    other category exceeds in number of documents. *)
Theorem predict_no_tokens_majority (this : model) (docs : list document) (txt : string) :
  valid_corpus docs → tokenize (Some txt) = [] →
  ∃ m, train this docs = Done m
       ∧ ∀ c, (count_label docs c <= count_label docs (p_label (predict m txt)))%N.
Proof.
  intros Hv Ht. exists (fitted docs). split; [by apply train_valid |].
  intros c. apply rprior_le_count.
  pose proof (select_max (logProb (fitted docs) (tokenize (Some txt))) c) as H.
  rewrite <- predict_label in H. rewrite Ht in H.
  rewrite !logProb_no_tokens in H. simpl in H.
  destruct (Rlt_dec _ _) as [Hlt|Hge] in H; [done |]. lra.
Qed.

Lemma predict_no_tokens_majority_witness :
  ∃ m, train constructor [mkDoc "great fast delivery" "Positive";
                          mkDoc "terrible slow service" "Negative";
                          mkDoc "awful broken thing" "Negative"] = Done m
       ∧ (count_label [mkDoc "great fast delivery" "Positive";
                       mkDoc "terrible slow service" "Negative";
                       mkDoc "awful broken thing" "Negative"] Positive
          <= count_label [mkDoc "great fast delivery" "Positive";
                          mkDoc "terrible slow service" "Negative";
                          mkDoc "awful broken thing" "Negative"]
               (p_label (predict m "ok")))%N.
Proof.
  destruct (predict_no_tokens_majority constructor
              [mkDoc "great fast delivery" "Positive";
               mkDoc "terrible slow service" "Negative";
               mkDoc "awful broken thing" "Negative"] "ok") as (m & Hm & H).
  - repeat constructor; by eexists.
  - reflexivity.
  - exists m. split; [exact Hm | apply H].
Defined.

(** ** More on train *)

Section TrainGeneral.

Lemma step_facts (m : model) (d : document) :
  completes d = true →
  totalDocs (step m d) = (totalDocs m + 1)%N
  ∧ vocab (step m d) = list_to_set (doc_tokens d) ∪ vocab m
  ∧ ∀ c n, classCounts m !! cat_name c = Some (VInt n) →
      classCounts (step m d) !! cat_name c
      = Some (VInt (n + if has_label c d then 1 else 0)).
Proof.
  intros Hc. unfold step, completes, wordCounts_slot, has_label in *.
  destruct (category_of (label d)) as [k|] eqn:Hk.
  - apply category_of_Some in Hk as Hl.
    split; [by destruct k |]. split; [by destruct k |].
    intros c n Hn.
    assert (classCounts (set_wordCounts
              (mkModel (wcPositive m) (wcNegative m) (wcNeutral m)
                 (set_prop (classCounts m) (label d)
                    (incr (get_prop (classCounts m) (label d))))
                 (list_to_set (doc_tokens d) ∪ vocab m) (totalDocs m + 1)) k
              (bump_all (wordCounts m k) (doc_tokens d)))
            = set_prop (classCounts m) (label d)
                (incr (get_prop (classCounts m) (label d)))) as -> by (by destruct k).
    rewrite Hl. unfold set_prop, get_prop.
    rewrite bool_decide_eq_false_2 by (by destruct k).
    destruct (decide (k = c)) as [->|Hne].
    + rewrite lookup_insert_eq, Hn. simpl. by rewrite bool_decide_eq_true_2.
    + rewrite lookup_insert_ne by (intros E; by apply cat_name_inj in E).
      rewrite Hn, bool_decide_eq_false_2 by congruence. f_equal. f_equal. lia.
  - assert (Ht : doc_tokens d = []).
    { destruct (is_proto_key (label d)); by destruct (doc_tokens d). }
    simpl. split; [done |]. split; [rewrite Ht; set_solver |].
    intros c n Hn. rewrite ?bool_decide_eq_false_2 by done.
    unfold set_prop. case_bool_decide; [rewrite Hn; f_equal; f_equal; lia |].
    rewrite lookup_insert_ne.
    + rewrite Hn. f_equal. f_equal. lia.
    + intros E. rewrite E, category_of_name in Hk. done.
Qed.

Lemma add_docs_done_facts (docs : list document) :
  ∀ m m', add_docs m docs = Done m' →
    totalDocs m' = (totalDocs m + N.of_nat (length docs))%N
    ∧ vocab m' = list_to_set (all_tokens docs) ∪ vocab m
    ∧ ∀ c n, classCounts m !! cat_name c = Some (VInt n) →
        classCounts m' !! cat_name c = Some (VInt (n + count_label docs c)).
Proof.
  induction docs as [|d docs IH]; intros m m'; simpl.
  - intros [= <-]. split; [lia |]. split; [set_solver |].
    intros c n Hn. rewrite Hn. unfold count_label. simpl. f_equal. f_equal. lia.
  - destruct (add_doc m d) as [m1| |] eqn:Hd; simpl; try done.
    apply add_doc_done in Hd as [Hc ->]. intros H.
    destruct (IH _ _ H) as (Ht & Hv & Hcc).
    destruct (step_facts m d Hc) as (Ht1 & Hv1 & Hcc1).
    split; [lia |]. split.
    + rewrite Hv, Hv1. unfold all_tokens. simpl.
      rewrite list_to_set_app_L. set_solver.
    + intros c n Hn. rewrite (Hcc c _ (Hcc1 c n Hn)), count_label_cons.
      f_equal. f_equal. destruct (has_label c d); lia.
Qed.

End TrainGeneral.

(** X8: whenever [train] completes, on any corpus, the model counts every
    document, its vocabulary is exactly the set of tokens of the texts, and
    each category count is the number of documents carrying that label. *)
Theorem train_done_statistics (this m : model) (docs : list document) :
  train this docs = Done m →
  totalDocs m = N.of_nat (length docs)
  ∧ vocab m = list_to_set (all_tokens docs)
  ∧ ∀ c, classCounts m !! cat_name c = Some (VInt (count_label docs c)).
Proof.
  unfold train. intros H.
  destruct (add_docs_done_facts docs _ _ H) as (Ht & Hv & Hc).
  split; [simpl in Ht; lia |]. split; [rewrite Hv; set_solver |].
  intros c. rewrite (Hc c 0%N); [f_equal; f_equal; lia | by destruct c].
Qed.

Lemma train_done_statistics_witness :
  vocab (fitted [mkDoc "ok" "Neutral"; mkDoc "fast delivery" "Positive"])
  = list_to_set (all_tokens [mkDoc "ok" "Neutral"; mkDoc "fast delivery" "Positive"]).
Proof.
  apply (train_done_statistics constructor _
           [mkDoc "ok" "Neutral"; mkDoc "fast delivery" "Positive"]).
  apply train_valid. repeat constructor; by eexists.
Defined.

(** ** Corpora without prototype-named terms *)

(** X9: after the fit of a valid corpus none of whose terms names a
    property of [Object.prototype], the frequency stored for a term in a
    category is the number of its occurrences in the documents of that
    category, and the keys of the category are exactly the terms that occur
    there. *)
Theorem fit_frequencies_are_occurrences (this : model) (docs : list document) :
  valid_corpus docs → clean_corpus docs →
  ∃ m, train this docs = Done m
       ∧ ∀ c t, ScoreSpec.stored_count (wordCounts m c) t = occ t (tokens_in docs c)
                ∧ (t ∈ dom (wordCounts m c) ↔ t ∈ tokens_in docs c).
Proof.
  intros Hv Hc. exists (fitted docs). split; [by apply train_valid |].
  intros c t. rewrite wordCounts_fitted.
  destruct (bump_all_clean _ (tokens_in_clean docs c Hc) ∅ counts_only_empty)
    as (_ & Hs & _ & Hd).
  split.
  - rewrite Hs. unfold ScoreSpec.stored_count. rewrite lookup_empty. lia.
  - rewrite Hd, dom_empty_L. set_solver.
Qed.

Lemma fit_frequencies_are_occurrences_witness :
  ∃ m, train constructor [mkDoc "great great delivery" "Positive"] = Done m
       ∧ ScoreSpec.stored_count (wordCounts m Positive) "great"
         = occ "great" (tokens_in [mkDoc "great great delivery" "Positive"] Positive).
Proof.
  destruct (fit_frequencies_are_occurrences constructor
              [mkDoc "great great delivery" "Positive"]) as (m & Hm & H).
  - repeat constructor; by eexists.
  - repeat constructor.
  - exists m. split; [exact Hm | apply H].
Defined.

(** X10: after the fit of such a corpus the invariant of the data model
    holds: the category counts add up to the total, every stored frequency
    is a number, and the vocabulary is the union of the key sets. *)
Theorem fit_invariant_on_clean_corpus (this : model) (docs : list document) :
  valid_corpus docs → clean_corpus docs →
  ∃ m, train this docs = Done m
       ∧ counts_add_up m ∧ frequencies_are_counts m ∧ vocab_is_union_of_keys m.
Proof. apply fitted_invariant_clean. Qed.

Lemma fit_invariant_on_clean_corpus_witness :
  ∃ m, train constructor [mkDoc "great fast delivery" "Positive";
                          mkDoc "terrible slow service" "Negative"] = Done m
       ∧ vocab_is_union_of_keys m.
Proof.
  destruct (fit_invariant_on_clean_corpus constructor
              [mkDoc "great fast delivery" "Positive";
               mkDoc "terrible slow service" "Negative"]) as (m & Hm & _ & _ & H).
  - repeat constructor; by eexists.
  - repeat constructor.
  - exists m. by split.
Defined.

(** X11: on such a fit, and for a text none of whose terms names a property
    of [Object.prototype], each score is the stated sum: the logarithm of
    the floored prior plus, per token occurrence, the logarithm of the
    add-one smoothed frequency. *)
Theorem predict_score_on_clean_corpus (this : model) (docs : list document) (txt : string) :
  valid_corpus docs → clean_corpus docs →
  Forall clean_token (tokenize (Some txt)) →
  ∃ m, train this docs = Done m
       ∧ ∀ c, score_of (predict m txt) c
              = Some (ScoreSpec.spec_score m (tokenize (Some txt)) c).
Proof. apply predict_score_clean. Qed.

Lemma predict_score_on_clean_corpus_witness :
  ∃ m, train constructor [mkDoc "great fast delivery" "Positive"] = Done m
       ∧ score_of (predict m "great") Positive
         = Some (ScoreSpec.spec_score m (tokenize (Some "great")) Positive).
Proof.
  destruct (predict_score_on_clean_corpus constructor
              [mkDoc "great fast delivery" "Positive"] "great") as (m & Hm & H).
  - repeat constructor; by eexists.
  - repeat constructor.
  - repeat constructor.
  - exists m. split; [exact Hm | apply H].
Defined.

(** X12: on the fit of a valid corpus none of whose terms names a property
    of [Object.prototype], for a text none of whose terms names such a
    property either, every score is a finite number, provided the corpus
    has at least one term or the text has no token. *)
Theorem predict_finite_on_clean_corpus (this : model) (docs : list document) (txt : string) :
  valid_corpus docs → clean_corpus docs →
  Forall clean_token (tokenize (Some txt)) →
  all_tokens docs ≠ [] ∨ tokenize (Some txt) = [] →
  ∃ m, train this docs = Done m
       ∧ ∀ c, ∃ r, score_of (predict m txt) c = Some (Fin r).
Proof. apply predict_finite_clean. Qed.

Lemma predict_finite_on_clean_corpus_witness :
  ∃ m, train constructor [mkDoc "great fast delivery" "Positive"] = Done m
       ∧ ∃ r, score_of (predict m "unseen words") Negative = Some (Fin r).
Proof.
  destruct (predict_finite_on_clean_corpus constructor
              [mkDoc "great fast delivery" "Positive"] "unseen words") as (m & Hm & H).
  - repeat constructor; by eexists.
  - repeat constructor.
  - repeat constructor.
  - left. discriminate.
  - exists m. split; [exact Hm | apply H].
Defined.

(** X13: on a valid corpus without such terms, relabelling a Negative
    document as Positive and fitting again does not lower the Positive
    score of that document's text. *)
Theorem relabel_raises_positive_score (this : model) (pre post : list document)
    (D : document) :
  label D = "Negative" →
  valid_corpus (pre ++ D :: post)%list → clean_corpus (pre ++ D :: post)%list →
  ∃ m m' before after,
    train this (pre ++ D :: post)%list = Done m
    ∧ train this (pre ++ mkDoc (text D) "Positive" :: post)%list = Done m'
    ∧ score_of (predict m (text D)) Positive = Some (Fin before)
    ∧ score_of (predict m' (text D)) Positive = Some (Fin after)
    ∧ (before <= after)%R.
Proof. apply relabel_monotone_clean. Qed.

Lemma relabel_raises_positive_score_witness :
  ∃ m m' before after,
    train constructor [mkDoc "terrible slow service" "Negative";
                       mkDoc "great fast delivery" "Positive"] = Done m
    ∧ train constructor [mkDoc "terrible slow service" "Positive";
                         mkDoc "great fast delivery" "Positive"] = Done m'
    ∧ score_of (predict m "terrible slow service") Positive = Some (Fin before)
    ∧ score_of (predict m' "terrible slow service") Positive = Some (Fin after)
    ∧ (before <= after)%R.
Proof.
  apply (relabel_raises_positive_score constructor []
           [mkDoc "great fast delivery" "Positive"]
           (mkDoc "terrible slow service" "Negative")).
  - reflexivity.
  - repeat constructor; by eexists.
  - repeat constructor.
Defined.

(** * callGemini *)

Section GeminiFacts.
Import Gemini.

Lemma callGemini_cases (network : nat → attempt) :
  callGemini network =
  match try_once (network 0%nat) with
  | Some v => (v, [Fetch])
  | None =>
      match try_once (network 1%nat) with
      | Some v => (v, [Fetch; Sleep 1000; Fetch])
      | None =>
          match try_once (network 2%nat) with
          | Some v => (v, [Fetch; Sleep 1000; Fetch; Sleep 2000; Fetch])
          | None => (error_message, [Fetch; Sleep 1000; Fetch; Sleep 2000; Fetch])
          end
      end
  end.
Proof.
  unfold callGemini. simpl.
  destruct (try_once (network 0%nat)); [done |].
  destruct (try_once (network 1%nat)); [done |].
  by destruct (try_once (network 2%nat)).
Qed.

Lemma or_default_truthy (x : value) :
  truthy (if truthy x then x else no_response) = true.
Proof. by destruct (truthy x) eqn:E. Qed.

Lemma extract_truthy (data v : value) : extract data = Some v → truthy v = true.
Proof.
  unfold extract. destruct data; try done; intros [= <-];
    first [apply or_default_truthy | reflexivity].
Qed.

Lemma try_once_truthy (a : attempt) (v : value) :
  try_once a = Some v → truthy v = true.
Proof.
  destruct a as [|[] st [data|]]; simpl; try done. apply extract_truthy.
Qed.

End GeminiFacts.

(** X14: whatever the network answers, [callGemini] fetches once, twice or
    three times, sleeping 1000 ms after the first failure and 2000 ms after
    the second and never after the third: at most three requests and three
    seconds of waiting. *)
Theorem callGemini_bounded_backoff (network : nat → Gemini.attempt) :
  let trace := (Gemini.callGemini network).2 in
  (trace = [Gemini.Fetch]
   ∨ trace = [Gemini.Fetch; Gemini.Sleep 1000; Gemini.Fetch]
   ∨ trace = [Gemini.Fetch; Gemini.Sleep 1000; Gemini.Fetch;
              Gemini.Sleep 2000; Gemini.Fetch])
  ∧ (1 <= Gemini.fetches trace <= 3)%nat
  ∧ (Gemini.slept trace <= 3000)%N.
Proof.
  intros trace. subst trace. rewrite callGemini_cases.
  destruct (Gemini.try_once (network 0%nat));
    [| destruct (Gemini.try_once (network 1%nat));
       [| destruct (Gemini.try_once (network 2%nat))]];
    cbn [snd]; (split; [tauto |]); unfold Gemini.fetches, Gemini.slept;
    cbn [List.filter length fold_right]; lia.
Qed.

(** X15: the value [callGemini] returns is never [undefined], [null], an
    empty string or another falsy value. *)
Theorem callGemini_never_falsy (network : nat → Gemini.attempt) :
  Gemini.truthy (Gemini.callGemini network).1 = true.
Proof.
  rewrite callGemini_cases.
  destruct (Gemini.try_once (network 0%nat)) eqn:H0;
    [by apply try_once_truthy in H0 |].
  destruct (Gemini.try_once (network 1%nat)) eqn:H1;
    [by apply try_once_truthy in H1 |].
  destruct (Gemini.try_once (network 2%nat)) eqn:H2;
    [by apply try_once_truthy in H2 | done].
Qed.

(** X16: the first attempt that does not fail decides the result: its value
    is returned after exactly that many fetches, and what the network would
    have answered later is never asked for. *)
Theorem callGemini_first_success (network network' : nat → Gemini.attempt)
    (k : nat) (v : Gemini.value) :
  (k < 3)%nat →
  (∀ i, (i < k)%nat → Gemini.try_once (network i) = None) →
  Gemini.try_once (network k) = Some v →
  (∀ i, (i <= k)%nat → network' i = network i) →
  (Gemini.callGemini network).1 = v
  ∧ Gemini.fetches (Gemini.callGemini network).2 = S k
  ∧ Gemini.callGemini network' = Gemini.callGemini network.
Proof.
  intros Hk Hfail Hok Hsame. rewrite !callGemini_cases.
  destruct k as [|[|[|k]]]; [| | | lia].
  - rewrite (Hsame 0%nat), Hok by lia. done.
  - rewrite (Hsame 0%nat), (Hsame 1%nat), (Hfail 0%nat), Hok by lia. done.
  - rewrite (Hsame 0%nat), (Hsame 1%nat), (Hsame 2%nat),
      (Hfail 0%nat), (Hfail 1%nat), Hok by lia. done.
Qed.

Lemma callGemini_first_success_witness :
  (Gemini.callGemini
     (λ i, if (i =? 1)%nat
           then Gemini.Response true 200 (Some (Gemini.Str "plain"))
           else Gemini.Rejected)).1 = Gemini.no_response.
Proof.
  apply (callGemini_first_success _
           (λ i, if (i =? 1)%nat
                 then Gemini.Response true 200 (Some (Gemini.Str "plain"))
                 else Gemini.Rejected) 1%nat).
  - lia.
  - intros i Hi. by replace i with 0%nat by lia.
  - reflexivity.
  - done.
Defined.

(** X17: when the first three attempts all fail (the fetch rejects, the
    status is not ok, the body is not JSON, or the body is [null]), the
    error message is returned after three fetches and 3000 ms of sleep. *)
Theorem callGemini_all_fail (network : nat → Gemini.attempt) :
  (∀ i, (i < 3)%nat → Gemini.try_once (network i) = None) →
  Gemini.callGemini network
  = (Gemini.error_message,
     [Gemini.Fetch; Gemini.Sleep 1000; Gemini.Fetch; Gemini.Sleep 2000; Gemini.Fetch])
  ∧ Gemini.slept (Gemini.callGemini network).2 = 3000%N.
Proof.
  intros H. rewrite callGemini_cases, !H by lia. done.
Qed.

Lemma callGemini_all_fail_witness :
  Gemini.slept (Gemini.callGemini (λ _, Gemini.Response false 503 None)).2 = 3000%N.
Proof.
  apply (callGemini_all_fail (λ _, Gemini.Response false 503 None)). done.
Defined.

(** X18: a body that has the documented shape, with any further members,
    yields its text: if [candidates] is an array whose first element is an
    object with [content.parts] an array whose first element is an object
    with a non-empty string [text], a first answer with that body makes
    [callGemini] return that string after one fetch. *)
Theorem callGemini_reads_text (network : nat → Gemini.attempt) (status : N)
    (top cand content part : list (string * Gemini.value))
    (cands parts : list Gemini.value) (t : string) :
  network 0%nat = Gemini.Response true status (Some (Gemini.Obj top)) →
  Gemini.field top "candidates" = Some (Gemini.Arr (Gemini.Obj cand :: cands)) →
  Gemini.field cand "content" = Some (Gemini.Obj content) →
  Gemini.field content "parts" = Some (Gemini.Arr (Gemini.Obj part :: parts)) →
  Gemini.field part "text" = Some (Gemini.Str t) →
  t ≠ EmptyString →
  Gemini.callGemini network = (Gemini.Str t, [Gemini.Fetch]).
Proof.
  intros Hn H1 H2 H3 H4 Ht. rewrite callGemini_cases, Hn.
  simpl. rewrite H1. simpl. rewrite H2. simpl. rewrite H3. simpl. rewrite H4. simpl.
  by rewrite bool_decide_eq_false_2.
Qed.

Lemma callGemini_reads_text_witness :
  Gemini.callGemini
    (λ _, Gemini.Response true 200
            (Some (Gemini.Obj
               [("candidates",
                 Gemini.Arr [Gemini.Obj
                   [("content",
                     Gemini.Obj [("role", Gemini.Str "model");
                                 ("parts", Gemini.Arr [Gemini.Obj [("text", Gemini.Str "Hello")]])])]])])))
  = (Gemini.Str "Hello", [Gemini.Fetch]).
Proof.
  eapply callGemini_reads_text; try reflexivity. discriminate.
Defined.

(** * The App component *)

Section AppInvariant.
Import App.

Lemma valid_doc_cat (txt : string) (c : Category) : valid_doc (mkDoc txt (cat_name c)).
Proof. exists c. apply category_of_name. Qed.

Lemma handleCorrection_valid (id : N) (c : Category) (h : list item) :
  valid_corpus (docs_of h) → valid_corpus (docs_of (handleCorrection id (cat_name c) h)).
Proof.
  unfold valid_corpus, docs_of, handleCorrection.
  induction h as [|it h IH]; simpl; [done |].
  intros Hv. apply Forall_cons in Hv as [Hit Hh].
  constructor; [| by apply IH].
  case_bool_decide; [apply valid_doc_cat | done].
Qed.

Lemma handleCorrection_texts (id : N) (l : string) (h : list item) :
  map item_text (handleCorrection id l h) = map item_text h.
Proof.
  unfold handleCorrection. rewrite map_map. apply map_ext.
  intros it. by case_bool_decide.
Qed.

Lemma imap_valid (f : nat → string → item) (l : list string) :
  (∀ i s, valid_doc (doc_of (f i s))) → valid_corpus (docs_of (imap f l)).
Proof.
  revert f. induction l as [|s l IH]; intros f Hf; [constructor |].
  simpl. constructor; [apply Hf |]. apply IH. intros i s'. apply Hf.
Qed.

Lemma processExtractedText_valid (cls : model) (now : nat → N) (txt : string)
    (h : list item) :
  valid_corpus (docs_of h) → valid_corpus (docs_of (processExtractedText cls now txt h)).
Proof.
  intros Hv. unfold processExtractedText, docs_of. rewrite map_app.
  apply Forall_app. split; [| done].
  apply imap_valid. intros i s. apply valid_doc_cat.
Qed.

Lemma processExtractedText_texts (cls : model) (now : nat → N) (txt : string)
    (h : list item) :
  ∃ added, map item_text (processExtractedText cls now txt h)
           = (added ++ map item_text h)%list.
Proof. unfold processExtractedText. rewrite map_app. by eexists. Qed.

Lemma training_effect_valid (st : state) :
  valid_corpus (docs_of (history st)) →
  training_effect st =
  Some (mkState (input st) (history st)
          (if bool_decide (input st = EmptyString) then shown st
           else predict (fitted (docs_of (history st))) (input st))
          (fitted (docs_of (history st)))).
Proof. intros Hv. unfold training_effect. by rewrite train_valid. Qed.

Lemma trim_empty : Text.trim EmptyString = EmptyString.
Proof. done. Qed.

Lemma mount_invariant : ∃ st, mount = Some st ∧ invariant st.
Proof.
  unfold mount. rewrite training_effect_valid by (repeat constructor; by eexists).
  eexists. split; [reflexivity |].
  split; simpl; [repeat constructor; by eexists | done | done | by exists []].
Qed.

Lemma handle_invariant (st : state) (e : event) :
  invariant st → ∃ st', handle st e = Some st' ∧ invariant st'.
Proof.
  intros Hinv. pose proof Hinv as [Hv Hf Hs [added Hi]].
  destruct e as [s|now time|id c|now txt]; simpl.
  - case_bool_decide; [by exists st |].
    eexists. split; [reflexivity |].
    split; simpl; [done | done | | by exists added].
    intros Ht. by rewrite bool_decide_eq_false_2.
  - case_bool_decide as Hb; [by exists st |].
    rewrite training_effect_valid; simpl.
    2:{ constructor; [apply valid_doc_cat | done]. }
    eexists. split; [reflexivity |].
    split; simpl; [constructor; [apply valid_doc_cat | done] | done | done |].
    exists (input st :: added). by rewrite Hi.
  - rewrite training_effect_valid; simpl; [| by apply handleCorrection_valid].
    eexists. split; [reflexivity |].
    split; simpl; [by apply handleCorrection_valid | done | |].
    + intros Ht. rewrite bool_decide_eq_false_2; [done |].
      intros E. by rewrite E in Ht.
    + exists added. by rewrite handleCorrection_texts.
  - rewrite training_effect_valid; simpl; [| by apply processExtractedText_valid].
    eexists. split; [reflexivity |].
    split; simpl; [by apply processExtractedText_valid | done | |].
    + intros Ht. rewrite bool_decide_eq_false_2; [done |].
      intros E. by rewrite E in Ht.
    + destruct (processExtractedText_texts (classifier st) now txt (history st))
        as [more Hm].
      exists (more ++ added)%list. by rewrite Hm, Hi, app_assoc.
Qed.

Lemma run_invariant (events : list event) :
  ∀ st, invariant st → ∃ st', run st events = Some st' ∧ invariant st'.
Proof.
  induction events as [|e events IH]; intros st Hinv; simpl; [by exists st |].
  destruct (handle_invariant st e Hinv) as (st1 & -> & Hinv1). by apply IH.
Qed.

Lemma run_inv_from (events : list event) (st0 st : state) :
  invariant st0 → run st0 events = Some st → invariant st.
Proof.
  intros H0 Hr. destruct (run_invariant events st0 H0) as (st' & Hr' & Hinv).
  congruence.
Qed.

Lemma reachable_inv (st : state) : reachable st → invariant st.
Proof.
  intros (st0 & events & Hm & Hr).
  destruct mount_invariant as (st0' & Hm' & H0).
  assert (st0' = st0) as -> by congruence.
  by eapply run_inv_from.
Qed.

End AppInvariant.

Section AppScores.
Import App.

Lemma js_add_not_infinite (a b : jsnum) :
  not_infinite a → not_infinite b → not_infinite (js_add a b).
Proof.
  intros [[r ->]| ->] [[r' ->]| ->]; simpl; try (by right). left. by eexists.
Qed.

Lemma to_number_add_one (v : jsval) :
  (∃ n, to_number (add_one v) = Fin (IZR (Z.of_N (n + 1)))) ∨ to_number (add_one v) = NaN.
Proof. destruct v; simpl; try (by right). left. by eexists. Qed.

Lemma likelihood_not_infinite (m : model) (c : Category) (t : string) :
  vocab m ≠ ∅ → not_infinite (likelihood m c t).
Proof.
  intros Hv. unfold likelihood, denominator.
  destruct (classTotalWords (wordCounts m c)) as [T|].
  - destruct (to_number_add_one (js_or (get_prop (wordCounts m c) t) (VInt 0)))
      as [[n ->]| ->]; [| by right].
    pose proof (IZR_of_N_nonneg T). pose proof (size_pos _ Hv).
    assert (0 < IZR (Z.of_N (n + 1)))%R by (apply IZR_lt; lia).
    rewrite js_div_fin by lra. rewrite js_log_pos.
    + left. by eexists.
    + apply Rdiv_lt_0_compat; lra.
  - destruct (to_number _); by right.
Qed.

Lemma logProb_not_infinite (m : model) (c : Category) (tokens : list string) :
  vocab m ≠ ∅ → not_infinite (prior m c) → not_infinite (logProb m tokens c).
Proof.
  intros Hv. unfold logProb. generalize (prior m c).
  induction tokens as [|t ts IH]; intros a Ha; simpl; [done |].
  apply IH. apply js_add_not_infinite; [done | by apply likelihood_not_infinite].
Qed.

Lemma fitted_prior_finite (docs : list document) (c : Category) :
  not_infinite (prior (fitted docs) c).
Proof.
  left. rewrite (prior_spec _ _ (count_label docs c)) by apply fitted_class_count.
  apply spec_prior_finite.
Qed.

End AppScores.

(** X19: whatever the user types, saves, corrects or imports, the training
    effect never throws: every sequence of these events runs to a state
    whose history carries only the three category labels and whose
    classifier is the completed fit of that history. *)
Theorem app_training_never_throws (events : list App.event) :
  ∃ st0 st,
    App.mount = Some st0 ∧ App.run st0 events = Some st
    ∧ valid_corpus (App.docs_of (App.history st))
    ∧ train (App.classifier st) (App.docs_of (App.history st)) = Done (App.classifier st).
Proof.
  destruct mount_invariant as (st0 & Hm & H0).
  destruct (run_invariant events st0 H0) as (st & Hr & [Hv Hf _ _]).
  exists st0, st. split; [done |]. split; [done |]. split; [done |].
  rewrite Hf at 2. by apply train_valid.
Qed.

(** X20: in every state reached from the first render by typing, saving,
    correcting and importing (the four events of [App.event]; the Generate
    button is not among them), a non-blank input is shown with the
    prediction the current classifier makes for it. *)
Theorem app_shown_prediction_is_current (st : App.state) :
  App.reachable st →
  Text.trim (App.input st) ≠ EmptyString →
  App.shown st = predict (App.classifier st) (App.input st)
  ∧ train (App.classifier st) (App.docs_of (App.history st)) = Done (App.classifier st).
Proof.
  intros Hr Ht. destruct (reachable_inv st Hr) as [Hv Hf Hs _].
  split; [by apply Hs |]. rewrite Hf at 2. by apply train_valid.
Qed.

Lemma app_example_state_reachable : App.reachable app_example_state.
Proof.
  exists (App.mkState EmptyString App.initial_history App.default_prediction
            (fitted (App.docs_of App.initial_history))), [App.Edit "great app"].
  split.
  - unfold App.mount. rewrite training_effect_valid by (repeat constructor; by eexists).
    reflexivity.
  - reflexivity.
Qed.

Lemma app_shown_prediction_is_current_witness :
  App.shown app_example_state
  = predict (App.classifier app_example_state) (App.input app_example_state)
  ∧ train (App.classifier app_example_state)
      (App.docs_of (App.history app_example_state))
    = Done (App.classifier app_example_state).
Proof.
  apply (app_shown_prediction_is_current app_example_state).
  - apply app_example_state_reachable.
  - discriminate.
Defined.

(** X21: in every state reached from the first render by typing, saving,
    correcting and importing (the Generate button is not among the events),
    saving a non-blank input puts at the head of the history one item with
    the input as typed (not trimmed) and the label the current classifier
    predicts for it, keeps the other items, and clears the input. *)
Theorem app_save_stores_predicted_label (st : App.state) (now : N) (time : string) :
  App.reachable st →
  Text.trim (App.input st) ≠ EmptyString →
  ∃ st', App.handle st (App.Save now time) = Some st'
         ∧ App.history st'
           = App.mkItem now (App.input st)
               (cat_name (p_label (predict (App.classifier st) (App.input st)))) time
             :: App.history st
         ∧ App.input st' = EmptyString
         ∧ App.shown st' = App.default_prediction.
Proof.
  intros Hr Ht. destruct (reachable_inv st Hr) as [Hv Hf Hs _].
  simpl. rewrite bool_decide_eq_false_2 by done.
  rewrite training_effect_valid; simpl.
  2:{ constructor; [apply valid_doc_cat | done]. }
  eexists. split; [reflexivity |]. simpl. by rewrite (Hs Ht).
Qed.

Lemma app_save_stores_predicted_label_witness :
  ∃ st', App.handle app_example_state (App.Save 1700000000000 "10:00:00") = Some st'
         ∧ App.history st'
           = App.mkItem 1700000000000 "great app"
               (cat_name (p_label (predict (App.classifier app_example_state) "great app")))
               "10:00:00"
             :: App.initial_history
         ∧ App.input st' = EmptyString
         ∧ App.shown st' = App.default_prediction.
Proof.
  apply (app_save_stores_predicted_label app_example_state 1700000000000 "10:00:00").
  - apply app_example_state_reachable.
  - discriminate.
Defined.

(** X22: in every state reached from the first render by typing, saving,
    correcting and importing (the Generate button is not among the events),
    the history still holds at least five items, the vocabulary of the
    classifier is not empty, and no score of any text is an infinity: the
    division by zero of the empty model does not happen there. *)
Theorem app_scores_never_infinite (st : App.state) (txt : string) (c : Category) :
  App.reachable st →
  (5 <= length (App.history st))%nat
  ∧ vocab (App.classifier st) ≠ ∅
  ∧ ∃ a, score_of (predict (App.classifier st) txt) c = Some a ∧ not_infinite a.
Proof.
  intros Hr. destruct (reachable_inv st Hr) as [Hv Hf Hs [added Hi]].
  assert (Hlen : (5 <= length (App.history st))%nat).
  { rewrite <- (length_map App.item_text), Hi, length_app. simpl. lia. }
  assert (Hvoc : vocab (App.classifier st) ≠ ∅).
  { rewrite Hf. cbn [vocab fitted]. intros He.
    assert (Hin : "product" ∈ (list_to_set (all_tokens (App.docs_of (App.history st)))
                               : gset string)); [| by rewrite He in Hin].
    apply elem_of_list_to_set.
    assert (Hall : all_tokens (App.docs_of (App.history st))
                   = flat_map (λ s, tokenize (Some s)) (map App.item_text (App.history st))).
    { unfold all_tokens, App.docs_of. clear.
      induction (App.history st) as [|it h IH]; [done |]. simpl. by rewrite IH. }
    rewrite Hall, Hi, flat_map_app. apply elem_of_app. right.
    apply (bool_decide_unpack _). vm_compute. exact I. }
  split; [done |]. split; [done |].
  exists (logProb (App.classifier st) (tokenize (Some txt)) c).
  split; [apply predict_score |].
  apply logProb_not_infinite; [done |]. rewrite Hf. apply fitted_prior_finite.
Qed.

Lemma app_scores_never_infinite_witness :
  vocab (App.classifier app_example_state) ≠ ∅.
Proof.
  destruct (app_scores_never_infinite app_example_state "anything" Positive) as (_ & H & _).
  - apply app_example_state_reachable.
  - exact H.
Defined.

Section Correction.
Import App.

Lemma handleCorrection_absent (id : N) (l : string) (h : list item) :
  id ∉ map item_id h → handleCorrection id l h = h.
Proof.
  unfold handleCorrection. induction h as [|it h IH]; simpl; [done |].
  intros Hn. apply not_elem_of_cons in Hn as [Hne Hn].
  rewrite bool_decide_eq_false_2 by done. by rewrite IH.
Qed.

Lemma handleCorrection_app (id : N) (l : string) (a b : list item) :
  handleCorrection id l (a ++ b) = (handleCorrection id l a ++ handleCorrection id l b)%list.
Proof. apply map_app. Qed.

Lemma handleCorrection_unique (l : string) (pre post : list item) (it : item) :
  item_id it ∉ map item_id (pre ++ post) →
  handleCorrection (item_id it) l (pre ++ it :: post)
  = (pre ++ mkItem (item_id it) (item_text it) l (item_timestamp it) :: post)%list.
Proof.
  rewrite map_app, not_elem_of_app. intros [Hpre Hpost].
  rewrite handleCorrection_app, (handleCorrection_absent _ _ pre) by done.
  f_equal. unfold handleCorrection at 1. simpl.
  rewrite bool_decide_eq_true_2 by done. f_equal.
  by apply handleCorrection_absent.
Qed.

End Correction.

(** X23: a correction changes labels only: the ids, texts and timestamps of
    the history stay as they are, in the same order; the items with the
    given id get the new label and every other item is untouched; with an id
    no item has, the history is unchanged. *)
Theorem handleCorrection_changes_labels_only (id : N) (newLabel : string)
    (prev : list App.item) :
  map App.item_id (App.handleCorrection id newLabel prev) = map App.item_id prev
  ∧ map App.item_text (App.handleCorrection id newLabel prev) = map App.item_text prev
  ∧ map App.item_timestamp (App.handleCorrection id newLabel prev)
    = map App.item_timestamp prev
  ∧ map App.item_label (App.handleCorrection id newLabel prev)
    = map (λ it, if bool_decide (App.item_id it = id) then newLabel
                 else App.item_label it) prev
  ∧ (id ∉ map App.item_id prev → App.handleCorrection id newLabel prev = prev).
Proof.
  unfold App.handleCorrection. rewrite !map_map.
  repeat split; try (apply map_ext; intros it; by case_bool_decide).
  apply handleCorrection_absent.
Qed.

Lemma handleCorrection_changes_labels_only_witness :
  App.handleCorrection 99 "Positive" App.initial_history = App.initial_history.
Proof.
  destruct (handleCorrection_changes_labels_only 99 "Positive" App.initial_history)
    as (_ & _ & _ & _ & H).
  apply H. apply (bool_decide_unpack _). vm_compute. exact I.
Defined.

(** X24: in a state reached from the first render by typing, saving,
    correcting and importing (the Generate button is not among the events)
    whose history has no term naming a property of [Object.prototype],
    correcting a Negative item with an id of its own to Positive retrains
    the classifier so that the Positive score of that item's text does not
    go down. *)
Theorem app_correction_raises_score (st : App.state) (pre post : list App.item)
    (it : App.item) :
  App.reachable st →
  App.history st = (pre ++ it :: post)%list →
  App.item_label it = "Negative" →
  App.item_id it ∉ map App.item_id (pre ++ post) →
  clean_corpus (App.docs_of (App.history st)) →
  ∃ st' before after,
    App.handle st (App.Correct (App.item_id it) Positive) = Some st'
    ∧ App.history st'
      = (pre ++ App.mkItem (App.item_id it) (App.item_text it) "Positive"
                 (App.item_timestamp it) :: post)%list
    ∧ score_of (predict (App.classifier st) (App.item_text it)) Positive
      = Some (Fin before)
    ∧ score_of (predict (App.classifier st') (App.item_text it)) Positive
      = Some (Fin after)
    ∧ (before <= after)%R.
Proof.
  intros Hr Hh Hl Hid Hc.
  destruct (reachable_inv st Hr) as [Hv Hf Hs _].
  pose proof (handleCorrection_unique "Positive" pre post it Hid) as Hcorr.
  rewrite Hh in Hv, Hc, Hf.
  unfold App.docs_of in Hv, Hc. rewrite map_app in Hv, Hc. simpl in Hv, Hc.
  destruct (relabel_monotone_clean constructor (App.docs_of pre) (App.docs_of post)
              (App.doc_of it) Hl Hv Hc) as (m & m' & b & a & Hm & Hm' & Hb & Ha & Hle).
  rewrite train_valid in Hm by done. injection Hm as <-.
  assert (Hv' : valid_corpus
            (App.docs_of pre ++ mkDoc (text (App.doc_of it)) "Positive" :: App.docs_of post)).
  { unfold valid_corpus in *. rewrite Forall_app, Forall_cons in Hv.
    destruct Hv as (? & ? & ?). rewrite Forall_app, Forall_cons.
    repeat split; try done. by eexists. }
  rewrite train_valid in Hm' by done. injection Hm' as <-.
  simpl. rewrite Hh. change (cat_name Positive) with "Positive". rewrite Hcorr.
  rewrite training_effect_valid; simpl.
  2:{ unfold App.docs_of. rewrite map_app. exact Hv'. }
  eexists _, b, a. split; [reflexivity |]. simpl.
  split; [done |]. split.
  - rewrite Hf. unfold App.docs_of. rewrite map_app. exact Hb.
  - split; [| done]. unfold App.docs_of. rewrite map_app. exact Ha.
Qed.

Lemma app_correction_raises_score_witness :
  ∃ st' before after,
    App.handle app_example_state (App.Correct 2 Positive) = Some st'
    ∧ App.history st'
      = ([App.mkItem 1 "The product is great, fast delivery!" "Positive" "Initial Data"]
         ++ App.mkItem 2 "Terrible service, very slow and rude." "Positive" "Initial Data"
         :: [App.mkItem 3 "It's okay, nothing special." "Neutral" "Initial Data";
             App.mkItem 4 "I love the new features." "Positive" "Initial Data";
             App.mkItem 5 "Broken immediately. Waste of money." "Negative" "Initial Data"])%list
    ∧ score_of (predict (App.classifier app_example_state)
                  "Terrible service, very slow and rude.") Positive = Some (Fin before)
    ∧ score_of (predict (App.classifier st')
                  "Terrible service, very slow and rude.") Positive = Some (Fin after)
    ∧ (before <= after)%R.
Proof.
  apply (app_correction_raises_score app_example_state
           [App.mkItem 1 "The product is great, fast delivery!" "Positive" "Initial Data"]
           [App.mkItem 3 "It's okay, nothing special." "Neutral" "Initial Data";
            App.mkItem 4 "I love the new features." "Positive" "Initial Data";
            App.mkItem 5 "Broken immediately. Waste of money." "Negative" "Initial Data"]
           (App.mkItem 2 "Terrible service, very slow and rude." "Negative" "Initial Data")).
  - apply app_example_state_reachable.
  - reflexivity.
  - reflexivity.
  - apply (bool_decide_unpack _). vm_compute. exact I.
  - apply (bool_decide_unpack _). vm_compute. exact I.
Defined.

Section Stats.
Import App.

Lemma category_of_iff (l : string) (c : Category) :
  category_of l = Some c ↔ l = cat_name c.
Proof.
  split; [apply category_of_Some |]. intros ->. apply category_of_name.
Qed.

Lemma count_label_stats (h : list item) (c : Category) :
  count_label (docs_of h) c = N.of_nat (length (labelled (cat_name c) h)).
Proof.
  unfold count_label, labelled, docs_of. f_equal.
  induction h as [|it h IH]; [done |]. simpl.
  assert (has_label c (doc_of it) = bool_decide (item_label it = cat_name c)) as ->.
  { unfold has_label. apply bool_decide_ext. simpl. apply category_of_iff. }
  destruct (bool_decide (item_label it = cat_name c)); simpl; by rewrite IH.
Qed.

Lemma labelled_perm (h : list item) :
  (labelled "Positive" h ++ labelled "Neutral" h ++ labelled "Negative" h)%list
  ≡ₚ categorised h.
Proof.
  unfold labelled, categorised. induction h as [|[i t l ts] h IH]; [done |].
  cbn [List.filter item_label].
  destruct (category_of l) as [c|] eqn:Hc.
  - apply category_of_Some in Hc. subst l. destruct c; simpl.
    + by constructor.
    + rewrite <- IH. symmetry.
      etransitivity; [apply Permutation_middle |]. apply Permutation_app_head.
      by apply Permutation_middle.
    + rewrite <- IH. symmetry. apply Permutation_middle.
  - rewrite (bool_decide_eq_false_2 (is_Some None)) by (by intros [? ?]).
    unfold category_of in Hc. repeat case_bool_decide; done.
Qed.

Lemma categorised_valid (h : list item) :
  valid_corpus (docs_of h) → categorised h = h.
Proof.
  unfold categorised, valid_corpus, docs_of.
  induction h as [|it h IH]; [done |]. simpl. intros Hv.
  apply Forall_cons in Hv as [Hit Hh].
  rewrite bool_decide_eq_true_2 by exact Hit. by rewrite IH.
Qed.

End Stats.

(** X25: the three numbers of the dashboard are the category counts of the
    classifier: whenever the training effect completes on a history, each
    figure of [stats] is the count the model holds for that category; and on
    a history with only category labels they add up to its length. *)
Theorem stats_are_class_counts (this m : model) (history : list App.item) :
  train this (App.docs_of history) = Done m →
  classCounts m !! "Positive" = Some (VInt (N.of_nat (App.stats_pos history)))
  ∧ classCounts m !! "Negative" = Some (VInt (N.of_nat (App.stats_neg history)))
  ∧ classCounts m !! "Neutral" = Some (VInt (N.of_nat (App.stats_neu history)))
  ∧ (valid_corpus (App.docs_of history) →
     (App.stats_pos history + App.stats_neg history + App.stats_neu history)%nat
     = length history).
Proof.
  unfold train. intros H.
  destruct (add_docs_done_facts _ _ _ H) as (_ & _ & Hc).
  unfold App.stats_pos, App.stats_neg, App.stats_neu.
  pose proof (count_label_stats history) as Hs.
  pose proof (Hc Positive 0%N ltac:(done)) as HP.
  pose proof (Hc Negative 0%N ltac:(done)) as HN.
  pose proof (Hc Neutral 0%N ltac:(done)) as HU.
  rewrite N.add_0_l, Hs in HP, HN, HU.
  split; [exact HP | split; [exact HN | split; [exact HU |]]].
  - intros Hv. pose proof (count_label_total _ Hv) as Ht.
    rewrite !Hs in Ht. unfold App.docs_of in Ht. rewrite length_map in Ht.
    simpl in Ht. lia.
Qed.

Lemma stats_are_class_counts_witness :
  classCounts (fitted (App.docs_of App.initial_history)) !! "Positive"
  = Some (VInt (N.of_nat (App.stats_pos App.initial_history))).
Proof.
  apply (stats_are_class_counts constructor).
  apply train_valid. repeat constructor; by eexists.
Defined.

(** X26: the three columns of the results page hold exactly the items whose
    label is one of the three categories, each once; an item with any other
    label is in no column.  On a history with only category labels the
    columns are a rearrangement of the whole history. *)
Theorem categorizedHistory_partitions (history : list App.item) :
  let '(positive, neutral, negative) := App.categorizedHistory history in
  (positive ++ neutral ++ negative)%list ≡ₚ categorised history
  ∧ (valid_corpus (App.docs_of history) →
     (positive ++ neutral ++ negative)%list ≡ₚ history).
Proof.
  unfold App.categorizedHistory. split; [apply labelled_perm |].
  intros Hv. rewrite labelled_perm. by rewrite categorised_valid.
Qed.

Lemma categorizedHistory_partitions_witness :
  (App.labelled "Positive" App.initial_history
   ++ App.labelled "Neutral" App.initial_history
   ++ App.labelled "Negative" App.initial_history)%list ≡ₚ App.initial_history.
Proof.
  pose proof (categorizedHistory_partitions App.initial_history) as H.
  unfold App.categorizedHistory in H. destruct H as [_ H].
  apply H. repeat constructor; by eexists.
Defined.

Section FileImport.
Import App Text.

Lemma trim_end_idem (s : string) : trim_end (trim_end s) = trim_end s.
Proof.
  induction s as [|c s IH]; [done |]. simpl.
  destruct (trim_end s) as [|c' r'] eqn:E.
  - destruct (Chars.is_space c) eqn:Hc; [done |]. simpl. by rewrite Hc.
  - simpl. simpl in IH. by rewrite IH.
Qed.

Lemma trim_start_fixed (s : string) : trim_start (trim_start s) = trim_start s.
Proof.
  induction s as [|c s IH]; [done |]. simpl.
  destruct (Chars.is_space c) eqn:Hc; [done |]. simpl. by rewrite Hc.
Qed.

Lemma trim_start_trim_end (s : string) :
  trim_start s = s → trim_start (trim_end s) = trim_end s.
Proof.
  destruct s as [|c s]; [done |]. simpl.
  destruct (Chars.is_space c) eqn:Hc.
  - intros H. exfalso.
    assert (Hl : (String.length (trim_start s) <= String.length s)%nat).
    { clear. induction s as [|x s IH]; [done |]. simpl.
      destruct (Chars.is_space x); simpl; lia. }
    rewrite H in Hl. simpl in Hl. lia.
  - intros _. destruct (trim_end s); simpl; by rewrite Hc.
Qed.

Lemma trim_idem (s : string) : trim (trim s) = trim s.
Proof.
  unfold trim.
  rewrite (trim_start_trim_end (trim_start s)) by apply trim_start_fixed.
  apply trim_end_idem.
Qed.

End FileImport.

(** X27: for an imported text in the Latin-1 block (every code unit at most
    U+00FF), the import puts its new entries in front of the history, which
    it leaves as it was; there is at most one entry per line of the text;
    each entry holds a line without the white space at its ends, longer than
    five characters, under the label the classifier predicts for that stored
    text; and if the clock does not run backwards the ids of the entries
    increase strictly in line order. *)
Theorem import_entries_wellformed (cls : model) (now : nat → N) (text : string)
    (prev : list App.item) :
  App.processExtractedText cls now text prev = (newEntries cls now text ++ prev)%list
  ∧ (length (newEntries cls now text) <= length (App.split_lines text))%nat
  ∧ Forall (λ e, (5 < String.length (App.item_text e))%nat
                 ∧ Text.trim (App.item_text e) = App.item_text e
                 ∧ App.item_label e = cat_name (p_label (predict cls (App.item_text e)))
                 ∧ App.item_timestamp e = "Imported File")
           (newEntries cls now text)
  ∧ ((∀ i j, (i <= j)%nat → (now i <= now j)%N) →
     ∀ i j e e', (i < j)%nat →
       newEntries cls now text !! i = Some e → newEntries cls now text !! j = Some e' →
       (App.item_id e < App.item_id e')%N).
Proof.
  split; [reflexivity |]. unfold newEntries. split; [| split].
  - rewrite length_imap. apply List.filter_length_le.
  - apply Forall_forall. intros e He.
    apply list_elem_of_lookup in He as [i He].
    rewrite list_lookup_imap in He.
    destruct (List.filter App.kept_line (App.split_lines text) !! i) as [line|] eqn:Hl;
      [| done].
    injection He as <-. simpl.
    assert (Hk : App.kept_line line = true).
    { apply list_elem_of_lookup_2, list_elem_of_In, filter_In in Hl. tauto. }
    unfold App.kept_line in Hk. apply Nat.ltb_lt in Hk.
    split; [done |]. split; [apply trim_idem |]. split; [| done].
    f_equal. f_equal. apply predict_tokens. symmetry. apply tokenize_trim.
  - intros Hmono i j e e' Hij. rewrite !list_lookup_imap.
    destruct (_ !! i); [| done]. destruct (_ !! j); [| done].
    intros [= <-] [= <-]. simpl.
    specialize (Hmono i j ltac:(lia)). lia.
Qed.

Lemma import_entries_wellformed_witness :
  ∃ e e',
    newEntries constructor (λ _, 1700000000000%N)
      (Text.join line_feed ["first review line"; "second review line"]) !! 0%nat = Some e
    ∧ newEntries constructor (λ _, 1700000000000%N)
        (Text.join line_feed ["first review line"; "second review line"]) !! 1%nat = Some e'
    ∧ (App.item_id e < App.item_id e')%N.
Proof.
  destruct (import_entries_wellformed constructor (λ _, 1700000000000%N)
              (Text.join line_feed ["first review line"; "second review line"]) [])
    as (_ & _ & _ & H).
  assert (E : List.filter App.kept_line
                (App.split_lines
                   (Text.join line_feed ["first review line"; "second review line"]))
              = ["first review line"; "second review line"]).
  { vm_compute. reflexivity. }
  eexists _, _. split; [| split].
  - unfold newEntries. rewrite E. reflexivity.
  - unfold newEntries. rewrite E. reflexivity.
  - apply (H ltac:(intros i j _; lia) 0%nat 1%nat); [lia | |];
      unfold newEntries; rewrite E; reflexivity.
Defined.

Section Sheet.
Import App Text.

Lemma split_lines_single (w : string) :
  forallb (λ c, negb (is_lf c)) (chars w) = true → split_lines w = [w].
Proof.
  induction w as [|c r IH]; [done |]. simpl chars. simpl forallb.
  intros [Hc Hr]%andb_prop. apply negb_true_iff in Hc.
  specialize (IH Hr). simpl. rewrite Hc.
  destruct r as [|c' r']; [done |].
  simpl in Hr. apply andb_prop in Hr as [Hc' _]. apply negb_true_iff in Hc'.
  rewrite Hc', andb_false_r. by rewrite IH.
Qed.

Lemma split_lines_cut (w rest : string) :
  single_line w = true →
  split_lines (w +:+ String (ascii_of_nat 10) rest) = w :: split_lines rest.
Proof.
  unfold single_line. induction w as [|c r IH]; [done |].
  simpl chars. simpl forallb.
  intros [[Hc Hr]%andb_prop He]%andb_prop. apply negb_true_iff in Hc.
  rewrite sapp_cons. simpl split_lines. rewrite Hc.
  destruct r as [|c' r'].
  - simpl in He. apply negb_true_iff in He.
    change (EmptyString +:+ String (ascii_of_nat 10) rest)
      with (String (ascii_of_nat 10) rest).
    rewrite He. simpl. done.
  - rewrite sapp_cons. rewrite <- sapp_cons.
    assert (Hc' : is_lf c' = false).
    { simpl in Hr. apply andb_prop in Hr as [Hc' _]. by apply negb_true_iff in Hc'. }
    rewrite Hc', andb_false_r.
    rewrite IH; [done |]. by rewrite Hr.
Qed.

Lemma split_lines_join (cells : list string) :
  Forall (λ w, single_line w = true) cells → cells ≠ [] →
  split_lines (join line_feed cells) = cells.
Proof.
  induction 1 as [|w l Hw Hl IH]; [done |]. intros _.
  destruct l as [|w' l'].
  - simpl. apply split_lines_single. unfold single_line in Hw.
    by apply andb_prop in Hw as [? _].
  - change (join line_feed (w :: w' :: l'))
      with (w +:+ line_feed +:+ join line_feed (w' :: l')).
    unfold line_feed at 1. rewrite sapp_cons.
    change (EmptyString +:+ ?x) with x.
    rewrite split_lines_cut by done. by rewrite IH.
Qed.

Lemma map_imap_text (f : nat → string → item) (g : string → string) (l : list string) :
  (∀ i x, item_text (f i x) = g x) → map item_text (imap f l) = map g l.
Proof.
  revert f. induction l as [|x l IH]; intros f Hf; [done |].
  simpl. rewrite Hf. f_equal. apply IH. intros i y. apply Hf.
Qed.

End Sheet.

(** X28: when every cell of a sheet is a single line (no line feed in it,
    no carriage return at its end), joining the cells with line feeds and
    splitting the text again gives the cells back, so the import makes its
    entries from exactly the cells with more than five characters between
    their outer white space, in row order. *)
Theorem sheet_import_entries_are_cells (cls : model) (now : nat → N)
    (rows : list (list string))
    (Hcells : Forall (λ w, single_line w = true) (concat rows)) :
  map App.item_text (newEntries cls now (sheet_text rows))
  = map Text.trim (List.filter App.kept_line (concat rows)).
Proof.
  unfold newEntries, sheet_text.
  assert (E : List.filter App.kept_line
                (App.split_lines (Text.join line_feed (concat rows)))
              = List.filter App.kept_line (concat rows)).
  { revert Hcells. destruct (concat rows) as [|w l]; [done |].
    intros Hcells. by rewrite split_lines_join. }
  rewrite E. generalize (List.filter App.kept_line (concat rows)). intros l.
  apply map_imap_text. done.
Qed.

Lemma sheet_import_entries_are_cells_witness :
  map App.item_text
      (newEntries constructor (λ _, 1700000000000%N)
         (sheet_text [["great product"; "ok"]; ["bad service "]]))
  = ["great product"; "bad service"].
Proof.
  rewrite (sheet_import_entries_are_cells constructor (λ _, 1700000000000%N)
             [["great product"; "ok"]; ["bad service "]]).
  - vm_compute. reflexivity.
  - repeat constructor.
Defined.
